(** * PX SQL Tools: the SQL context analyzer and the schema metadata cache

  A shallow embedding of [src/util/sqlParser.ts], [src/metadata/queries.ts],
  [src/metadata/schemaCache.ts] and the parts of [src/mssqlApi.ts] they rely
  on, followed by the properties of the specification that concern them.

  Conventions of the embedding.
  - A JavaScript string is a [string]: a sequence of code units below 256.
  - A JavaScript number is an integer ([Z]) or [NaN]; catalog rows carry
    lengths, precisions and scales, which are integers.
  - [undefined] for an optional field is [None].
  - Asynchronous methods are run to completion one after the other: the
    store is threaded through a state monad, and the metadata loader is an
    oracle that answers the n-th query issued. *)

From Stdlib Require Import Ascii ZArith Bool Lia.
From stdpp Require Import base option list strings pretty gmap.

Local Open Scope Z_scope.

(** ** JavaScript primitives used by the sources *)

Module Js.

Definition chars (s : string) : list ascii := String.list_ascii_of_string s.
Definition str (l : list ascii) : string := String.string_of_list_ascii l.

Definition code (c : ascii) : N := N_of_ascii c.

Definition inRange (lo hi : N) (c : ascii) : bool :=
  ((lo <=? code c) && (code c <=? hi))%N.

(** White space as [String.prototype.trim] and the regular expression
    class [\s] see it, among the code units below 256: TAB, LF, VT, FF, CR,
    SPACE and NBSP. *)
Definition isSpace (c : ascii) : bool :=
  inRange 9 13 c || (code c =? 32)%N || (code c =? 160)%N.

Definition isDigit (c : ascii) : bool := inRange 48 57 c.
Definition isUpper (c : ascii) : bool := inRange 65 90 c.
Definition isLower (c : ascii) : bool := inRange 97 122 c.
Definition isLetter (c : ascii) : bool := isUpper c || isLower c.

(** The class [\w] (no unicode flag): [A-Za-z0-9_]. *)
Definition isWord (c : ascii) : bool :=
  isLetter c || isDigit c || (code c =? 95)%N.

Definition isChar (x c : ascii) : bool := (code x =? code c)%N.

(** [String.prototype.toLowerCase] on one code unit: A-Z and the upper-case
    letters of Latin-1 (U+00C0-U+00DE without the multiplication sign). *)
Definition toLowerChar (c : ascii) : ascii :=
  if isUpper c || ((inRange 192 222 c) && negb (code c =? 215)%N)
  then ascii_of_N (code c + 32) else c.

Definition toLowerCase (s : string) : string :=
  str (map toLowerChar (chars s)).

Fixpoint dropWhile {A} (p : A -> bool) (l : list A) : list A :=
  match l with
  | [] => []
  | x :: r => if p x then dropWhile p r else l
  end.

Definition dropEnd {A} (p : A -> bool) (l : list A) : list A :=
  rev (dropWhile p (rev l)).

Definition trimStart (s : string) : string :=
  str (dropWhile isSpace (chars s)).
Definition trimEnd (s : string) : string :=
  str (dropEnd isSpace (chars s)).
Definition trim (s : string) : string :=
  str (dropEnd isSpace (dropWhile isSpace (chars s))).

Definition length (s : string) : nat := String.length s.

(** Truthiness of a string: [!value] holds exactly of the empty string. *)
Definition nonEmpty (s : string) : bool :=
  match s with EmptyString => false | String _ _ => true end.

(** [s.replace(/[...]/g, '')] for a character class. *)
Definition removeAll (p : ascii -> bool) (s : string) : string :=
  str (List.filter (fun c => negb (p c)) (chars s)).

(** [s.split(sep)] for a separator of one character. *)
Fixpoint splitGo (sep : ascii) (cur : list ascii) (cs : list ascii)
  : list string :=
  match cs with
  | [] => [str (rev cur)]
  | c :: cs' =>
      if isChar sep c then str (rev cur) :: splitGo sep [] cs'
      else splitGo sep (c :: cur) cs'
  end.
Definition split (sep : ascii) (s : string) : list string :=
  splitGo sep [] (chars s).

Fixpoint join (sep : string) (l : list string) : string :=
  match l with
  | [] => ""
  | [x] => x
  | x :: rest => x +:+ sep +:+ join sep rest
  end.

(** [s.slice(n)] and [s.slice(0, n)] for [0 <= n]; [substring] agrees with
    [slice] on these arguments. *)
Definition sliceFrom (n : nat) (s : string) : string := str (drop n (chars s)).
Definition sliceTo (n : nat) (s : string) : string := str (take n (chars s)).

(** [s.slice(0, -1)]. *)
Definition dropLast (s : string) : string :=
  str (take (Nat.pred (Datatypes.length (chars s))) (chars s)).

(** [s.charAt(n)]: the empty string out of range. *)
Definition charAt (n : nat) (s : string) : option ascii := chars s !! n.

(** [s.at(-1)]. *)
Definition lastChar (s : string) : option ascii := last (chars s).

Fixpoint isPrefix (p cs : list ascii) : bool :=
  match p, cs with
  | [], _ => true
  | a :: p', c :: cs' => isChar a c && isPrefix p' cs'
  | _ :: _, [] => false
  end.

(** [s.indexOf(needle)]; [None] stands for -1. *)
Fixpoint indexOfGo (needle : list ascii) (cs : list ascii) (i : nat)
  : option nat :=
  if isPrefix needle cs then Some i
  else match cs with
       | [] => None
       | _ :: cs' => indexOfGo needle cs' (S i)
       end.
Definition indexOf (needle s : string) : option nat :=
  indexOfGo (chars needle) (chars s) 0.

(** [s.lastIndexOf('.')] and [s.includes('.')], for one character. *)
Fixpoint lastIndexOfGo (x : ascii) (cs : list ascii) (i : nat)
  (found : option nat) : option nat :=
  match cs with
  | [] => found
  | c :: cs' =>
      lastIndexOfGo x cs' (S i) (if isChar x c then Some i else found)
  end.
Definition lastIndexOf (x : ascii) (s : string) : option nat :=
  lastIndexOfGo x (chars s) 0 None.
Definition includes (x : ascii) (s : string) : bool :=
  existsb (isChar x) (chars s).

(** [Array.prototype.pop]: the last element, if any, and what is left. *)
Definition pop {A} (l : list A) : option A * list A :=
  match rev l with
  | [] => (None, [])
  | x :: r => (Some x, rev r)
  end.

(** [Array.prototype.shift]. *)
Definition shift {A} (l : list A) : option A * list A :=
  match l with
  | [] => (None, [])
  | x :: r => (Some x, r)
  end.

(** *** Values of type [unknown] *)

Inductive Value : Type :=
| Undefined
| Null
| Bool (b : bool)
| Num (n : Z)
| NaN
| Str (s : string)
| Object.

(** [v ?? d]. *)
Definition nullish (v d : Value) : Value :=
  match v with Undefined | Null => d | _ => v end.

(** [String(v)]. *)
Definition String_ (v : Value) : string :=
  match v with
  | Undefined => "undefined"
  | Null => "null"
  | Bool true => "true"
  | Bool false => "false"
  | Num n => pretty n
  | NaN => "NaN"
  | Str s => s
  | Object => "[object Object]"
  end.

(** [Boolean(v)], the truthiness of a value. *)
Definition Boolean_ (v : Value) : bool :=
  match v with
  | Undefined | Null | NaN => false
  | Bool b => b
  | Num n => negb (n =? 0)
  | Str s => nonEmpty s
  | Object => true
  end.

Definition digitVal (c : ascii) : option Z :=
  if isDigit c then Some (Z.of_N (code c) - 48) else None.

Fixpoint parseDigits (cs : list ascii) (acc : Z) : option Z :=
  match cs with
  | [] => Some acc
  | c :: cs' =>
      match digitVal c with
      | Some d => parseDigits cs' (10 * acc + d)
      | None => None
      end
  end.

(** [Number(s)] on a string, for the numerals whose value is an integer:
    white space is trimmed, the empty string is 0, an optional sign is
    followed by decimal digits; [None] stands for [NaN].  Other numeric
    literals (fractions, exponents, radix prefixes, [Infinity]) have no
    value in this number model and are mapped to [NaN] as well. *)
Definition numberOfString (s : string) : option Z :=
  match chars (trim s) with
  | [] => Some 0
  | c :: rest =>
      if isChar "+" c then
        match rest with [] => None | _ => parseDigits rest 0 end
      else if isChar "-" c then
        match rest with [] => None | _ => Z.opp <$> parseDigits rest 0 end
      else parseDigits (c :: rest) 0
  end.

(** [Number(v)]; [None] stands for [NaN]. *)
Definition Number_ (v : Value) : option Z :=
  match v with
  | Undefined => None
  | Null => Some 0
  | Bool true => Some 1
  | Bool false => Some 0
  | Num n => Some n
  | NaN => None
  | Str s => numberOfString s
  | Object => None
  end.

End Js.


(** ** Regular expressions

  The regular expressions of the sources are written with backtracking
  matchers in continuation-passing style.  A matcher consumes a prefix of
  the input and passes the text it consumed and the rest to its
  continuation; when the continuation fails the matcher tries its next
  way to match, in the order of ECMAScript: alternatives left to right,
  quantifiers greedy. *)

Module Re.

Definition Cont (R : Type) : Type := list ascii -> list ascii -> option R.
Definition Matcher (R : Type) : Type := Cont R -> list ascii -> option R.

Definition orElse {R} (a b : option R) : option R :=
  match a with Some r => Some r | None => b end.

Definition eqIgnoreCase (a b : list ascii) : bool :=
  bool_decide (map Js.toLowerChar a = map Js.toLowerChar b).

(** A literal, under the flag [i]. *)
Definition lit {R} (s : string) : Matcher R := fun k cs =>
  let n := Datatypes.length (Js.chars s) in
  let m := take n cs in
  if eqIgnoreCase (Js.chars s) m then k m (drop n cs) else None.

(** [r1|r2] and [(?:r)?]. *)
Definition alt {R} (r1 r2 : Matcher R) : Matcher R := fun k cs =>
  orElse (r1 k cs) (r2 k cs).
Definition opt {R} (r : Matcher R) : Matcher R := fun k cs =>
  orElse (r k cs) (k [] cs).

(** [r1 r2]: the continuation receives the text of both. *)
Definition seq {R} (r1 r2 : Matcher R) : Matcher R := fun k =>
  r1 (fun m1 => r2 (fun m2 => k (m1 ++ m2))).

(** [[class]*] and [[class]+], greedy. *)
Fixpoint starFrom {R} (p : ascii -> bool) (k : Cont R)
  (acc : list ascii) (cs : list ascii) : option R :=
  match cs with
  | c :: cs' =>
      if p c then orElse (starFrom p k (acc ++ [c]) cs') (k acc cs)
      else k acc cs
  | [] => k acc cs
  end.
Definition star {R} (p : ascii -> bool) : Matcher R := fun k cs =>
  starFrom p k [] cs.
Definition plus {R} (p : ascii -> bool) : Matcher R := fun k cs =>
  match cs with
  | c :: cs' => if p c then starFrom p k [c] cs' else None
  | [] => None
  end.

(** One character of a class. *)
Definition one {R} (p : ascii -> bool) : Matcher R := fun k cs =>
  match cs with
  | c :: cs' => if p c then k [c] cs' else None
  | [] => None
  end.

(** [$] (no flag [m]): the end of the input. *)
Definition eos {R} (r : R) (cs : list ascii) : option R :=
  match cs with [] => Some r | _ :: _ => None end.

(** [\b], between the character before the position and the input that
    is left. *)
Definition isWordAt (c : option ascii) : bool :=
  match c with Some c => Js.isWord c | None => false end.
Definition wordBoundary (prev : option ascii) (cs : list ascii) : bool :=
  xorb (isWordAt prev) (isWordAt (head cs)).

(** [exec]: the leftmost position at which the expression matches. *)
Fixpoint searchFrom {R} (m : option ascii -> list ascii -> option R)
  (prev : option ascii) (cs : list ascii) : option R :=
  match m prev cs with
  | Some r => Some r
  | None =>
      match cs with
      | [] => None
      | c :: cs' => searchFrom m (Some c) cs'
      end
  end.
Definition search {R} (m : option ascii -> list ascii -> option R)
  (s : string) : option R :=
  searchFrom m None (Js.chars s).

End Re.

(** ** [src/util/sqlParser.ts] *)

Module SqlParser.

Inductive CompletionContextType : Type :=
| T_schema | T_table | T_column | T_routine | T_keyword.

Inductive RoutineCategory : Type :=
| C_procedure | C_function | C_view | C_any.

Record CompletionContextResult : Type := mkContext {
  ctx_type : CompletionContextType;
  ctx_prefix : string;
  ctx_owner : option string;
  ctx_alias : option string;
  ctx_routineCategory : option RoutineCategory
}.

Record WildcardTarget : Type := mkTarget {
  wt_schema : option string;
  wt_object : string;
  wt_alias : option string
}.

(** [asteriskRange] is kept as the pair of offsets its two positions are
    made from. *)
Record WildcardContext : Type := mkWildcard {
  wc_target : WildcardTarget;
  wc_asteriskRange : nat * nat
}.

Record QualifiedIdentifierParts : Type := mkParts {
  qi_database : option string;
  qi_schema : option string;
  qi_object : option string
}.

Definition TABLE_KEYWORDS : list string := ["from"; "join"; "update"; "into"].
Definition ROUTINE_KEYWORDS : list string := ["exec"; "execute"; "call"].

Definition inList (x : string) (l : list string) : bool :=
  bool_decide (x ∈ l).

(** The character classes of the expressions below. *)
Definition isBracket (c : ascii) : bool :=
  Js.isChar "[" c || Js.isChar "]" c.
Definition isDot (c : ascii) : bool := Js.isChar "." c.
(** [[\w\[\]\.\s]] *)
Definition isRoutineNameChar (c : ascii) : bool :=
  Js.isWord c || isBracket c || isDot c || Js.isSpace c.
(** [[\w\[\]\.]] *)
Definition isTokenChar (c : ascii) : bool :=
  Js.isWord c || isBracket c || isDot c.
(** [[\w\]\[]] *)
Definition isOwnerChar (c : ascii) : bool := Js.isWord c || isBracket c.
(** [[A-Za-z_]] and [[\w\$]] *)
Definition isWordStart (c : ascii) : bool :=
  Js.isLetter c || Js.isChar "_" c.
Definition isWordOrDollar (c : ascii) : bool :=
  Js.isWord c || Js.isChar "$" c.
(** [[,()]] and [[;,]] *)
Definition isListPunctuation (c : ascii) : bool :=
  Js.isChar "," c || Js.isChar "(" c || Js.isChar ")" c.
Definition isSeparator (c : ascii) : bool :=
  Js.isChar ";" c || Js.isChar "," c.

(** [value.replace(/[\[\]]/g, '')] *)
Definition stripBrackets (value : string) : string :=
  Js.removeAll isBracket value.

(** [/\b(exec(?:ute)?|call)\s+( [\w\[\]\.\s]* )$/i]; the result is
    capture group 2.  (Here and below a blank is written inside a group
    that ends in a star.) *)
Definition execRegex (s : string) : option string :=
  Re.search (fun prev cs =>
    if Re.wordBoundary prev cs then
      Re.alt (Re.seq (Re.lit "exec") (Re.opt (Re.lit "ute"))) (Re.lit "call")
        (fun _ =>
           Re.plus Js.isSpace (fun _ =>
             Re.star isRoutineNameChar (fun g2 => Re.eos (Js.str g2))))
        cs
    else None) s.

(** [/\b(?:create\s+or\s+alter|create|alter|drop)\s+(procedure|proc|function|view)\s+( [\w\[\]\.\s]* )$/i];
    the result is capture groups 1 and 2. *)
Definition ddlRegex (s : string) : option (string * string) :=
  Re.search (fun prev cs =>
    if Re.wordBoundary prev cs then
      Re.alt
        (Re.seq (Re.lit "create")
           (Re.seq (Re.plus Js.isSpace)
              (Re.seq (Re.lit "or")
                 (Re.seq (Re.plus Js.isSpace) (Re.lit "alter")))))
        (Re.alt (Re.lit "create") (Re.alt (Re.lit "alter") (Re.lit "drop")))
        (fun _ =>
           Re.plus Js.isSpace (fun _ =>
             Re.alt (Re.lit "procedure")
               (Re.alt (Re.lit "proc")
                  (Re.alt (Re.lit "function") (Re.lit "view")))
               (fun g1 =>
                  Re.plus Js.isSpace (fun _ =>
                    Re.star isRoutineNameChar (fun g2 =>
                      Re.eos (Js.str g1, Js.str g2))))))
        cs
    else None) s.

(** [/([\w\]\[]+)$/] *)
Definition ownerRegex (s : string) : option string :=
  Re.search (fun _ =>
    Re.plus isOwnerChar (fun g1 => Re.eos (Js.str g1))) s.

(** [/( [A-Za-z_][\w\$]* )$/i] *)
Definition lastWordRegex (s : string) : option string :=
  Re.search (fun _ =>
    Re.seq (Re.one isWordStart) (Re.star isWordOrDollar)
      (fun g1 => Re.eos (Js.str g1))) s.

(** [/([\w\[\]\.]+)$/] *)
Definition lastTokenRegex (s : string) : option string :=
  Re.search (fun _ =>
    Re.plus isTokenChar (fun g1 => Re.eos (Js.str g1))) s.

(** [/[,()]\s*$/] *)
Definition listPunctuationRegex (s : string) : bool :=
  match Re.search (fun _ =>
          Re.one isListPunctuation (fun _ =>
            Re.star Js.isSpace (fun _ => Re.eos tt))) s with
  | Some _ => true
  | None => false
  end.

(** [/([\w\[\]\.]+)\.\s*$/]; the result is capture group 1. *)
Definition qualifierRegex (s : string) : option string :=
  Re.search (fun _ =>
    Re.plus isTokenChar (fun g1 =>
      Re.lit "." (fun _ =>
        Re.star Js.isSpace (fun _ => Re.eos (Js.str g1))))) s.

(** [s.replace(/\s+/g, ' ')]: every maximal run of white space becomes one
    space. *)
Fixpoint collapseGo (inRun : bool) (cs : list ascii) : list ascii :=
  match cs with
  | [] => []
  | c :: cs' =>
      if Js.isSpace c then
        if inRun then collapseGo true cs'
        else " "%char :: collapseGo true cs'
      else c :: collapseGo false cs'
  end.
Definition collapseSpaces (s : string) : string :=
  Js.str (collapseGo false (Js.chars s)).

(** [s.replace(/\s*\.\s*/g, '.')]: every dot swallows the white space on
    both of its sides.  [pending] is the white space read since the last
    character that was kept; [afterDot] tells that a dot was the last
    character kept. *)
Fixpoint normalizeDotsGo (pending : list ascii) (afterDot : bool)
  (cs : list ascii) : list ascii :=
  match cs with
  | [] => pending
  | c :: cs' =>
      if Js.isSpace c then
        if afterDot then normalizeDotsGo [] true cs'
        else normalizeDotsGo (pending ++ [c]) false cs'
      else if isDot c then "."%char :: normalizeDotsGo [] true cs'
      else pending ++ c :: normalizeDotsGo [] false cs'
  end.
Definition normalizeDots (s : string) : string :=
  Js.str (normalizeDotsGo [] false (Js.chars s)).

Definition determineRoutineCategory (keyword : string) : RoutineCategory :=
  let lower := Js.toLowerCase keyword in
  if bool_decide (lower = "view") then C_view
  else if bool_decide (lower = "function") then C_function
  else C_procedure.

(** The loop of [parseRoutineToken]: pop until a candidate is not empty.
    Every turn removes one element, so [length parts] turns are enough. *)
Fixpoint schemaPartLoop (fuel : nat) (parts : list string)
  (schemaPart : option string) : option string :=
  match fuel with
  | O => schemaPart
  | S fuel' =>
      if (0 <? Datatypes.length parts)%nat
         && negb (from_option Js.nonEmpty false schemaPart)
      then
        let '(candidate, parts') := Js.pop parts in
        schemaPartLoop fuel' parts'
          (if from_option Js.nonEmpty false candidate
           then candidate else schemaPart)
      else schemaPart
  end.

Definition parseRoutineToken (token : string) : option string * string :=
  let trimmed := Js.trim token in
  if negb (Js.nonEmpty trimmed) then (None, "")
  else
    let withoutBrackets := stripBrackets trimmed in
    let normalized := normalizeDots withoutBrackets in
    let parts := Js.split "." normalized in
    let '(popped, parts) := Js.pop parts in
    let prefixPart := default "" popped in
    let schemaPart := schemaPartLoop (Datatypes.length parts) parts None in
    (schemaPart, prefixPart).

Definition buildRoutineContext (token : option string)
  (category : RoutineCategory) : CompletionContextResult :=
  let '(schema, prefix) := parseRoutineToken (default "" token) in
  {| ctx_type := T_routine;
     ctx_prefix := prefix;
     ctx_owner := schema;
     ctx_alias := None;
     ctx_routineCategory := Some category |}.

Definition detectRoutineContext (linePrefix : string)
  : option CompletionContextResult :=
  match execRegex linePrefix with
  | Some g2 => Some (buildRoutineContext (Some g2) C_procedure)
  | None =>
      match ddlRegex linePrefix with
      | Some (g1, g2) =>
          let category := determineRoutineCategory g1 in
          Some (buildRoutineContext (Some g2) category)
      | None => None
      end
  end.

Definition extractOwnerBeforeDot (text : string) : string :=
  let withoutTrailingDot := Js.dropLast text in
  match ownerRegex withoutTrailingDot with
  | Some g1 => stripBrackets g1
  | None => ""
  end.

Definition getLastWord (prefix : string) : string :=
  default "" (lastWordRegex prefix).

Definition getLastToken (prefix : string) : string :=
  default "" (lastTokenRegex prefix).

Definition splitToken (token : string) : option string * option string :=
  match Js.lastIndexOf "." token with
  | None => (None, Some token)
  | Some index =>
      (Some (Js.sliceTo index token), Some (Js.sliceFrom (index + 1) token))
  end.

(** [analyzeCompletionContext(document, position)], on the text of the
    line [position.line] and the column [position.character]. *)
Definition analyzeCompletionContext (lineText : string) (character : nat)
  : CompletionContextResult :=
  let linePrefix := Js.sliceTo character lineText in
  match detectRoutineContext linePrefix with
  | Some routineContext => routineContext
  | None =>
      let trimmedPrefix := Js.trimEnd linePrefix in
      if from_option isDot false (Js.lastChar trimmedPrefix) then
        let owner := extractOwnerBeforeDot trimmedPrefix in
        mkContext T_column "" (Some owner) (Some owner) None
      else
        let token := getLastToken trimmedPrefix in
        if Js.includes "." token then
          let '(ownerPart, partial) := splitToken token in
          let owner := default "" (stripBrackets <$> ownerPart) in
          mkContext T_column (default "" (stripBrackets <$> partial))
            (Some owner) (Some owner) None
        else
          let prefixWord := getLastWord trimmedPrefix in
          let lowerWord := Js.toLowerCase prefixWord in
          if inList lowerWord TABLE_KEYWORDS then
            mkContext T_table "" None None None
          else if inList lowerWord ROUTINE_KEYWORDS then
            mkContext T_routine "" None None None
          else if inList lowerWord ["select"; "where"; "and"; "or"] then
            mkContext T_keyword "" None None None
          else if listPunctuationRegex trimmedPrefix then
            mkContext T_column "" None None None
          else mkContext T_table prefixWord None None None
  end.

Definition parseTableToken (token : string)
  : option string * option string :=
  let parts := List.filter Js.nonEmpty (Js.split "." token) in
  match parts with
  | [] => (None, None)
  | _ :: _ =>
      let '(objectPart, parts) := Js.pop parts in
      match objectPart with
      | None => (None, None)
      | Some objectPart =>
          if negb (Js.nonEmpty objectPart) then (None, None)
          else
            let '(schemaPart, _) := Js.pop parts in
            (match schemaPart with
             | Some schemaPart =>
                 if Js.nonEmpty schemaPart
                 then Some (stripBrackets schemaPart) else None
             | None => None
             end,
             Some (stripBrackets objectPart))
      end
  end.

Definition ALIAS_BOUNDARIES : list string :=
  ["apply"; "cross"; "inner"; "join"; "left"; "outer"; "right"; "full";
   "where"; "group"; "order"; "having"; "union"; "intersect"; "except";
   "limit"; "offset"; "fetch"; "with"; "on"; "using"].

Definition isAliasBoundary (value : string) : bool :=
  inList (Js.toLowerCase value) ALIAS_BOUNDARIES.

(** [tokens.shift()?.replace(/[;,]/g, '') ?? ''] *)
Definition shiftCandidate (tokens : list string) : string * list string :=
  let '(t, rest) := Js.shift tokens in
  (default "" (Js.removeAll isSeparator <$> t), rest).

Definition extractAliasFromTokens (tokens : list string) : option string :=
  match tokens with
  | [] => None
  | _ :: _ =>
      let '(candidate, aliasTokens) := shiftCandidate tokens in
      if negb (Js.nonEmpty candidate) then None
      else
        let candidate :=
          if bool_decide (Js.toLowerCase candidate = "as")
          then fst (shiftCandidate aliasTokens)
          else candidate in
        if negb (Js.nonEmpty candidate) || isAliasBoundary candidate
        then None
        else Some (stripBrackets candidate)
  end.

(** The offset of the asterisk: at the cursor, or just before it. *)
Definition isAsteriskAt (text : string) (offset : nat) : bool :=
  from_option (Js.isChar "*") false (Js.charAt offset text).

Definition locateAsterisk (text : string) (originalOffset : nat)
  : option nat :=
  if isAsteriskAt text originalOffset then Some originalOffset
  else if (originalOffset =? 0)%nat
          || negb (isAsteriskAt text (originalOffset - 1))
       then None
       else Some (originalOffset - 1)%nat.

(** The qualifier written before the asterisk, as in [alias.*]. *)
Definition qualifierBefore (text : string) (asteriskOffset : nat)
  : option string :=
  let beforeText := Js.sliceTo asteriskOffset text in
  Js.trim <$> qualifierRegex beforeText.

(** The table token after [FROM] and the tokens that follow it. *)
Definition fromClauseTokens (text : string) (asteriskOffset : nat)
  : option (string * list string) :=
  let afterText := Js.sliceFrom (asteriskOffset + 1) text in
  let normalizedAfter := Js.trim (collapseSpaces afterText) in
  if negb (Js.nonEmpty normalizedAfter) then None
  else
    let lowerAfter := Js.toLowerCase normalizedAfter in
    match Js.indexOf "from " lowerAfter with
    | None => None
    | Some fromIndex =>
        let afterFrom := Js.trim (Js.sliceFrom (fromIndex + 5) normalizedAfter) in
        if negb (Js.nonEmpty afterFrom) then None
        else
          match Js.split " " afterFrom with
          | [] => None
          | rawTableToken :: remainingTokens =>
              Some (rawTableToken, remainingTokens)
          end
    end.

(** [findWildcardContext(document, position)], on [document.getText()]
    and [document.offsetAt(position)]. *)
Definition findWildcardContext (text : string) (originalOffset : nat)
  : option WildcardContext :=
  match locateAsterisk text originalOffset with
  | None => None
  | Some asteriskOffset =>
      let asteriskRange := (asteriskOffset, (asteriskOffset + 1)%nat) in
      match fromClauseTokens text asteriskOffset with
      | None => None
      | Some (rawTableToken, remainingTokens) =>
          let tableToken := Js.removeAll isSeparator rawTableToken in
          if negb (Js.nonEmpty tableToken) then None
          else
            match parseTableToken tableToken with
            | (schema, Some object) =>
                if negb (Js.nonEmpty object) then None
                else
                  let aliasFromFromClause :=
                    extractAliasFromTokens remainingTokens in
                  let qualifier := qualifierBefore text asteriskOffset in
                  let alias :=
                    match qualifier with
                    | Some q => Some q
                    | None => aliasFromFromClause
                    end in
                  Some (mkWildcard (mkTarget schema object alias)
                          asteriskRange)
            | (_, None) => None
            end
      end
  end.

(** The loop of [tokenizeQualifiedIdentifier]. *)
Definition pushTrimmed (parts : list string) (current : string)
  : list string :=
  if (0 <? Js.length (Js.trim current))%nat
  then parts ++ [Js.trim current] else parts.

Fixpoint tokenizeGo (cs : list ascii) (parts : list string)
  (current : string) (bracketDepth : nat) : list string :=
  match cs with
  | [] => pushTrimmed parts current
  | char :: cs' =>
      if Js.isChar "[" char then
        tokenizeGo cs' parts (current +:+ String char "") (bracketDepth + 1)
      else if Js.isChar "]" char then
        tokenizeGo cs' parts (current +:+ String char "")
          (Nat.max 0 (bracketDepth - 1))
      else if isDot char && (bracketDepth =? 0)%nat then
        tokenizeGo cs' (pushTrimmed parts current) "" bracketDepth
      else
        tokenizeGo cs' parts (current +:+ String char "") bracketDepth
  end.

Definition tokenizeQualifiedIdentifier (identifier : string)
  : list string :=
  tokenizeGo (Js.chars identifier) [] "" 0.

Definition normalizeIdentifierPart (value : option string)
  : option string :=
  match value with
  | None => None
  | Some value =>
      if negb (Js.nonEmpty value) then None
      else
        let trimmed := Js.trim value in
        if (0 <? Js.length trimmed)%nat then Some trimmed else None
  end.

Definition parseQualifiedIdentifier (identifier : string)
  : QualifiedIdentifierParts :=
  let parts := tokenizeQualifiedIdentifier identifier in
  match parts with
  | [] => mkParts None None None
  | _ :: _ =>
      let '(popped, parts) := Js.pop parts in
      let object := stripBrackets (default "" popped) in
      let '(schema, parts) :=
        match parts with
        | [] => (None, parts)
        | _ :: _ =>
            let '(popped, parts) := Js.pop parts in
            (Some (stripBrackets (default "" popped)), parts)
        end in
      let database :=
        match parts with
        | [] => None
        | _ :: _ =>
            Some (stripBrackets (default "" (fst (Js.pop parts))))
        end in
      {| qi_database := normalizeIdentifierPart database;
         qi_schema := normalizeIdentifierPart schema;
         qi_object := normalizeIdentifierPart (Some object) |}
  end.

End SqlParser.

(** ** [src/metadata/queries.ts] *)

Module Queries.

Definition newline : string := String (ascii_of_nat 10) "".

(** A template literal, line by line. *)
Definition template (lines : list string) : string := Js.join newline lines.

(** [value.replace(/x/g, 'xx')] for one character [x]. *)
Definition doubleChar (x : ascii) (value : string) : string :=
  Js.str (flat_map (fun c => if Js.isChar x c then [c; c] else [c])
            (Js.chars value)).

Definition escapeSqlLiteral (value : string) : string :=
  doubleChar "]" (doubleChar "'" value).

Definition escapeSqlIdentifier (value : string) : string :=
  doubleChar "]" value.

(** [database ? ... : ''] takes the first branch for a string that is
    present and not empty. *)
Definition given (database : option string) : option string :=
  match database with
  | Some d => if Js.nonEmpty d then Some d else None
  | None => None
  end.

Definition qualifyIdentifier (schema object : string)
  (database : option string) : string :=
  let databasePart :=
    match given database with
    | Some d => "[" +:+ escapeSqlIdentifier d +:+ "]."
    | None => ""
    end in
  let schemaPart := "[" +:+ escapeSqlIdentifier schema +:+ "]" in
  let objectPart := "[" +:+ escapeSqlIdentifier object +:+ "]" in
  databasePart +:+ schemaPart +:+ "." +:+ objectPart.

Definition qualifyCatalogScope (database : option string) : string :=
  match given database with
  | Some d => "[" +:+ escapeSqlIdentifier d +:+ "]."
  | None => ""
  end.

Definition allObjectsQuery (database : option string) : string :=
  let scope := qualifyCatalogScope database in
  template
    [ "";
      "SELECT";
      "    s.name AS schema_name,";
      "    o.name AS object_name,";
      "    o.type AS object_type,";
      "    o.type_desc AS object_type_desc";
      "FROM " +:+ scope +:+ "sys.objects AS o";
      "INNER JOIN " +:+ scope +:+ "sys.schemas AS s ON s.schema_id = o.schema_id";
      "WHERE o.type IN ('U', 'V', 'P', 'FN', 'IF', 'TF')";
      "ORDER BY s.name, o.name;";
      "" ].

(** The select list of [columnsForObjectQuery]: each expression with its
    alias, if it has one. *)
Definition columnsSelectList : list (string * option string) :=
  [ ("c.name", Some "column_name");
    ("t.NAME", Some "data_type");
    ("c.max_length", Some "max_length");
    ("c.precision", None);
    ("c.scale", None);
    ("c.is_nullable", None);
    ("ep.value", Some "description") ].

Fixpoint selectLines (items : list (string * option string)) : list string :=
  match items with
  | [] => []
  | (e, a) :: rest =>
      ("    " +:+ e
         +:+ match a with Some a => " AS " +:+ a | None => "" end
         +:+ match rest with [] => "" | _ :: _ => "," end)
      :: selectLines rest
  end.

(** The name under which the server returns a selected expression: its
    alias, or the column name after the qualifier. *)
Definition outputName (item : string * option string) : string :=
  match snd item with
  | Some a => a
  | None =>
      match Js.lastIndexOf "." (fst item) with
      | Some i => Js.sliceFrom (i + 1) (fst item)
      | None => fst item
      end
  end.

Definition columnsQueryOutput : list string :=
  map outputName columnsSelectList.

Definition columnsForObjectQuery (schema object : string)
  (database : option string) : string :=
  let identifier := qualifyIdentifier schema object database in
  let scope := qualifyCatalogScope database in
  template
    ([ ""; "SELECT" ] ++ selectLines columnsSelectList ++
     [ "FROM " +:+ scope +:+ "sys.columns AS c";
       "INNER JOIN " +:+ scope +:+ "sys.types AS t ON t.user_type_id = c.user_type_id";
       "LEFT JOIN " +:+ scope +:+ "sys.extended_properties AS ep ON ep.major_id = c.object_id AND ep.minor_id = c.column_id AND ep.name = 'MS_Description'";
       "WHERE c.object_id = OBJECT_ID(N'" +:+ identifier +:+ "')";
       "ORDER BY c.column_id;";
       "" ]).

Definition extendedPropertyDescriptionQuery (schema object : string)
  (database : option string) : string :=
  let scope := qualifyCatalogScope database in
  template
    [ "";
      "SELECT CAST(ep.value AS NVARCHAR(MAX)) AS description";
      "FROM " +:+ scope +:+ "sys.fn_listextendedproperty('MS_Description', 'SCHEMA', N'"
        +:+ escapeSqlLiteral schema +:+ "', 'TABLE', N'"
        +:+ escapeSqlLiteral object +:+ "', NULL, NULL);";
      "" ].

Definition foreignKeysQuery (database : option string) : string :=
  let scope := qualifyCatalogScope database in
  template
    [ "";
      "SELECT";
      "    fk.name AS constraint_name,";
      "    sch_parent.name AS parent_schema,";
      "    parent_object.name AS parent_table,";
      "    sch_ref.name AS referenced_schema,";
      "    referenced_object.name AS referenced_table,";
      "    parent_column.name AS parent_column,";
      "    referenced_column.name AS referenced_column";
      "FROM " +:+ scope +:+ "sys.foreign_keys AS fk";
      "INNER JOIN " +:+ scope +:+ "sys.foreign_key_columns AS fkc ON fkc.constraint_object_id = fk.object_id";
      "INNER JOIN " +:+ scope +:+ "sys.tables AS parent_object ON parent_object.object_id = fk.parent_object_id";
      "INNER JOIN " +:+ scope +:+ "sys.schemas AS sch_parent ON sch_parent.schema_id = parent_object.schema_id";
      "INNER JOIN " +:+ scope +:+ "sys.tables AS referenced_object ON referenced_object.object_id = fk.referenced_object_id";
      "INNER JOIN " +:+ scope +:+ "sys.schemas AS sch_ref ON sch_ref.schema_id = referenced_object.schema_id";
      "INNER JOIN " +:+ scope +:+ "sys.columns AS parent_column ON parent_column.object_id = fk.parent_object_id AND parent_column.column_id = fkc.parent_column_id";
      "INNER JOIN " +:+ scope +:+ "sys.columns AS referenced_column ON referenced_column.object_id = fk.referenced_object_id AND referenced_column.column_id = fkc.referenced_column_id;";
      "" ].

End Queries.

(** ** [src/mssqlApi.ts]: the interface the cache consumes *)

Module MssqlApi.

Record MssqlConnection : Type := mkConnection {
  conn_connectionId : option string;
  conn_server : option string;
  conn_database : option string;
  conn_user : option string
}.

(** [QueryRow]: column name to value; a column that is missing reads as
    [undefined]. *)
Abbreviation QueryRow := (gmap string Js.Value).

Record QueryResult : Type := mkResult {
  qr_columns : list string;
  qr_rows : list QueryRow
}.

Definition rowGet (row : QueryRow) (column : string) : Js.Value :=
  default Js.Undefined (row !! column).

Definition getConnectionKey (connection : option MssqlConnection)
  : option string :=
  match connection with
  | None => None
  | Some c =>
      let parts :=
        omap (fun part : option string =>
                match part with
                | Some p =>
                    if (0 <? Js.length (Js.trim p))%nat then Some p else None
                | None => None
                end)
          [conn_connectionId c; conn_server c; conn_database c; conn_user c] in
      match parts with
      | [] => None
      | _ :: _ => Some (Js.join "|" parts)
      end
  end.

(** The metadata loader behind [runQuery]: what the server answers to a
    query text when it is the n-th query that is issued; [None] is the
    absent result of a failure.  The cache always calls [runQuery] with
    [useLegacyFallback: false]. *)
Definition Loader : Type := nat -> string -> option QueryResult.

(** A cancellation token: whether cancellation has been requested by the
    time the n-th query resolves.  [runQuery] returns [undefined] for a
    token that is cancelled. *)
Definition CancellationToken : Type := nat -> bool.

Definition answer (api : Loader) (token : option CancellationToken)
  (n : nat) (query : string) : option QueryResult :=
  if from_option (fun t => t n) false token then None else api n query.

(** [runScalar], from the result of its [runQuery]. *)
Definition scalarOf (result : option QueryResult) : Js.Value :=
  match result with
  | None => Js.Undefined
  | Some result =>
      match qr_rows result, qr_columns result with
      | firstRow :: _, firstColumn :: _ => rowGet firstRow firstColumn
      | _, _ => Js.Undefined
      end
  end.

End MssqlApi.

(** ** [src/metadata/schemaCache.ts] *)

(** A JavaScript [Map] with string keys: [set] on a key that is present
  replaces its value in place, on a new key it appends, and [values]
  follows insertion order. *)
Module JsMap.

Definition t (V : Type) : Type := list (string * V).

Definition empty {V} : t V := [].

Fixpoint get {V} (k : string) (m : t V) : option V :=
  match m with
  | [] => None
  | (k', v) :: rest => if bool_decide (k' = k) then Some v else get k rest
  end.

Fixpoint set {V} (k : string) (v : V) (m : t V) : t V :=
  match m with
  | [] => [(k, v)]
  | (k', v') :: rest =>
      if bool_decide (k' = k) then (k, v) :: rest
      else (k', v') :: set k v rest
  end.

Definition values {V} (m : t V) : list V := map snd m.

End JsMap.

Module SchemaCache.
Import MssqlApi.

Inductive TableType : Type := TABLE | VIEW.
Inductive RoutineType : Type := PROCEDURE | FUNCTION.

Record ColumnMetadata : Type := mkColumn {
  cm_name : string;
  cm_dataType : string;
  cm_maxLength : option Z;
  cm_precision : option Z;
  cm_scale : option Z;
  cm_isNullable : bool;
  cm_description : option string;
  cm_isIdentity : bool;
  cm_isComputed : bool;
  cm_isRowGuid : bool;
  cm_defaultExpression : option string
}.

(** [description] is declared a string; its value is what [runScalar]
    returned, under a type assertion. *)
Record TableMetadata : Type := mkTable {
  tm_schema : string;
  tm_name : string;
  tm_type : TableType;
  tm_description : option Js.Value;
  tm_columns : option (list ColumnMetadata)
}.

Record RoutineParameter : Type := mkParameter {
  rp_name : string;
  rp_dataType : string;
  rp_maxLength : option Z;
  rp_precision : option Z;
  rp_scale : option Z;
  rp_isOutput : bool
}.

Record RoutineMetadata : Type := mkRoutine {
  rm_schema : string;
  rm_name : string;
  rm_type : RoutineType;
  rm_definition : option Js.Value;
  rm_parameters : option (list RoutineParameter)
}.

Record ForeignKeyRelation : Type := mkForeignKey {
  fk_constraint : string;
  fk_parentSchema : string;
  fk_parentTable : string;
  fk_parentColumn : string;
  fk_referencedSchema : string;
  fk_referencedTable : string;
  fk_referencedColumn : string
}.

Record CacheEntry : Type := mkEntry {
  ce_tables : JsMap.t TableMetadata;
  ce_routines : JsMap.t RoutineMetadata;
  ce_foreignKeys : list ForeignKeyRelation;
  ce_timestamp : Z
}.

Definition toObjectKey (schema name : string) : string :=
  Js.toLowerCase schema +:+ "." +:+ Js.toLowerCase name.

Definition toNumber (value : Js.Value) : option Z :=
  match value with
  | Js.Null | Js.Undefined => None
  | _ => Js.Number_ value
  end.

Definition toBoolean (value : Js.Value) : bool :=
  match value with
  | Js.Num n => negb (n =? 0)
  | Js.NaN => true
  | Js.Str s =>
      let normalized := Js.toLowerCase (Js.trim s) in
      bool_decide (normalized = "1") || bool_decide (normalized = "true")
  | _ => Js.Boolean_ value
  end.

Definition LEGACY_TYPES : list string := ["ntext"; "text"; "image"].

Definition formatDataType (row : QueryRow) : string :=
  let baseType :=
    Js.String_ (Js.nullish (rowGet row "data_type") (Js.Str "")) in
  let precision := toNumber (rowGet row "precision") in
  let scale := toNumber (rowGet row "scale") in
  let maxLength := toNumber (rowGet row "max_length") in
  let byLength :=
    match maxLength with
    | Some l =>
        if (0 <? l) && negb (bool_decide (baseType ∈ LEGACY_TYPES)) then
          if l =? -1 then baseType +:+ "(max)"
          else baseType +:+ "(" +:+ Js.String_ (Js.Num l) +:+ ")"
        else baseType
    | None => baseType
    end in
  match precision, scale with
  | Some p, Some s =>
      if 0 <? p then
        baseType +:+ "(" +:+ Js.String_ (Js.Num p) +:+ ", "
          +:+ Js.String_ (Js.Num s) +:+ ")"
      else byLength
  | _, _ => byLength
  end.

(** [row[k] ? String(row[k]) : undefined] *)
Definition stringIfTruthy (value : Js.Value) : option string :=
  if Js.Boolean_ value then Some (Js.String_ value) else None.

(** One element of the [map] in [populateColumns]. *)
Definition toColumn (row : QueryRow) : ColumnMetadata :=
  {| cm_name := Js.String_ (Js.nullish (rowGet row "column_name") (Js.Str ""));
     cm_dataType := formatDataType row;
     cm_maxLength := toNumber (rowGet row "max_length");
     cm_precision := toNumber (rowGet row "precision");
     cm_scale := toNumber (rowGet row "scale");
     cm_isNullable := toBoolean (rowGet row "is_nullable");
     cm_description := stringIfTruthy (rowGet row "description");
     cm_isIdentity := toBoolean (rowGet row "is_identity");
     cm_isComputed := toBoolean (rowGet row "is_computed");
     cm_isRowGuid := toBoolean (rowGet row "is_rowguidcol");
     cm_defaultExpression := stringIfTruthy (rowGet row "default_definition") |}.

(** *** The store and its environment *)

(** The queries the cache issues.  [queryText] is the text handed to
    [runQuery]; the constructor is kept in the trace of issued queries. *)
Inductive Fetch : Type :=
| FetchObjects (database : option string)
| FetchForeignKeys (database : option string)
| FetchColumns (schema name : string) (database : option string)
| FetchDescription (schema name : string) (database : option string).

Definition queryText (f : Fetch) : string :=
  match f with
  | FetchObjects d => Queries.allObjectsQuery d
  | FetchForeignKeys d => Queries.foreignKeysQuery d
  | FetchColumns s n d => Queries.columnsForObjectQuery s n d
  | FetchDescription s n d => Queries.extendedPropertyDescriptionQuery s n d
  end.

(** [cache] is the private map of the class; [issued] lists the queries
    handed to [runQuery] so far, oldest first; [now] is what [Date.now()]
    returns. *)
Record World : Type := mkWorld {
  cache : gmap string CacheEntry;
  issued : list Fetch;
  now : Z
}.

Definition M (A : Type) : Type := World -> A * World.

Definition ret {A} (a : A) : M A := fun w => (a, w).
Definition bind {A B} (m : M A) (k : A -> M B) : M B :=
  fun w => let '(a, w') := m w in k a w'.

Notation "'do' x <- m ; k" := (bind m (fun x => k))
  (at level 10, x name, m at level 100, k at level 200).

Definition withCache (f : gmap string CacheEntry -> gmap string CacheEntry)
  : M unit :=
  fun w => (tt, mkWorld (f (cache w)) (issued w) (now w)).

Definition readCache : M (gmap string CacheEntry) := fun w => (cache w, w).
Definition dateNow : M Z := fun w => (now w, w).

Section WithLoader.

Variable api : Loader.

Definition runQuery (f : Fetch) (token : option CancellationToken)
  : M (option QueryResult) :=
  fun w =>
    (answer api token (Datatypes.length (issued w)) (queryText f),
     mkWorld (cache w) (issued w ++ [f]) (now w)).

Definition runScalar (f : Fetch) : M Js.Value :=
  do result <- runQuery f None;
  ret (scalarOf result).

Definition dispose : M unit := withCache (fun _ => ∅).

Definition invalidate (connection : option MssqlConnection) : M unit :=
  match getConnectionKey connection with
  | Some key =>
      if Js.nonEmpty key then withCache (delete key) else ret tt
  | None => ret tt
  end.

(** The body of the first loop of [ensureCache]. *)
Definition addObjectRow
  (acc : JsMap.t TableMetadata * JsMap.t RoutineMetadata)
  (row : QueryRow) : JsMap.t TableMetadata * JsMap.t RoutineMetadata :=
  let '(tables, routines) := acc in
  let field k := Js.trim (Js.String_ (Js.nullish (rowGet row k) (Js.Str ""))) in
  let objectSchema := field "schema_name" in
  let objectName := field "object_name" in
  let type := field "object_type" in
  if negb (Js.nonEmpty objectSchema) || negb (Js.nonEmpty objectName)
  then acc
  else if bool_decide (type = "U") || bool_decide (type = "V") then
    let table :=
      mkTable objectSchema objectName
        (if bool_decide (type = "U") then TABLE else VIEW) None None in
    (JsMap.set (toObjectKey objectSchema objectName) table tables, routines)
  else if bool_decide (type ∈ ["P"; "FN"; "IF"; "TF"]) then
    let routine :=
      mkRoutine objectSchema objectName
        (if bool_decide (type = "P") then PROCEDURE else FUNCTION)
        None None in
    (tables, JsMap.set (toObjectKey objectSchema objectName) routine routines)
  else acc.

(** The body of the second loop of [ensureCache]. *)
Definition toForeignKey (row : QueryRow) : ForeignKeyRelation :=
  let field k := Js.String_ (Js.nullish (rowGet row k) (Js.Str "")) in
  {| fk_constraint := field "constraint_name";
     fk_parentSchema := field "parent_schema";
     fk_parentTable := field "parent_table";
     fk_parentColumn := field "parent_column";
     fk_referencedSchema := field "referenced_schema";
     fk_referencedTable := field "referenced_table";
     fk_referencedColumn := field "referenced_column" |}.

(** [ensureCache] returns the entry together with the key of the cache
    under which that very object is stored. *)
Definition ensureCache (connection : option MssqlConnection)
  (token : option CancellationToken) : M (option (string * CacheEntry)) :=
  match getConnectionKey connection with
  | None => ret None
  | Some key =>
      if negb (Js.nonEmpty key) then ret None
      else
        do c <- readCache;
        match c !! key with
        | Some cached => ret (Some (key, cached))
        | None =>
            let database := connection ≫= conn_database in
            do result <- runQuery (FetchObjects database) token;
            do loaded <-
              match result with
              | Some result =>
                  let '(tables, routines) :=
                    foldl addObjectRow (JsMap.empty, JsMap.empty)
                      (qr_rows result) in
                  do fkResult <- runQuery (FetchForeignKeys database) token;
                  let foreignKeys :=
                    match fkResult with
                    | Some fkResult => map toForeignKey (qr_rows fkResult)
                    | None => []
                    end in
                  ret (tables, routines, foreignKeys)
              | None => ret (JsMap.empty, JsMap.empty, [])
              end;
            let '(tables, routines, foreignKeys) := loaded in
            do timestamp <- dateNow;
            let entry := mkEntry tables routines foreignKeys timestamp in
            do _ <- withCache (insert key entry);
            ret (Some (key, entry))
        end
  end.

Definition isTableOrView (t : TableMetadata) : bool :=
  match tm_type t with TABLE => true | VIEW => true end.

Definition getTables (connection : option MssqlConnection)
  (token : option CancellationToken) : M (list TableMetadata) :=
  do entry <- ensureCache connection token;
  ret match entry with
      | Some (_, entry) =>
          List.filter isTableOrView (JsMap.values (ce_tables entry))
      | None => []
      end.

Definition getRoutines (connection : option MssqlConnection)
  : M (list RoutineMetadata) :=
  do entry <- ensureCache connection None;
  ret match entry with
      | Some (_, entry) => JsMap.values (ce_routines entry)
      | None => []
      end.

Definition getForeignKeys (connection : option MssqlConnection)
  : M (list ForeignKeyRelation) :=
  do entry <- ensureCache connection None;
  ret match entry with
      | Some (_, entry) => ce_foreignKeys entry
      | None => []
      end.

(** [options?.database ?? connection?.database] *)
Definition queryDatabaseOf (connection : option MssqlConnection)
  (options : option string) : option string :=
  match options with
  | Some d => Some d
  | None => connection ≫= conn_database
  end.

Definition populateColumns (connection : option MssqlConnection)
  (table : TableMetadata) (options : option string) : M TableMetadata :=
  let queryDatabase := queryDatabaseOf connection options in
  do result <-
    runQuery (FetchColumns (tm_schema table) (tm_name table) queryDatabase)
      None;
  match result with
  | None => ret table
  | Some result =>
      let columns := map toColumn (qr_rows result) in
      ret (mkTable (tm_schema table) (tm_name table) (tm_type table)
             (tm_description table) (Some columns))
  end.

Definition populateDescription (connection : option MssqlConnection)
  (table : TableMetadata) (options : option string) : M TableMetadata :=
  let queryDatabase := queryDatabaseOf connection options in
  do description <-
    runScalar
      (FetchDescription (tm_schema table) (tm_name table) queryDatabase);
  ret (if Js.Boolean_ description
       then mkTable (tm_schema table) (tm_name table) (tm_type table)
              (Some description) (tm_columns table)
       else table).

Definition loadTableOnDemand (connection : option MssqlConnection)
  (schema name : string) (options : option string)
  : M (option TableMetadata) :=
  match connection with
  | None => ret None
  | Some _ =>
      let table := mkTable schema name TABLE None None in
      do table <- populateColumns connection table options;
      match tm_columns table with
      | None => ret None
      | Some [] => ret None
      | Some (_ :: _) =>
          do table <- populateDescription connection table options;
          ret (Some table)
      end
  end.

Definition loadTableCrossDatabase (connection : MssqlConnection)
  (database schema name : string) : M (option TableMetadata) :=
  let clone :=
    mkConnection (conn_connectionId connection) (conn_server connection)
      (Some database) (conn_user connection) in
  loadTableOnDemand (Some clone) schema name (Some database).

(** The test that opens [getTable]; it yields the connection and the
    target database of the cross-database load. *)
Definition crossDatabaseTarget (connection : option MssqlConnection)
  (options : option string) : option (MssqlConnection * string) :=
  match options, connection with
  | Some target, Some c =>
      match conn_database c with
      | Some own =>
          if Js.nonEmpty target && Js.nonEmpty own
             && negb (bool_decide
                        (Js.toLowerCase target = Js.toLowerCase own))
          then Some (c, target) else None
      | None => None
      end
  | _, _ => None
  end.

(** [entry.tables.set(key, table)] on the entry stored under
    [connectionKey]. *)
Definition setTable (connectionKey key : string) (table : TableMetadata)
  : M unit :=
  withCache
    (alter (fun entry =>
              mkEntry (JsMap.set key table (ce_tables entry))
                (ce_routines entry) (ce_foreignKeys entry)
                (ce_timestamp entry))
       connectionKey).

Definition missing {A} (field : option A) (truthy : A -> bool) : bool :=
  negb (from_option truthy false field).

(** The lookup that follows [ensureCache] in [getTable]: the table of the
    entry, or the table loaded on demand and stored in the entry. *)
Definition lookupOrLoad (connection : option MssqlConnection)
  (schema name : string) (options : option string)
  (connectionKey : string) (entry : CacheEntry) (key : string)
  : M (option TableMetadata) :=
  match JsMap.get key (ce_tables entry) with
  | Some table => ret (Some table)
  | None =>
      do table <- loadTableOnDemand connection schema name options;
      match table with
      | None => ret None
      | Some table =>
          do _ <- setTable connectionKey key table;
          ret (Some table)
      end
  end.

(** [if (!table.columns) { ... }] *)
Definition fillColumns (connection : option MssqlConnection)
  (options : option string) (connectionKey key : string)
  (table : TableMetadata) : M TableMetadata :=
  if missing (tm_columns table) (fun _ => true) then
    do table <- populateColumns connection table options;
    do _ <- setTable connectionKey key table;
    ret table
  else ret table.

(** [if (!table.description) { ... }] *)
Definition fillDescription (connection : option MssqlConnection)
  (options : option string) (connectionKey key : string)
  (table : TableMetadata) : M TableMetadata :=
  if missing (tm_description table) Js.Boolean_ then
    do table <- populateDescription connection table options;
    do _ <- setTable connectionKey key table;
    ret table
  else ret table.

(** [options] is [options?.database]. *)
Definition getTable (connection : option MssqlConnection)
  (schema name : string) (token : option CancellationToken)
  (options : option string) : M (option TableMetadata) :=
  match crossDatabaseTarget connection options with
  | Some (c, database) => loadTableCrossDatabase c database schema name
  | None =>
      do entry <- ensureCache connection token;
      match entry with
      | None => loadTableOnDemand connection schema name options
      | Some (connectionKey, entry) =>
          let key := toObjectKey schema name in
          do found <-
            lookupOrLoad connection schema name options connectionKey entry key;
          match found with
          | None => ret None
          | Some table =>
              do table <- fillColumns connection options connectionKey key table;
              do table <-
                fillDescription connection options connectionKey key table;
              ret (Some table)
          end
      end
  end.

End WithLoader.

End SchemaCache.

(** ** The specification's wording, for comparison with the code *)

Module Spec.
Import MssqlApi SchemaCache.

(** The data-type rule as the specification words it: precision with a
    positive scale gives [BASE(precision, scale)]; otherwise a positive
    length of a type that is not a legacy text or image type gives
    [BASE(length)], the sentinel -1 giving [BASE(max)]; otherwise the
    bare base type. *)
Definition formatDataType_worded (row : QueryRow) : string :=
  let baseType :=
    Js.String_ (Js.nullish (rowGet row "data_type") (Js.Str "")) in
  let byLength :=
    match toNumber (rowGet row "max_length") with
    | Some l =>
        if bool_decide (baseType ∈ LEGACY_TYPES) then baseType
        else if l =? -1 then baseType +:+ "(max)"
        else if 0 <? l then
          baseType +:+ "(" +:+ Js.String_ (Js.Num l) +:+ ")"
        else baseType
    | None => baseType
    end in
  match toNumber (rowGet row "precision"), toNumber (rowGet row "scale") with
  | Some p, Some s =>
      if 0 <? s then
        baseType +:+ "(" +:+ Js.String_ (Js.Num p) +:+ ", "
          +:+ Js.String_ (Js.Num s) +:+ ")"
      else byLength
  | _, _ => byLength
  end.

Definition baseTypeOf (row : QueryRow) : string :=
  Js.String_ (Js.nullish (rowGet row "data_type") (Js.Str "")).

(** The first branch of the formatter applies: precision and scale are
    known and the precision is positive. *)
Definition hasDecimals (row : QueryRow) : Prop :=
  ∃ p s, toNumber (rowGet row "precision") = Some p
         ∧ toNumber (rowGet row "scale") = Some s ∧ 0 < p.

(** A row of a columns query result carries the columns that the query
    selects and no others. *)
Definition fromColumnsQuery (row : QueryRow) : Prop :=
  map_Forall (fun k _ => k ∈ Queries.columnsQueryOutput) row.

Definition flagsAbsent (c : ColumnMetadata) : Prop :=
  cm_isIdentity c = false ∧ cm_isComputed c = false
  ∧ cm_isRowGuid c = false ∧ cm_defaultExpression c = None.

(** *** Qualified identifiers *)

Definition hasNoBracket (s : string) : Prop :=
  Forall (fun c => SqlParser.isBracket c = false) (Js.chars s).

(** A resolved part: brackets stripped, white space trimmed, absent when
    nothing is left. *)
Definition resolvePart (token : option string) : option string :=
  match token with
  | None => None
  | Some t =>
      let v := Js.trim (SqlParser.stripBrackets t) in
      if Js.nonEmpty v then Some v else None
  end.

(** The tokens are read from the right: the last is the object, the one
    before it the schema, the one before that the database; any token
    further to the left is dropped. *)
Definition parse_worded (identifier : string)
  : SqlParser.QualifiedIdentifierParts :=
  let fromRight := rev (SqlParser.tokenizeQualifiedIdentifier identifier) in
  {| SqlParser.qi_database := resolvePart (fromRight !! 2%nat);
     SqlParser.qi_schema := resolvePart (fromRight !! 1%nat);
     SqlParser.qi_object := resolvePart (fromRight !! 0%nat) |}.


(** *** The dotted parts of an identifier *)






Definition withoutBrackets (part : string) : string :=
  Js.str (List.filter
            (fun c => negb (Js.isChar "[" c || Js.isChar "]" c))
            (Js.chars part)).




(** *** Routine contexts *)

(** The dotted segments of the name typed after the keyword: the text is
    trimmed, brackets are removed, white space around a dot is ignored. *)
Definition routineSegments (token : string) : list string :=
  Js.split "." (SqlParser.normalizeDots
                  (SqlParser.stripBrackets (Js.trim token))).

(** The rightmost segment, and the rightmost but one. *)
Definition rightmost (segments : list string) : string :=
  default "" (rev segments !! 0%nat).
Definition rightmostButOne (segments : list string) : option string :=
  rev segments !! 1%nat.

(** The nearest segment to the left of the rightmost one that is not
    empty. *)
Definition nearestNamedBefore (segments : list string) : option string :=
  head (List.filter Js.nonEmpty (tail (rev segments))).

(** *** Wildcards *)






(** *** The store *)

(** The entry of a bulk fetch that failed. *)
Definition emptyEntry (timestamp : Z) : CacheEntry :=
  mkEntry JsMap.empty JsMap.empty [] timestamp.

(** The connection has a default database, the call names a target, and
    the two differ as database names, that is, without regard to case. *)
Definition differentDatabase (connection : option MssqlConnection)
  (options : option string) (c : MssqlConnection) (target : string) : Prop :=
  connection = Some c ∧ options = Some target
  ∧ ∃ own, conn_database c = Some own
           ∧ target ≠ "" ∧ own ≠ ""
           ∧ Js.toLowerCase target ≠ Js.toLowerCase own.

(** The table is stored in the entry of the connection key. *)
Definition Stored (w : World) (connectionKey key : string)
  (t : TableMetadata) : Prop :=
  ∃ e, cache w !! connectionKey = Some e
       ∧ JsMap.get key (ce_tables e) = Some t.

(** A lazy field that has been filled. *)
Definition columnsFilled (t : TableMetadata) : bool :=
  negb (missing (tm_columns t) (fun _ => true)).
Definition descriptionFilled (t : TableMetadata) : bool :=
  negb (missing (tm_description t) Js.Boolean_).

Definition isBulkFetch (f : Fetch) : bool :=
  match f with
  | FetchObjects _ | FetchForeignKeys _ => true
  | _ => false
  end.
Definition isColumnsFetch (f : Fetch) : bool :=
  match f with FetchColumns _ _ _ => true | _ => false end.
Definition isDescriptionFetch (f : Fetch) : bool :=
  match f with FetchDescription _ _ _ => true | _ => false end.

(** A loader that returns the same result for the same query, whenever it
    is asked. *)
Definition deterministic (api : Loader) : Prop :=
  ∀ n m query, api n query = api m query.

(** The columns of [t] are filled, or the loader has no answer to its
    columns query. *)
Definition columnsSettled (api : Loader) (connection : option MssqlConnection)
  (options : option string) (t : TableMetadata) : Prop :=
  columnsFilled t = false →
  ∀ n, api n (Queries.columnsForObjectQuery (tm_schema t) (tm_name t)
                (queryDatabaseOf connection options)) = None.

(** The description of [t] is filled, or the loader has no description
    for it. *)
Definition descriptionSettled (api : Loader)
  (connection : option MssqlConnection) (options : option string)
  (t : TableMetadata) : Prop :=
  descriptionFilled t = false →
  ∀ n, Js.Boolean_
         (scalarOf
            (api n (Queries.extendedPropertyDescriptionQuery
                      (tm_schema t) (tm_name t)
                      (queryDatabaseOf connection options)))) = false.

(** The queries of a call that finds the table [t] in the entry. *)
Definition refetched (connection : option MssqlConnection)
  (options : option string) (t : TableMetadata) : list Fetch :=
  (if columnsFilled t then []
   else [FetchColumns (tm_schema t) (tm_name t)
           (queryDatabaseOf connection options)])
  ++ (if descriptionFilled t then []
      else [FetchDescription (tm_schema t) (tm_name t)
              (queryDatabaseOf connection options)]).

End Spec.

(** ** Sample inputs *)

Module Samples.
Import MssqlApi SchemaCache.

Definition intRow : QueryRow :=
  {[ "data_type" := Js.Str "int"; "max_length" := Js.Str "4";
     "precision" := Js.Str "10"; "scale" := Js.Str "0" ]}.

Definition nvarcharMaxRow : QueryRow :=
  {[ "data_type" := Js.Str "nvarchar"; "max_length" := Js.Str "-1" ]}.

Definition decimalRow : QueryRow :=
  {[ "data_type" := Js.Str "decimal"; "precision" := Js.Str "18";
     "scale" := Js.Str "2" ]}.

(** A connection to the database [Sales], a catalog with the table
    [dbo.Orders] and the view [dbo.OpenOrders], and a loader that answers
    from it at any time. *)
Definition salesConnection : option MssqlConnection :=
  Some (mkConnection (Some "c1") (Some "srv") (Some "Sales") (Some "sa")).

Definition salesObjects : QueryResult :=
  mkResult ["schema_name"; "object_name"; "object_type"; "object_type_desc"]
    [ {[ "schema_name" := Js.Str "dbo"; "object_name" := Js.Str "Orders";
         "object_type" := Js.Str "U "; "object_type_desc" := Js.Str "USER_TABLE" ]};
      {[ "schema_name" := Js.Str "dbo"; "object_name" := Js.Str "OpenOrders";
         "object_type" := Js.Str "V "; "object_type_desc" := Js.Str "VIEW" ]} ].

Definition ordersColumns : QueryResult :=
  mkResult Queries.columnsQueryOutput
    [ {[ "column_name" := Js.Str "Id"; "data_type" := Js.Str "int";
         "max_length" := Js.Str "4"; "precision" := Js.Str "10";
         "scale" := Js.Str "0"; "is_nullable" := Js.Str "0";
         "description" := Js.Null ]};
      {[ "column_name" := Js.Str "Note"; "data_type" := Js.Str "nvarchar";
         "max_length" := Js.Str "-1"; "precision" := Js.Str "0";
         "scale" := Js.Str "0"; "is_nullable" := Js.Str "1";
         "description" := Js.Str "Free text" ]} ].

Definition ordersDescription : QueryResult :=
  mkResult ["description"] [ {[ "description" := Js.Str "Customer orders" ]} ].

Definition answers (table : list (string * QueryResult)) : Loader :=
  fun _ query =>
    snd <$> List.find (fun entry => String.eqb (fst entry) query) table.

Definition salesLoader : Loader :=
  answers
    [ (Queries.allObjectsQuery (Some "Sales"), salesObjects);
      (Queries.foreignKeysQuery (Some "Sales"), mkResult [] []);
      (Queries.columnsForObjectQuery "dbo" "Orders" (Some "Sales"),
       ordersColumns);
      (Queries.extendedPropertyDescriptionQuery "dbo" "Orders" (Some "Sales"),
       ordersDescription);
      (Queries.columnsForObjectQuery "dbo" "OpenOrders" (Some "Sales"),
       ordersColumns);
      (Queries.columnsForObjectQuery "dbo" "Items" (Some "Archive"),
       ordersColumns) ].

(** A loader that fails on every query. *)
Definition failingLoader : Loader := fun _ _ => None.

Definition freshWorld : World := mkWorld ∅ [] 0.

(** A connection to the same server that names no database. *)
Definition serverConnection : option MssqlConnection :=
  Some (mkConnection (Some "c1") (Some "srv") None (Some "sa")).

End Samples.

(** ** Predicates for the properties of the store *)

Module StoreProps.
Import MssqlApi SchemaCache.




(** What a call may change in the cache when it works for the connection
    key [key]: entries of other keys stay as they are, no entry is
    removed, and an entry of [key] keeps its routines, its foreign keys
    and its timestamp. *)
Definition touchesOnlyTables (key : string) (w w' : World) : Prop :=
  (∀ k, k ≠ key → cache w' !! k = cache w !! k)
  ∧ (∀ e, cache w !! key = Some e →
          ∃ e', cache w' !! key = Some e'
                ∧ ce_routines e' = ce_routines e
                ∧ ce_foreignKeys e' = ce_foreignKeys e
                ∧ ce_timestamp e' = ce_timestamp e).

(** A connection without any usable field, and so without a key. *)
Definition keylessConnection : option MssqlConnection :=
  Some (mkConnection None (Some "  ") None None).

End StoreProps.

(** ** [src/metadata/queries.ts] and [src/metadata/schemaCache.ts]: routines *)

Module RoutineQueries.

Definition routineDefinitionQuery (schema object : string)
  (database : option string) : string :=
  let scope := Queries.qualifyCatalogScope database in
  Queries.template
    [ "";
      "SELECT";
      "    sm.[definition]";
      "FROM " +:+ scope +:+ "sys.sql_modules AS sm";
      "INNER JOIN " +:+ scope +:+ "sys.objects AS o ON o.object_id = sm.object_id";
      "INNER JOIN " +:+ scope +:+ "sys.schemas AS sch ON sch.schema_id = o.schema_id";
      "WHERE sch.name = N'" +:+ Queries.escapeSqlLiteral schema +:+ "'";
      "  AND o.name = N'" +:+ Queries.escapeSqlLiteral object +:+ "';";
      "" ].

Definition routineParametersQuery (schema object : string)
  (database : option string) : string :=
  let identifier := Queries.qualifyIdentifier schema object database in
  let scope := Queries.qualifyCatalogScope database in
  Queries.template
    [ "";
      "SELECT";
      "    p.parameter_id,";
      "    p.name AS parameter_name,";
      "    TYPE_NAME(p.user_type_id) AS data_type,";
      "    p.max_length,";
      "    p.precision,";
      "    p.scale,";
      "    p.is_output";
      "FROM " +:+ scope +:+ "sys.parameters AS p";
      "WHERE p.object_id = OBJECT_ID(N'" +:+ identifier +:+ "')";
      "ORDER BY p.parameter_id;";
      "" ].

End RoutineQueries.

(** [getRoutine] and what it calls.  The trace of this store names the two
    routine queries besides the four queries of the tables, so the store is
    stated again over that trace; [ensureCacheR] is [ensureCache] word for
    word. *)
Module RoutineStore.
Import MssqlApi SchemaCache.

Inductive RFetch : Type :=
| ForTables (f : Fetch)
| FetchDefinition (schema name : string) (database : option string)
| FetchParameters (schema name : string) (database : option string).

Definition rQueryText (f : RFetch) : string :=
  match f with
  | ForTables f => queryText f
  | FetchDefinition s n d => RoutineQueries.routineDefinitionQuery s n d
  | FetchParameters s n d => RoutineQueries.routineParametersQuery s n d
  end.

Record RWorld : Type := mkRWorld {
  rcache : gmap string CacheEntry;
  rissued : list RFetch;
  rnow : Z
}.

Definition RM (A : Type) : Type := RWorld -> A * RWorld.

Definition rret {A} (a : A) : RM A := fun w => (a, w).
Definition rbind {A B} (m : RM A) (k : A -> RM B) : RM B :=
  fun w => let '(a, w') := m w in k a w'.

Notation "'run' x <- m ; k" := (rbind m (fun x => k))
  (at level 10, x name, m at level 100, k at level 200).

Definition withRCache (f : gmap string CacheEntry -> gmap string CacheEntry)
  : RM unit :=
  fun w => (tt, mkRWorld (f (rcache w)) (rissued w) (rnow w)).

Section WithLoader.

Variable api : Loader.

Definition runQueryR (f : RFetch) (token : option CancellationToken)
  : RM (option QueryResult) :=
  fun w =>
    (answer api token (Datatypes.length (rissued w)) (rQueryText f),
     mkRWorld (rcache w) (rissued w ++ [f]) (rnow w)).

Definition runScalarR (f : RFetch) : RM Js.Value :=
  run result <- runQueryR f None;
  rret (scalarOf result).

Definition ensureCacheR (connection : option MssqlConnection)
  (token : option CancellationToken) : RM (option (string * CacheEntry)) :=
  match getConnectionKey connection with
  | None => rret None
  | Some key =>
      if negb (Js.nonEmpty key) then rret None
      else
        run c <- (fun w => (rcache w, w));
        match c !! key with
        | Some cached => rret (Some (key, cached))
        | None =>
            let database := connection ≫= conn_database in
            run result <- runQueryR (ForTables (FetchObjects database)) token;
            run loaded <-
              match result with
              | Some result =>
                  let '(tables, routines) :=
                    foldl addObjectRow (JsMap.empty, JsMap.empty)
                      (qr_rows result) in
                  run fkResult <-
                    runQueryR (ForTables (FetchForeignKeys database)) token;
                  let foreignKeys :=
                    match fkResult with
                    | Some fkResult => map toForeignKey (qr_rows fkResult)
                    | None => []
                    end in
                  rret (tables, routines, foreignKeys)
              | None => rret (JsMap.empty, JsMap.empty, [])
              end;
            let '(tables, routines, foreignKeys) := loaded in
            run timestamp <- (fun w => (rnow w, w));
            let entry := mkEntry tables routines foreignKeys timestamp in
            run _ <- withRCache (insert key entry);
            rret (Some (key, entry))
        end
  end.

Definition populateRoutineDefinition (connection : option MssqlConnection)
  (routine : RoutineMetadata) : RM RoutineMetadata :=
  run definition <-
    runScalarR
      (FetchDefinition (rm_schema routine) (rm_name routine)
         (connection ≫= conn_database));
  rret (if Js.Boolean_ definition
        then mkRoutine (rm_schema routine) (rm_name routine) (rm_type routine)
               (Some definition) (rm_parameters routine)
        else routine).

(** One element of the [map] in [populateRoutineParameters]. *)
Definition toParameter (row : QueryRow) : RoutineParameter :=
  {| rp_name := Js.String_ (Js.nullish (rowGet row "parameter_name") (Js.Str ""));
     rp_dataType := formatDataType row;
     rp_maxLength := toNumber (rowGet row "max_length");
     rp_precision := toNumber (rowGet row "precision");
     rp_scale := toNumber (rowGet row "scale");
     rp_isOutput := toBoolean (rowGet row "is_output") |}.

Definition populateRoutineParameters (connection : option MssqlConnection)
  (routine : RoutineMetadata) : RM RoutineMetadata :=
  run result <-
    runQueryR
      (FetchParameters (rm_schema routine) (rm_name routine)
         (connection ≫= conn_database)) None;
  match result with
  | None => rret routine
  | Some result =>
      let parameters := map toParameter (qr_rows result) in
      rret (mkRoutine (rm_schema routine) (rm_name routine) (rm_type routine)
              (rm_definition routine) (Some parameters))
  end.

(** [entry.routines.set(key, routine)] on the entry stored under
    [connectionKey]. *)
Definition setRoutine (connectionKey key : string) (routine : RoutineMetadata)
  : RM unit :=
  withRCache
    (alter (fun entry =>
              mkEntry (ce_tables entry)
                (JsMap.set key routine (ce_routines entry))
                (ce_foreignKeys entry) (ce_timestamp entry))
       connectionKey).

(** [if (!routine.definition) { ... }] *)
Definition fillDefinition (connection : option MssqlConnection)
  (connectionKey key : string) (routine : RoutineMetadata)
  : RM RoutineMetadata :=
  if missing (rm_definition routine) Js.Boolean_ then
    run routine <- populateRoutineDefinition connection routine;
    run _ <- setRoutine connectionKey key routine;
    rret routine
  else rret routine.

(** [if (!routine.parameters) { ... }] *)
Definition fillParameters (connection : option MssqlConnection)
  (connectionKey key : string) (routine : RoutineMetadata)
  : RM RoutineMetadata :=
  if missing (rm_parameters routine) (fun _ => true) then
    run routine <- populateRoutineParameters connection routine;
    run _ <- setRoutine connectionKey key routine;
    rret routine
  else rret routine.

Definition getRoutine (connection : option MssqlConnection)
  (schema name : string) : RM (option RoutineMetadata) :=
  run entry <- ensureCacheR connection None;
  match entry with
  | None => rret None
  | Some (connectionKey, entry) =>
      let key := toObjectKey schema name in
      match JsMap.get key (ce_routines entry) with
      | None => rret None
      | Some routine =>
          run routine <- fillDefinition connection connectionKey key routine;
          run routine <- fillParameters connection connectionKey key routine;
          rret (Some routine)
      end
  end.

End WithLoader.

(** Sample data: a catalog with the procedure [dbo.AddOrder]. *)
Definition routineObjects : QueryResult :=
  mkResult ["schema_name"; "object_name"; "object_type"; "object_type_desc"]
    [ {[ "schema_name" := Js.Str "dbo"; "object_name" := Js.Str "AddOrder";
         "object_type" := Js.Str "P "; "object_type_desc" := Js.Str "SQL_STORED_PROCEDURE" ]} ].

Definition addOrderParameters : QueryResult :=
  mkResult ["parameter_id"; "parameter_name"; "data_type"; "max_length";
            "precision"; "scale"; "is_output"]
    [ {[ "parameter_id" := Js.Str "1"; "parameter_name" := Js.Str "@Total";
         "data_type" := Js.Str "decimal"; "max_length" := Js.Str "9";
         "precision" := Js.Str "18"; "scale" := Js.Str "2";
         "is_output" := Js.Str "0" ]};
      {[ "parameter_id" := Js.Str "2"; "parameter_name" := Js.Str "@Id";
         "data_type" := Js.Str "int"; "max_length" := Js.Str "4";
         "precision" := Js.Str "10"; "scale" := Js.Str "0";
         "is_output" := Js.Str "1" ]} ].

Definition routineLoader : Loader :=
  Samples.answers
    [ (Queries.allObjectsQuery (Some "Sales"), routineObjects);
      (RoutineQueries.routineDefinitionQuery "dbo" "AddOrder" (Some "Sales"),
       mkResult ["definition"]
         [ {[ "definition" := Js.Str "CREATE PROCEDURE dbo.AddOrder AS RETURN" ]} ]);
      (RoutineQueries.routineParametersQuery "dbo" "AddOrder" (Some "Sales"),
       addOrderParameters) ].

Definition freshRWorld : RWorld := mkRWorld ∅ [] 0.

(** The queries of the bulk fetch. *)
Definition isBulkR (f : RFetch) : bool :=
  match f with
  | ForTables (FetchObjects _) | ForTables (FetchForeignKeys _) => true
  | _ => false
  end.

(** The routine is stored in the entry of the connection key. *)
Definition StoredRoutine (w : RWorld) (connectionKey key : string)
  (r : RoutineMetadata) : Prop :=
  ∃ e, rcache w !! connectionKey = Some e
       ∧ JsMap.get key (ce_routines e) = Some r.

End RoutineStore.

(** ** Predicates for the properties of the queries and of the parser *)

Module TextProps.

(** Every occurrence of [x] is followed by a second one that belongs to
    it: the occurrences of [x] come in pairs. *)
Fixpoint paired (x : ascii) (cs : list ascii) : bool :=
  match cs with
  | [] => true
  | c :: rest =>
      if Js.isChar x c then
        match rest with
        | c' :: rest' => Js.isChar x c' && paired x rest'
        | [] => false
        end
      else paired x rest
  end.

(** Reading a text in which [x] is doubled: each pair of [x] stands for
    one [x]. *)
Fixpoint halve (x : ascii) (cs : list ascii) : list ascii :=
  match cs with
  | [] => []
  | c :: rest =>
      if Js.isChar x c then
        match rest with
        | c' :: rest' => if Js.isChar x c' then c :: halve x rest' else c :: halve x rest
        | [] => [c]
        end
      else c :: halve x rest
  end.

(** No character of the text is in the class. *)
Definition free (p : ascii -> bool) (s : string) : Prop :=
  Forall (fun c => p c = false) (Js.chars s).

(** Every character of the text is in the class. *)
Definition within (p : ascii -> bool) (s : string) : Prop :=
  Forall (fun c => p c = true) (Js.chars s).

(** The characters that a resolved name never contains: brackets, dots,
    separators and white space. *)
Definition isNamePunctuation (c : ascii) : bool :=
  SqlParser.isBracket c || SqlParser.isDot c || SqlParser.isSeparator c
  || Js.isSpace c.

Definition isBracketOrDot (c : ascii) : bool :=
  SqlParser.isBracket c || SqlParser.isDot c.

(** The characters of [Queries.doubleChar]: each [x] written twice. *)
Definition doubled (x : ascii) (cs : list ascii) : list ascii :=
  flat_map (fun c => if Js.isChar x c then [c; c] else [c]) cs.

(** What follows a closing [x]: the end, or another character. *)
Definition closes (x : ascii) (rest : list ascii) : Prop :=
  match rest with
  | [] => True
  | next :: _ => Js.isChar x next = false
  end.

(** A run of the class ends here: the text is over, or goes on with a
    character outside the class. *)
Definition closes_class (p : ascii -> bool) (rest : list ascii) : Prop :=
  match rest with
  | [] => True
  | next :: _ => p next = false
  end.

(** A name as it is written without brackets: not empty, no white space
    around it, no bracket and no dot in it. *)
Definition plainName (s : string) : Prop :=
  s ≠ "" ∧ Js.trim s = s ∧ free isBracketOrDot s.

End TextProps.

(** ** Predicates for the properties of the connection key *)

Module KeyProps.
Import MssqlApi.

(** A field of a connection that [getConnectionKey] leaves out: absent,
    or nothing but white space. *)
Definition blank (part : option string) : bool :=
  match part with
  | Some p => negb (0 <? Js.length (Js.trim p))%nat
  | None => true
  end.

Definition onlyServer (v : string) : MssqlConnection :=
  mkConnection None (Some v) None None.
Definition onlyDatabase (v : string) : MssqlConnection :=
  mkConnection None None (Some v) None.

End KeyProps.

(** ** [src/mssqlApi.ts]: the results of the connection sharing service *)

Module ResultNormalizer.
Import MssqlApi.

(** A name of [SimpleColumnInfo] is [None] when it is absent or not a
    string. *)
Record SimpleColumnInfo : Type := mkColumnInfo {
  ci_columnName : option string;
  ci_columnNameFriendly : option string;
  ci_displayName : option string
}.

(** The fields of a cell are values, [Js.Undefined] for a field that is
    absent; [isNull] is kept as its truthiness. *)
Record DbCellValue : Type := mkCell {
  cell_displayValue : Js.Value;
  cell_invariantCultureDisplayValue : Js.Value;
  cell_isNull : bool;
  cell_value : Js.Value
}.

(** A row, and a cell of a row, may be missing: [row?.[index]], [!cell]. *)
Definition Row : Type := option (list (option DbCellValue)).

Record SimpleExecuteResult : Type := mkSimple {
  se_columnInfo : option (list (option SimpleColumnInfo));
  se_rows : option (list Row)
}.

(** [`Column${index + 1}`] *)
Definition defaultName (index : nat) : string :=
  "Column" +:+ pretty (index + 1)%nat.

Definition getColumnName (info : option SimpleColumnInfo) (index : nat)
  : string :=
  match info with
  | None => defaultName index
  | Some info =>
      let candidates :=
        map Js.trim
          (List.filter (fun value => (0 <? Js.length (Js.trim value))%nat)
             (omap id [ci_columnName info; ci_columnNameFriendly info;
                       ci_displayName info])) in
      default (defaultName index) (head candidates)
  end.

(** The loop [while (columns.includes(name)) name = `${baseName}_${suffix++}`].
    Every turn tries a name it has not tried before, so one turn more
    than there are columns is enough. *)
Fixpoint uniqueName (fuel : nat) (columns : list string)
  (baseName name : string) (suffix : nat) : string :=
  match fuel with
  | O => name
  | S fuel' =>
      if bool_decide (name ∈ columns) then
        uniqueName fuel' columns baseName
          (baseName +:+ "_" +:+ pretty suffix) (S suffix)
      else name
  end.

(** [columnInfo.forEach((info, index) => ... columns.push(name))] *)
Fixpoint pushColumns (columnInfo : list (option SimpleColumnInfo))
  (index : nat) (columns : list string) : list string :=
  match columnInfo with
  | [] => columns
  | info :: rest =>
      let baseName := getColumnName info index in
      let name :=
        uniqueName (S (Datatypes.length columns)) columns baseName baseName 1 in
      pushColumns rest (S index) (columns ++ [name])
  end.

(** The names given when no column is described: one for each cell of
    the first row. *)
Definition fallbackColumns (rows : option (list Row)) : list string :=
  match rows with
  | Some (Some first :: _) => map defaultName (seq 0 (Datatypes.length first))
  | _ => []
  end.

Definition isDefined (v : Js.Value) : bool :=
  match v with Js.Undefined => false | _ => true end.

Definition cellAt (row : Row) (index : nat) : option DbCellValue :=
  match row with
  | Some cells => match cells !! index with Some cell => cell | None => None end
  | None => None
  end.

Definition cellValue (cell : option DbCellValue) : Js.Value :=
  match cell with
  | None => Js.Undefined
  | Some cell =>
      if cell_isNull cell then Js.Null
      else if isDefined (cell_displayValue cell) then cell_displayValue cell
      else if isDefined (cell_invariantCultureDisplayValue cell)
      then cell_invariantCultureDisplayValue cell
      else if isDefined (cell_value cell) then cell_value cell
      else Js.Object
  end.

(** The row that [convertRow] returns is a plain object, created as [{}]:
    it has properties of its own and a prototype.  The prototype is
    [Object.prototype] at first; it can become [null] or an object that a
    cell holds (such objects are plain objects themselves). *)
Inductive Prototype : Type :=
| ObjectPrototype
| NullPrototype
| ValuePrototype.

Record RowObject : Type := mkRowObject {
  ro_own : gmap string Js.Value;
  ro_prototype : Prototype
}.

(** The setter of [__proto__] that [Object.prototype] provides: an object
    or [null] replaces the prototype, any other value is ignored. *)
Definition protoSetter (current : Prototype) (value : Js.Value)
  : Prototype :=
  match value with
  | Js.Object => ValuePrototype
  | Js.Null => NullPrototype
  | _ => current
  end.

(** [record[columnName] = value].  The name [__proto__] is inherited as
    an accessor from [Object.prototype], so the assignment calls its
    setter and creates no property, unless the prototype has been removed
    before; every other name becomes, or stays, a property of the
    object. *)
Definition assign (record : RowObject) (columnName : string)
  (value : Js.Value) : RowObject :=
  if String.eqb columnName "__proto__" then
    match ro_prototype record with
    | NullPrototype =>
        mkRowObject (<[columnName := value]> (ro_own record)) NullPrototype
    | current =>
        mkRowObject (ro_own record) (protoSetter current value)
    end
  else
    mkRowObject (<[columnName := value]> (ro_own record))
      (ro_prototype record).

(** [columns.forEach((columnName, index) => ...)] on [record = {}]. *)
Definition convertRow (columns : list string) (row : Row) : RowObject :=
  fold_left
    (fun (record : RowObject) '(index, columnName) =>
       assign record columnName (cellValue (cellAt row index)))
    (imap (fun index columnName => (index, columnName)) columns)
    (mkRowObject ∅ ObjectPrototype).

(** [{ columns, rows }], with the rows as [convertRow] builds them. *)
Record NormalizedResult : Type := mkNormalized {
  nr_columns : list string;
  nr_rows : list RowObject
}.

Definition normalizeSimpleExecuteResult (result : option SimpleExecuteResult)
  : option NormalizedResult :=
  match result with
  | None => None
  | Some result =>
      let columnInfo := default [] (se_columnInfo result) in
      let columns := pushColumns columnInfo 0 [] in
      let columns :=
        match columns with
        | [] => fallbackColumns (se_rows result)
        | _ :: _ => columns
        end in
      let rows := map (convertRow columns) (default [] (se_rows result)) in
      Some (mkNormalized columns rows)
  end.

(** The names the loop of [uniqueName] tries, in turn. *)
Definition candidate (baseName : string) (turn : nat) : string :=
  match turn with
  | O => baseName
  | S _ => baseName +:+ "_" +:+ pretty turn
  end.

(** A result with a column that the server names [__proto__]. *)
Definition protoResult : SimpleExecuteResult :=
  mkSimple
    (Some [Some (mkColumnInfo (Some "__proto__") None None);
           Some (mkColumnInfo (Some "n") None None)])
    (Some [Some [Some (mkCell (Js.Str "p") Js.Undefined false Js.Undefined);
                 Some (mkCell (Js.Str "7") Js.Undefined false Js.Undefined)];
           Some [Some (mkCell Js.Undefined Js.Undefined true Js.Undefined);
                 Some (mkCell (Js.Str "8") Js.Undefined false Js.Undefined)]]).

End ResultNormalizer.

(** ** The INSERT generator *)

Module InsertGenerator.
Import SchemaCache.

(** What [buildInsertSnippet] appends to its [SnippetString], call by
    call: [appendText] and [appendPlaceholder]. *)
Inductive SnippetPart : Type :=
| Text (value : string)
| Placeholder (value : string) (number : nat).

(** [/^[A-Za-z_][\w]*$/] *)
Definition identifierRegex (identifier : string) : bool :=
  match Re.one SqlParser.isWordStart (fun _ =>
          Re.star Js.isWord (fun _ => Re.eos tt)) (Js.chars identifier) with
  | Some _ => true
  | None => false
  end.

Definition wrapIdentifier (identifier : string) : string :=
  if identifierRegex identifier then identifier
  else "[" +:+ Queries.doubleChar "]" identifier +:+ "]".

Definition indent : string := "    ".

(** [if (index < columns.length - 1) snippet.appendText(',')] *)
Definition comma (index total : nat) : list SnippetPart :=
  if (index <? total - 1)%nat then [Text ","] else [].

Definition nameParts (columns : list ColumnMetadata) : list SnippetPart :=
  concat
    (imap (fun index column =>
             Text (Queries.newline +:+ indent
                   +:+ wrapIdentifier (cm_name column))
             :: comma index (Datatypes.length columns))
       columns).

(** The second [forEach], from the column at [index] on. *)
Fixpoint valueParts (total index placeholderIndex : nat)
  (columns : list ColumnMetadata) : list SnippetPart :=
  match columns with
  | [] => []
  | column :: rest =>
      Text (Queries.newline +:+ indent)
      :: (if from_option Js.nonEmpty false (cm_defaultExpression column)
          then Text "DEFAULT"
               :: comma index total
               ++ valueParts total (S index) placeholderIndex rest
          else Placeholder ("@" +:+ cm_name column) placeholderIndex
               :: comma index total
               ++ valueParts total (S index) (S placeholderIndex) rest)
  end.

Definition buildInsertSnippet (columns : list ColumnMetadata)
  : list SnippetPart :=
  [Text (Queries.newline +:+ "(")]
  ++ nameParts columns
  ++ [Text (Queries.newline +:+ ")" +:+ Queries.newline +:+ "VALUES"
            +:+ Queries.newline +:+ "(")]
  ++ valueParts (Datatypes.length columns) 0 1 columns
  ++ [Text (Queries.newline +:+ ");" +:+ Queries.newline)].

(** [table.columns.filter(...)] of [generateInsert]. *)
Definition insertableColumns (columns : list ColumnMetadata)
  : list ColumnMetadata :=
  List.filter
    (fun column => negb (cm_isIdentity column) && negb (cm_isComputed column)
                   && negb (cm_isRowGuid column))
    columns.

(** The placeholders of a snippet, in the order they were appended. *)
Definition placeholdersOf (parts : list SnippetPart) : list (string * nat) :=
  omap (fun part => match part with
                    | Placeholder value number => Some (value, number)
                    | Text _ => None
                    end) parts.

Definition hasDefault (column : ColumnMetadata) : bool :=
  from_option Js.nonEmpty false (cm_defaultExpression column).

Definition defaultsOf (parts : list SnippetPart) : nat :=
  Datatypes.length
    (List.filter (fun part => match part with
                              | Text value => bool_decide (value = "DEFAULT")
                              | Placeholder _ _ => false
                              end) parts).

End InsertGenerator.

(** ** The keywords behind a routine context *)

Module ContextProps.
Import SqlParser.

Definition CALL_WORDS : list string := ["exec"; "execute"; "call"].
Definition DDL_VERBS : list string := ["create"; "alter"; "drop"].

(** The object keywords of a DDL statement that lead to a category. *)
Definition objectWordsOf (category : RoutineCategory) : list string :=
  match category with
  | C_procedure => ["procedure"; "proc"]
  | C_function => ["function"]
  | C_view => ["view"]
  | C_any => []
  end.

(** A run of white space that is not empty. *)
Definition spacing (cs : list ascii) : Prop :=
  cs ≠ [] ∧ Forall (fun c => Js.isSpace c = true) cs.

(** [[\w\[\]\.\$]]: the characters of the last token and of the last
    word together. *)
Definition isTokenOrDollar (c : ascii) : bool :=
  isTokenChar c || Js.isChar "$" c.

(** The text is empty or ends with a character outside the class: what
    follows it starts anew. *)
Definition endsAtBreak (p : ascii -> bool) (before : string) : Prop :=
  before = "" ∨ ∃ sep, Js.lastChar before = Some sep ∧ p sep = false.

(** A word that starts with a letter or an underscore and goes on with
    word characters. *)
Definition isPlainWord (word : string) : bool :=
  match Js.chars word with
  | c :: rest => isWordStart c && forallb Js.isWord rest
  | [] => false
  end.

(** The words that decide the context, written out here in
    lower case. *)
Definition TABLE_WORDS : list string := ["from"; "join"; "update"; "into"].
Definition CLAUSE_WORDS : list string := ["select"; "where"; "and"; "or"].

(** The word is one of the listed words, in any letter case. *)
Definition isOneOf (words : list string) (word : string) : bool :=
  existsb (String.eqb (Js.toLowerCase word)) words.

(** The context that the word before the cursor stands for: a table after
    a table word, a routine after a call word, a keyword after a clause
    word, and otherwise a table whose name starts with the word. *)
Definition contextOfWord (word : string) : CompletionContextResult :=
  if isOneOf TABLE_WORDS word then mkContext T_table "" None None None
  else if isOneOf CALL_WORDS word then mkContext T_routine "" None None None
  else if isOneOf CLAUSE_WORDS word
  then mkContext T_keyword "" None None None
  else mkContext T_table word None None None.

End ContextProps.

(** ** The script commands: from CREATE to ALTER *)

Module ScriptCommands.

Section WithUpperCase.

(** [String.prototype.toUpperCase], which the default branch of
    [normalizeObjectType] calls. *)
Variable toUpperCase : string -> string.

Definition normalizeObjectType (objectType : string) : string :=
  let type := Js.toLowerCase objectType in
  if bool_decide (type = "proc") then "PROCEDURE"
  else if bool_decide (type = "procedure") then "PROCEDURE"
  else if bool_decide (type = "function") then "FUNCTION"
  else if bool_decide (type = "view") then "VIEW"
  else toUpperCase objectType.

(** [/^\s*create\s+(view|procedure|proc|function)/i]: capture group 1
    and the text after the match. *)
Definition createRegex (definition : string) : option (string * string) :=
  Re.star Js.isSpace (fun _ =>
    Re.lit "create" (fun _ =>
      Re.plus Js.isSpace (fun _ =>
        Re.alt (Re.lit "view")
          (Re.alt (Re.lit "procedure")
             (Re.alt (Re.lit "proc") (Re.lit "function")))
          (fun g1 rest => Some (Js.str g1, Js.str rest)))))
    (Js.chars definition).

(** [definition.replace(regex, (_match, objectType) => ...)]: the match
    starts the text, and what follows it is kept. *)
Definition convertToAlter (definition : string) : string :=
  match createRegex definition with
  | None => definition
  | Some (objectType, after) =>
      "ALTER " +:+ normalizeObjectType objectType +:+ after
  end.

End WithUpperCase.

(** The object keywords and what [normalizeObjectType] makes of them. *)
Definition OBJECT_TYPES : list (string * string) :=
  [("view", "VIEW"); ("procedure", "PROCEDURE"); ("proc", "PROCEDURE");
   ("function", "FUNCTION")].

End ScriptCommands.
(** * Properties *)

(** ** Sanity checks of the JavaScript primitives *)

Example js_trim_ex : Js.trim "  a b  " = "a b".
Proof. reflexivity. Qed.
Example js_split_ex : Js.split "." "a..b" = ["a"; ""; "b"].
Proof. reflexivity. Qed.
Example js_string_ex : Js.String_ (Js.Num (-12)) = "-12".
Proof. vm_compute. reflexivity. Qed.
Example js_number_ex : Js.numberOfString " -18 " = Some (-18).
Proof. vm_compute. reflexivity. Qed.
Example js_lower_ex : Js.toLowerCase "Sales.ORDERS" = "sales.orders".
Proof. reflexivity. Qed.
Example js_pop_ex : Js.pop ["a"; "b"; "c"] = (Some "c", ["a"; "b"]).
Proof. reflexivity. Qed.

(** ** Sanity checks of the parser and of the queries *)

Example normalizeDots_ex :
  SqlParser.normalizeDots "dbo . sp  x .y" = "dbo.sp  x.y".
Proof. reflexivity. Qed.
Example collapseSpaces_ex :
  SqlParser.collapseSpaces "  FROM   t  o " = " FROM t o ".
Proof. reflexivity. Qed.
Example execRegex_ex : SqlParser.execRegex "x; Execute  dbo. p" = Some "dbo. p".
Proof. vm_compute. reflexivity. Qed.
Example execRegex_no_boundary : SqlParser.execRegex "xexec dbo.p" = None.
Proof. vm_compute. reflexivity. Qed.
Example ddlRegex_ex :
  SqlParser.ddlRegex "CREATE  OR ALTER View dbo.v" = Some ("View", "dbo.v").
Proof. vm_compute. reflexivity. Qed.
Example qualifierRegex_ex : SqlParser.qualifierRegex "SELECT a.b. " = Some "a.b".
Proof. vm_compute. reflexivity. Qed.
Example analyze_after_from :
  SqlParser.analyzeCompletionContext "SELECT * FROM " 14
  = SqlParser.mkContext SqlParser.T_table "" None None None.
Proof. vm_compute. reflexivity. Qed.
Example analyze_after_dot :
  SqlParser.analyzeCompletionContext "SELECT t." 9
  = SqlParser.mkContext SqlParser.T_column "" (Some "t") (Some "t") None.
Proof. vm_compute. reflexivity. Qed.
Example findWildcard_no_from : SqlParser.findWildcardContext "SELECT 1" 7 = None.
Proof. vm_compute. reflexivity. Qed.
Example tokenize_ex :
  SqlParser.tokenizeQualifiedIdentifier " db . [dbo].[My.Table] "
  = ["db"; "[dbo]"; "[My.Table]"].
Proof. vm_compute. reflexivity. Qed.
Example qualifyIdentifier_ex :
  Queries.qualifyIdentifier "dbo" "My]Table" (Some "Sales")
  = "[Sales].[dbo].[My]]Table]".
Proof. vm_compute. reflexivity. Qed.
Example getConnectionKey_ex :
  MssqlApi.getConnectionKey Samples.salesConnection = Some "c1|srv|Sales|sa".
Proof. vm_compute. reflexivity. Qed.
Example getTables_ex :
  map SchemaCache.tm_name
    (fst (SchemaCache.getTables Samples.salesLoader Samples.salesConnection
            None Samples.freshWorld))
  = ["Orders"; "OpenOrders"].
Proof. vm_compute. reflexivity. Qed.

(** ** Strings and lists *)

Section StringFacts.

Lemma chars_str (l : list ascii) : Js.chars (Js.str l) = l.
Proof. apply String.list_ascii_of_string_of_list_ascii. Qed.

Lemma str_chars (s : string) : Js.str (Js.chars s) = s.
Proof. apply String.string_of_list_ascii_of_string. Qed.

Lemma nonEmpty_length (s : string) :
  (0 <? Js.length s)%nat = Js.nonEmpty s.
Proof. destruct s; reflexivity. Qed.

Lemma nonEmpty_true (s : string) : Js.nonEmpty s = true ↔ s ≠ "".
Proof. destruct s; simpl; split; intros; congruence. Qed.

Lemma dropWhile_idem {A} (p : A → bool) (l : list A) :
  Js.dropWhile p (Js.dropWhile p l) = Js.dropWhile p l.
Proof.
  induction l as [|x l IH]; simpl; [reflexivity|].
  destruct (p x) eqn:E; [exact IH|]. simpl. rewrite E. reflexivity.
Qed.

Lemma dropWhile_snoc {A} (p : A → bool) (l : list A) (x : A) :
  p x = false → Js.dropWhile p (l ++ [x]) = Js.dropWhile p l ++ [x].
Proof.
  intros Hx. induction l as [|y l IH]; simpl.
  - rewrite Hx. reflexivity.
  - destruct (p y); [exact IH | reflexivity].
Qed.

Lemma dropWhile_Forall {A} (P : A → Prop) (p : A → bool) (l : list A) :
  Forall P l → Forall P (Js.dropWhile p l).
Proof.
  induction 1 as [|x l Hx Hl IH]; simpl; [constructor|].
  destruct (p x); [exact IH | by constructor].
Qed.

Lemma dropEnd_Forall {A} (P : A → Prop) (p : A → bool) (l : list A) :
  Forall P l → Forall P (Js.dropEnd p l).
Proof.
  intros H. unfold Js.dropEnd.
  apply Forall_forall. intros x Hx.
  apply list_elem_of_In, in_rev, list_elem_of_In in Hx.
  assert (Forall P (Js.dropWhile p (rev l))) as H'.
  { apply dropWhile_Forall. apply Forall_forall. intros y Hy.
    apply list_elem_of_In, in_rev, list_elem_of_In in Hy.
    by eapply Forall_forall in H. }
  by eapply Forall_forall in H'.
Qed.

Lemma dropEnd_idem {A} (p : A → bool) (l : list A) :
  Js.dropEnd p (Js.dropEnd p l) = Js.dropEnd p l.
Proof.
  unfold Js.dropEnd. rewrite rev_involutive, dropWhile_idem. reflexivity.
Qed.

(** Dropping at the end keeps a first element that is not dropped at the
    start. *)
Lemma dropEnd_cons_keep {A} (p : A → bool) (x : A) (l : list A) :
  p x = false → ∃ l', Js.dropEnd p (x :: l) = x :: l'.
Proof.
  intros Hx. unfold Js.dropEnd. simpl.
  induction (rev l) as [|y r IH]; simpl.
  - rewrite Hx. simpl. eauto.
  - destruct (p y); [exact IH|]. simpl.
    rewrite rev_app_distr. simpl. eauto.
Qed.

Lemma dropWhile_dropEnd_dropWhile {A} (p : A → bool) (l : list A) :
  Js.dropWhile p (Js.dropEnd p (Js.dropWhile p l))
  = Js.dropEnd p (Js.dropWhile p l).
Proof.
  destruct (Js.dropWhile p l) as [|x m] eqn:E; [reflexivity|].
  assert (p x = false) as Hx.
  { clear -E. induction l as [|y l IH]; simpl in E; [discriminate|].
    destruct (p y) eqn:Ey; [auto|]. by inversion E; subst. }
  destruct (dropEnd_cons_keep p x m Hx) as [l' ->].
  simpl. rewrite Hx. reflexivity.
Qed.

Lemma trim_idem (s : string) : Js.trim (Js.trim s) = Js.trim s.
Proof.
  unfold Js.trim. rewrite chars_str.
  rewrite dropWhile_dropEnd_dropWhile, dropEnd_idem. reflexivity.
Qed.

Lemma trim_empty_iff (s : string) :
  Js.nonEmpty s = false → Js.nonEmpty (Js.trim s) = false.
Proof. destruct s; [reflexivity | discriminate]. Qed.

Lemma pop_rev_cons {A} (x : A) (r : list A) :
  Js.pop (rev (x :: r)) = (Some x, rev r).
Proof. unfold Js.pop. rewrite rev_involutive. reflexivity. Qed.

Lemma rev_cons_not_nil {A} (x : A) (r : list A) : rev (x :: r) ≠ [].
Proof. simpl. intros H. by apply app_eq_nil in H as [_ ?]. Qed.

End StringFacts.

(** ** Data-type formatting and column rows *)

Section Formatting.
Import MssqlApi SchemaCache Spec Samples.

Lemma formatDataType_decimals row p s :
  toNumber (rowGet row "precision") = Some p →
  toNumber (rowGet row "scale") = Some s →
  0 < p →
  formatDataType row
  = baseTypeOf row +:+ "(" +:+ Js.String_ (Js.Num p) +:+ ", "
      +:+ Js.String_ (Js.Num s) +:+ ")".
Proof.
  intros Hp Hs Hpos. unfold formatDataType, baseTypeOf.
  rewrite Hp, Hs.
  destruct (0 <? p) eqn:E; [reflexivity | apply Z.ltb_ge in E; lia].
Qed.

Lemma formatDataType_no_decimals row :
  ¬ hasDecimals row →
  formatDataType row
  = match toNumber (rowGet row "max_length") with
    | Some l =>
        if (0 <? l) && negb (bool_decide (baseTypeOf row ∈ LEGACY_TYPES))
        then
          if l =? -1 then baseTypeOf row +:+ "(max)"
          else baseTypeOf row +:+ "(" +:+ Js.String_ (Js.Num l) +:+ ")"
        else baseTypeOf row
    | None => baseTypeOf row
    end.
Proof.
  intros Hno. unfold formatDataType, baseTypeOf.
  destruct (toNumber (rowGet row "precision")) as [p|] eqn:Hp;
    [|reflexivity].
  destruct (toNumber (rowGet row "scale")) as [s|] eqn:Hs; [|reflexivity].
  destruct (0 <? p) eqn:E; [|reflexivity].
  exfalso. apply Hno. exists p, s. apply Z.ltb_lt in E. auto.
Qed.

(** The branch that renders [(max)] lies under the test [maxLength > 0]
    and is never taken: the formatter's result never ends in [(max)]
    because of a length of -1. *)
Lemma formatDataType_sentinel row :
  ¬ hasDecimals row →
  toNumber (rowGet row "max_length") = Some (-1) →
  formatDataType row = baseTypeOf row.
Proof.
  intros Hno Hl. rewrite formatDataType_no_decimals by assumption.
  rewrite Hl. reflexivity.
Qed.

(** C2, counterexample.  A column of type [int] (precision 10, scale 0,
    length 4) is rendered with its precision and scale, where the rule
    with a positive scale gives [int(4)]; and a length of -1 on
    [nvarchar] gives the bare type, not [nvarchar(max)]. *)
Lemma formatDataType_differs_from_spec :
  formatDataType intRow = "int(10, 0)"
  ∧ formatDataType_worded intRow = "int(4)"
  ∧ formatDataType nvarcharMaxRow = "nvarchar"
  ∧ formatDataType_worded nvarcharMaxRow = "nvarchar(max)".
Proof. repeat split; vm_compute; reflexivity. Qed.

(** C2, as amended.  For every catalog row the formatter renders
    [BASE(precision, scale)] when precision and scale are known and the
    precision is positive, whatever the scale; otherwise [BASE(length)]
    when the length is known and positive and the base type is not
    [ntext], [text] or [image]; otherwise, for a length other than -1 on
    a type that is not legacy, and for every length on a legacy type, the
    bare base type.  Precision 18 and scale 2 on [decimal] give
    [decimal(18, 2)]; [text] is rendered bare for every length when the
    first case does not apply. *)
Theorem formatDataType_by_design (row : QueryRow) :
  (∀ p s,
      toNumber (rowGet row "precision") = Some p →
      toNumber (rowGet row "scale") = Some s →
      0 < p →
      formatDataType row
      = baseTypeOf row +:+ "(" +:+ Js.String_ (Js.Num p) +:+ ", "
          +:+ Js.String_ (Js.Num s) +:+ ")")
  ∧ (∀ l,
        ¬ hasDecimals row →
        toNumber (rowGet row "max_length") = Some l →
        0 < l →
        baseTypeOf row ∉ LEGACY_TYPES →
        formatDataType row
        = baseTypeOf row +:+ "(" +:+ Js.String_ (Js.Num l) +:+ ")")
  ∧ (¬ hasDecimals row →
     (toNumber (rowGet row "max_length") = None
      ∨ baseTypeOf row ∈ LEGACY_TYPES
      ∨ ∃ l, toNumber (rowGet row "max_length") = Some l
             ∧ l ≤ 0 ∧ l ≠ -1) →
     formatDataType row = baseTypeOf row)
  ∧ formatDataType decimalRow = "decimal(18, 2)"
  ∧ (¬ hasDecimals row → baseTypeOf row = "text" →
     formatDataType row = "text").
Proof.
  split; [apply formatDataType_decimals|].
  split.
  { intros l Hno Hl Hpos Hleg. rewrite formatDataType_no_decimals by done.
    rewrite Hl. rewrite bool_decide_eq_false_2 by done.
    destruct (0 <? l) eqn:E; [|apply Z.ltb_ge in E; lia].
    destruct (l =? -1) eqn:E1; [apply Z.eqb_eq in E1; lia|]. reflexivity. }
  split.
  { intros Hno Hcase. rewrite formatDataType_no_decimals by done.
    destruct Hcase as [Hl | [Hleg | (l & Hl & Hle & _)]].
    - rewrite Hl. reflexivity.
    - rewrite (bool_decide_eq_true_2 _ Hleg).
      destruct (toNumber (rowGet row "max_length")); [|reflexivity].
      rewrite andb_false_r. reflexivity.
    - rewrite Hl. destruct (0 <? l) eqn:E; [apply Z.ltb_lt in E; lia|].
      reflexivity. }
  split; [vm_compute; reflexivity|].
  intros Hno Hbase. rewrite formatDataType_no_decimals by done.
  rewrite Hbase.
  assert (bool_decide ("text" ∈ LEGACY_TYPES) = true) as ->
    by (vm_compute; reflexivity).
  destruct (toNumber (rowGet row "max_length")); [|reflexivity].
  rewrite andb_false_r. reflexivity.
Qed.

Lemma formatDataType_by_design_witness :
  toNumber (rowGet decimalRow "precision") = Some 18
  ∧ toNumber (rowGet decimalRow "scale") = Some 2
  ∧ formatDataType decimalRow
    = baseTypeOf decimalRow +:+ "(" +:+ Js.String_ (Js.Num 18) +:+ ", "
        +:+ Js.String_ (Js.Num 2) +:+ ")".
Proof.
  split; [reflexivity|]. split; [reflexivity|].
  apply (proj1 (formatDataType_by_design decimalRow) 18 2);
    [reflexivity | reflexivity | lia].
Defined.

Lemma rowGet_unselected row k :
  fromColumnsQuery row → k ∉ Queries.columnsQueryOutput →
  rowGet row k = Js.Undefined.
Proof.
  intros Hrow Hk. unfold rowGet.
  destruct (row !! k) as [v|] eqn:E; [|reflexivity].
  exfalso. apply Hk. exact (Hrow k v E).
Qed.

Lemma toColumn_flagsAbsent row :
  fromColumnsQuery row → flagsAbsent (toColumn row).
Proof.
  intros Hrow. unfold flagsAbsent, toColumn; simpl.
  rewrite (rowGet_unselected row "is_identity"),
    (rowGet_unselected row "is_computed"),
    (rowGet_unselected row "is_rowguidcol"),
    (rowGet_unselected row "default_definition");
    first done;
    try assumption; apply (bool_decide_unpack _); vm_compute; exact I.
Qed.

(** C10.  Every column that [populateColumns] builds from the result of
    the columns query, whose rows carry the selected columns only, has
    [isIdentity], [isComputed] and [isRowGuid] false and no
    [defaultExpression]. *)
Theorem populateColumns_flags_absent
  (api : Loader) (connection : option MssqlConnection)
  (table : TableMetadata) (options : option string) (w : World)
  (result : QueryResult) :
  api (Datatypes.length (issued w))
    (Queries.columnsForObjectQuery (tm_schema table) (tm_name table)
       (queryDatabaseOf connection options)) = Some result →
  Forall fromColumnsQuery (qr_rows result) →
  ∃ columns,
    tm_columns (fst (populateColumns api connection table options w))
    = Some columns
    ∧ Datatypes.length columns = Datatypes.length (qr_rows result)
    ∧ Forall flagsAbsent columns.
Proof.
  intros Hq Hrows. unfold populateColumns, bind, runQuery, answer. simpl.
  rewrite Hq. simpl. eexists. split; [reflexivity|].
  split; [by rewrite length_map|].
  apply Forall_map. eapply Forall_impl; [exact Hrows|].
  intros row. apply toColumn_flagsAbsent.
Qed.

Lemma populateColumns_flags_absent_witness :
  ∃ columns,
    tm_columns
      (fst (populateColumns salesLoader salesConnection
              (mkTable "dbo" "Orders" TABLE None None) None freshWorld))
    = Some columns
    ∧ Datatypes.length columns = Datatypes.length (qr_rows ordersColumns)
    ∧ Forall flagsAbsent columns.
Proof.
  apply (populateColumns_flags_absent salesLoader salesConnection
           (mkTable "dbo" "Orders" TABLE None None) None freshWorld
           ordersColumns).
  - vm_compute. reflexivity.
  - unfold ordersColumns; simpl.
    apply Forall_cons; split; [|apply Forall_cons; split; [|apply Forall_nil]];
      apply (bool_decide_unpack _); vm_compute; exact I.
Defined.

End Formatting.

(** ** Qualified identifiers *)

Section QualifiedIdentifiers.
Import SqlParser Spec.



Lemma normalize_stripped (t : string) :
  normalizeIdentifierPart (Some (stripBrackets t)) = resolvePart (Some t).
Proof.
  unfold normalizeIdentifierPart, resolvePart.
  rewrite nonEmpty_length.
  destruct (Js.nonEmpty (stripBrackets t)) eqn:E; simpl; [reflexivity|].
  by rewrite trim_empty_iff.
Qed.


(** One [pop] on a token list that is not empty, together with the test
    of its length that guards it. *)
Ltac pop_known x r :=
  let Hpop := fresh "Hpop" in
  let Hne := fresh "Hne" in
  pose proof (pop_rev_cons x r) as Hpop;
  pose proof (rev_cons_not_nil x r) as Hne;
  destruct (rev (x :: r)); [done|];
  rewrite Hpop; clear Hpop Hne.

Lemma parse_as_worded (identifier : string) :
  parseQualifiedIdentifier identifier = parse_worded identifier.
Proof.
  unfold parseQualifiedIdentifier, parse_worded.
  set (l := tokenizeQualifiedIdentifier identifier).
  rewrite <- (rev_involutive l).
  destruct (rev l) as [|a [|b [|c r]]]; clear l.
  - reflexivity.
  - rewrite rev_involutive. pop_known a (@nil string).
    cbn [rev lookup list_lookup default from_option fst snd].
    rewrite normalize_stripped. reflexivity.
  - rewrite rev_involutive. pop_known a [b]. pop_known b (@nil string).
    cbn [rev lookup list_lookup default from_option fst snd].
    rewrite !normalize_stripped. reflexivity.
  - rewrite rev_involutive.
    pop_known a (b :: c :: r). pop_known b (c :: r). pop_known c r.
    cbn [lookup list_lookup default from_option fst snd].
    rewrite !normalize_stripped. reflexivity.
Qed.


(** C3.  The text ["[a]]b]"] is the name ["a]b"] as the repository
    writes it: [wrapIdentifier] and [qualifyIdentifier] double a closing
    bracket inside the brackets.  [parseQualifiedIdentifier] does not read
    the doubled bracket as one literal bracket: it removes every bracket,
    so the part is ["ab"], not ["a]b"], and a dot after the doubled
    bracket splits the name in two. *)
Theorem parse_escaped_bracket_lost :
  parseQualifiedIdentifier "[a]]b]" = mkParts None None (Some "ab")
  ∧ qi_object (parseQualifiedIdentifier "[a]]b]") ≠ Some "a]b"
  ∧ InsertGenerator.wrapIdentifier "a]b" = "[a]]b]"
  ∧ Queries.qualifyIdentifier "dbo" "a]b" None = "[dbo].[a]]b]"
  ∧ parseQualifiedIdentifier (Queries.qualifyIdentifier "dbo" "a]b" None)
    = mkParts None (Some "dbo") (Some "ab")
  ∧ parseQualifiedIdentifier (InsertGenerator.wrapIdentifier "a].b")
    = mkParts None (Some "a") (Some "b").
Proof.
  split; [vm_compute; reflexivity|].
  split; [vm_compute; discriminate|].
  do 3 (split; [vm_compute; reflexivity|]). vm_compute. reflexivity.
Qed.

End QualifiedIdentifiers.

(** ** Routine contexts *)

Section RoutineContexts.
Import SqlParser Spec.

Lemma pop_as_rev {A} (l : list A) :
  Js.pop l = (rev l !! 0%nat, rev (tail (rev l))).
Proof. unfold Js.pop. destruct (rev l); reflexivity. Qed.

Lemma schemaPartLoop_found (fuel : nat) (parts : list string) (c : string) :
  Js.nonEmpty c = true → schemaPartLoop fuel parts (Some c) = Some c.
Proof.
  intros Hc. destruct fuel; simpl; [reflexivity|].
  rewrite Hc, andb_false_r. reflexivity.
Qed.

(** The loop returns the first candidate, from the right, that is not
    empty. *)
Lemma schemaPartLoop_nearest (r : list string) :
  schemaPartLoop (Datatypes.length (rev r)) (rev r) None
  = head (List.filter Js.nonEmpty r).
Proof.
  induction r as [|c r IH]; [reflexivity|].
  change (rev (c :: r)) with (rev r ++ [c]) at 1.
  rewrite length_app, Nat.add_comm. cbn [Datatypes.length Nat.add schemaPartLoop].
  rewrite pop_rev_cons.
  assert ((0 <? Datatypes.length (rev (c :: r)))%nat = true) as ->.
  { simpl. rewrite length_app. simpl. apply Nat.ltb_lt. lia. }
  cbn [from_option negb andb List.filter].
  destruct (Js.nonEmpty c) eqn:Hc.
  - simpl. by apply schemaPartLoop_found.
  - exact IH.
Qed.

Lemma parseRoutineToken_segments (token : string) :
  parseRoutineToken token
  = (nearestNamedBefore (routineSegments token),
     rightmost (routineSegments token)).
Proof.
  unfold parseRoutineToken, nearestNamedBefore, rightmost, routineSegments.
  destruct (Js.nonEmpty (Js.trim token)) eqn:E; simpl.
  - rewrite pop_as_rev.
    set (r := rev (Js.split "." _)).
    rewrite schemaPartLoop_nearest. reflexivity.
  - destruct (Js.trim token); [reflexivity | discriminate].
Qed.

Lemma nearest_is_second (segments : list string) (s : string) :
  rightmostButOne segments = Some s → s ≠ "" →
  nearestNamedBefore segments = Some s.
Proof.
  unfold rightmostButOne, nearestNamedBefore.
  destruct (rev segments) as [|a [|b r]]; simpl; try discriminate.
  intros [= ->] Hs. apply nonEmpty_true in Hs. rewrite Hs. reflexivity.
Qed.

(** C7, counterexample.  After [EXEC db..sp_] the rightmost segment but
    one is empty, and the owner is [db]. *)
Lemma routine_owner_skips_empty_segment :
  execRegex "EXEC db..sp_" = Some "db..sp_"
  ∧ rightmostButOne (routineSegments "db..sp_") = Some ""
  ∧ ctx_owner (analyzeCompletionContext "EXEC db..sp_" 12) = Some "db".
Proof. repeat split; vm_compute; reflexivity. Qed.

(** C7, as amended.  When the text before the cursor matches the
    [EXEC]/[EXECUTE]/[CALL] expression, the context is a routine context of
    category procedure whose prefix is the rightmost dotted segment typed
    so far (possibly empty) and whose owner is the nearest segment to its
    left that is not empty, absent if there is none; this is the rightmost
    segment but one whenever that one is not empty.  For [EXEC dbo.sp_]
    the owner is [dbo] and the prefix [sp_]. *)
Theorem exec_context_is_procedure
  (lineText : string) (character : nat) (token : string) :
  execRegex (Js.sliceTo character lineText) = Some token →
  let segments := routineSegments token in
  analyzeCompletionContext lineText character
  = mkContext T_routine (rightmost segments) (nearestNamedBefore segments)
      None (Some C_procedure)
  ∧ (∀ s, rightmostButOne segments = Some s → s ≠ "" →
          ctx_owner (analyzeCompletionContext lineText character) = Some s)
  ∧ analyzeCompletionContext "EXEC dbo.sp_" 12
    = mkContext T_routine "sp_" (Some "dbo") None (Some C_procedure).
Proof.
  intros Hexec segments.
  assert (analyzeCompletionContext lineText character
          = mkContext T_routine (rightmost segments)
              (nearestNamedBefore segments) None (Some C_procedure)) as Heq.
  { unfold analyzeCompletionContext, detectRoutineContext.
    rewrite Hexec. unfold buildRoutineContext.
    cbn [default from_option]. rewrite parseRoutineToken_segments.
    reflexivity. }
  split; [exact Heq|]. split; [|vm_compute; reflexivity].
  intros s Hs Hne. rewrite Heq. simpl. by apply nearest_is_second.
Qed.

Lemma exec_context_is_procedure_witness :
  analyzeCompletionContext "EXECUTE  [dbo] . [sp" 20
  = mkContext T_routine "sp" (Some "dbo") None (Some C_procedure).
Proof.
  apply (exec_context_is_procedure "EXECUTE  [dbo] . [sp" 20 "[dbo] . [sp").
  vm_compute. reflexivity.
Defined.

End RoutineContexts.

(** ** Wildcards *)

Section Wildcards.
Import SqlParser Spec.

Lemma inList_existsb (x : string) (l : list string) :
  inList x l = existsb (String.eqb x) l.
Proof.
  unfold inList. induction l as [|y l IH]; [reflexivity|].
  cbn [existsb]. rewrite <- IH. destruct (String.eqb_spec x y) as [->|Hne].
  - rewrite bool_decide_eq_true_2; [reflexivity | left].
  - cbn [orb]. apply bool_decide_ext. rewrite elem_of_cons.
    split; [intros [E|H]; [done | exact H] | intros H; by right].
Qed.







End Wildcards.

(** ** The schema cache *)

Section CacheFacts.
Import MssqlApi SchemaCache Spec Samples.

Lemma jsmap_get_set {V} (k : string) (v : V) (m : JsMap.t V) :
  JsMap.get k (JsMap.set k v m) = Some v.
Proof.
  induction m as [|[k' v'] m IH]; simpl.
  - by rewrite bool_decide_eq_true_2.
  - case_bool_decide; simpl.
    + by rewrite bool_decide_eq_true_2.
    + by rewrite bool_decide_eq_false_2.
Qed.

Lemma keyPart_nonEmpty (part : option string) (p : string) :
  match part with
  | Some p => if (0 <? Js.length (Js.trim p))%nat then Some p else None
  | None => None
  end = Some p →
  Js.nonEmpty p = true.
Proof.
  destruct part as [q|]; [|discriminate].
  destruct q; [discriminate|].
  destruct (0 <? _)%nat; [|discriminate]. by intros [= <-].
Qed.

Lemma getConnectionKey_nonEmpty connection key :
  getConnectionKey connection = Some key → Js.nonEmpty key = true.
Proof.
  unfold getConnectionKey. destruct connection as [c|]; [|discriminate].
  destruct (omap _ _) as [|p ps] eqn:E; [discriminate|].
  intros [= <-].
  assert (p ∈ p :: ps) as Hin by left.
  rewrite <- E in Hin. apply list_elem_of_omap in Hin as (part & _ & Hp).
  apply keyPart_nonEmpty in Hp.
  destruct p; [discriminate|]. destruct ps; reflexivity.
Qed.

Lemma getConnectionKey_connected connection key :
  getConnectionKey connection = Some key → ∃ c, connection = Some c.
Proof. destruct connection; [eauto | discriminate]. Qed.

(** *** [ensureCache] *)

Lemma ensureCache_hit api connection token w key e :
  getConnectionKey connection = Some key →
  cache w !! key = Some e →
  ensureCache api connection token w = (Some (key, e), w).
Proof.
  intros Hk He. unfold ensureCache.
  rewrite Hk, (getConnectionKey_nonEmpty _ _ Hk).
  cbn [negb]. unfold bind, readCache. rewrite He. reflexivity.
Qed.

Lemma ensureCache_miss api connection token w key :
  getConnectionKey connection = Some key →
  cache w !! key = None →
  let database := connection ≫= conn_database in
  let result :=
    answer api token (Datatypes.length (issued w))
      (Queries.allObjectsQuery database) in
  ∃ e more,
    ensureCache api connection token w
    = (Some (key, e),
       mkWorld (<[key := e]> (cache w))
         (issued w ++ FetchObjects database :: more) (now w))
    ∧ more = match result with
             | Some _ => [FetchForeignKeys database]
             | None => []
             end
    ∧ (result = None → e = emptyEntry (now w)).
Proof.
  intros Hk Hc database result. subst result. unfold ensureCache.
  rewrite Hk, (getConnectionKey_nonEmpty _ _ Hk).
  cbn [negb]. unfold bind, readCache, runQuery, dateNow, withCache, ret.
  rewrite Hc. fold database. cbn [queryText issued cache now].
  destruct (answer api token _ (Queries.allObjectsQuery database))
    as [objects|].
  - destruct (foldl addObjectRow _ _) as [tables routines].
    cbn [issued cache now].
    eexists _, _. split; [|split; [reflexivity | discriminate]].
    rewrite <- app_assoc. reflexivity.
  - eexists _, _. split; [reflexivity|]. split; reflexivity.
Qed.

Lemma ensureCache_entry api connection token w key :
  getConnectionKey connection = Some key →
  ∃ e w' more,
    ensureCache api connection token w = (Some (key, e), w')
    ∧ cache w' !! key = Some e
    ∧ issued w' = issued w ++ more
    ∧ Forall (fun f => isBulkFetch f = true) more.
Proof.
  intros Hk. destruct (cache w !! key) as [e|] eqn:Hc.
  - exists e, w, []. rewrite (ensureCache_hit _ _ _ _ _ _ Hk Hc).
    rewrite app_nil_r. auto.
  - destruct (ensureCache_miss api connection token w key Hk Hc)
      as (e & more & -> & Hmore & _).
    eexists _, _, _. split; [reflexivity|].
    cbn [cache issued]. split; [apply lookup_insert_eq|].
    split; [reflexivity|].
    constructor; [reflexivity|]. rewrite Hmore.
    destruct (answer _ _ _ _); repeat constructor.
Qed.

(** *** The loads *)

Lemma populateColumns_run api connection t options w :
  populateColumns api connection t options w
  = (match api (Datatypes.length (issued w))
             (Queries.columnsForObjectQuery (tm_schema t) (tm_name t)
                (queryDatabaseOf connection options)) with
     | Some result =>
         mkTable (tm_schema t) (tm_name t) (tm_type t) (tm_description t)
           (Some (map toColumn (qr_rows result)))
     | None => t
     end,
     mkWorld (cache w)
       (issued w ++ [FetchColumns (tm_schema t) (tm_name t)
                       (queryDatabaseOf connection options)])
       (now w)).
Proof.
  unfold populateColumns, bind, runQuery, answer. cbn [from_option queryText].
  destruct (api _ _); reflexivity.
Qed.

Lemma populateDescription_run api connection t options w :
  populateDescription api connection t options w
  = (let description :=
       scalarOf (api (Datatypes.length (issued w))
                   (Queries.extendedPropertyDescriptionQuery
                      (tm_schema t) (tm_name t)
                      (queryDatabaseOf connection options))) in
     if Js.Boolean_ description
     then mkTable (tm_schema t) (tm_name t) (tm_type t) (Some description)
            (tm_columns t)
     else t,
     mkWorld (cache w)
       (issued w ++ [FetchDescription (tm_schema t) (tm_name t)
                       (queryDatabaseOf connection options)])
       (now w)).
Proof. reflexivity. Qed.

(** What an on-demand load returns and which queries it issues. *)
Lemma loadTableOnDemand_run api connection schema name options w r w' :
  loadTableOnDemand api connection schema name options w = (r, w') →
  cache w' = cache w
  ∧ (∃ more, issued w' = issued w ++ more
             ∧ Forall (fun f => isBulkFetch f = false) more)
  ∧ ∀ t, r = Some t →
         tm_type t = TABLE ∧ tm_schema t = schema ∧ tm_name t = name
         ∧ columnsFilled t = true.
Proof.
  unfold loadTableOnDemand. destruct connection as [c|].
  2:{ intros [= <- <-]. split; [reflexivity|]. split; [|discriminate].
      exists []. by rewrite app_nil_r. }
  unfold bind. rewrite populateColumns_run. cbn [tm_schema tm_name].
  destruct (api _ _) as [result|]; cbn [tm_columns tm_description tm_type].
  2:{ intros [= <- <-]. split; [reflexivity|]. split; [|discriminate].
      eexists. split; [reflexivity|]. repeat constructor. }
  destruct (map toColumn (qr_rows result)) as [|col cols].
  { intros [= <- <-]. split; [reflexivity|]. split; [|discriminate].
    eexists. split; [reflexivity|]. repeat constructor. }
  rewrite populateDescription_run.
  cbn [tm_schema tm_name tm_type tm_columns tm_description cache issued now].
  intros [= <- <-]. split; [reflexivity|]. split.
  { eexists. cbn [issued]. rewrite <- app_assoc. split; [reflexivity|].
    repeat constructor. }
  intros t [= <-]. destruct (Js.Boolean_ _); repeat split.
Qed.

(** The result of an on-demand load depends on the world through the
    answers of the loader only. *)
Lemma loadTableOnDemand_result api connection schema name options w w' :
  Datatypes.length (issued w) = Datatypes.length (issued w') →
  fst (loadTableOnDemand api connection schema name options w)
  = fst (loadTableOnDemand api connection schema name options w').
Proof.
  intros Hlen. unfold loadTableOnDemand. destruct connection as [c|];
    [|reflexivity].
  unfold bind. rewrite !populateColumns_run. rewrite Hlen.
  cbn [tm_schema tm_name].
  destruct (api _ _) as [result|]; cbn [tm_columns]; [|reflexivity].
  destruct (map toColumn (qr_rows result)); [reflexivity|].
  rewrite !populateDescription_run. cbn [fst issued].
  rewrite !length_app, Hlen. reflexivity.
Qed.

Lemma loadTableOnDemand_deterministic api connection schema name options w w' :
  deterministic api →
  fst (loadTableOnDemand api connection schema name options w)
  = fst (loadTableOnDemand api connection schema name options w').
Proof.
  intros Hdet. unfold loadTableOnDemand. destruct connection as [c|];
    [|reflexivity].
  unfold bind. rewrite !populateColumns_run.
  rewrite (Hdet (Datatypes.length (issued w)) (Datatypes.length (issued w'))).
  cbn [tm_schema tm_name].
  destruct (api _ _) as [result|]; cbn [tm_columns]; [|reflexivity].
  destruct (map toColumn (qr_rows result)); [reflexivity|].
  rewrite !populateDescription_run. cbn [fst issued tm_schema tm_name].
  match goal with
  | |- context [api ?n ?q] =>
      match goal with
      | |- context [api ?m q] =>
          lazymatch n with m => fail | _ => rewrite (Hdet n m) end
      end
  end.
  reflexivity.
Qed.

Lemma crossDatabaseTarget_different connection options c target :
  differentDatabase connection options c target →
  crossDatabaseTarget connection options = Some (c, target).
Proof.
  intros (-> & -> & own & Hown & Ht & Ho & Hne).
  unfold crossDatabaseTarget. rewrite Hown.
  apply nonEmpty_true in Ht, Ho. rewrite Ht, Ho.
  by rewrite bool_decide_eq_false_2.
Qed.

End CacheFacts.

Section CacheClaims.
Import MssqlApi SchemaCache Spec Samples.

Lemma setTable_run connectionKey key t w e :
  cache w !! connectionKey = Some e →
  Stored (snd (setTable connectionKey key t w)) connectionKey key t
  ∧ issued (snd (setTable connectionKey key t w)) = issued w.
Proof.
  intros He. unfold setTable, withCache, Stored. cbn [snd cache issued].
  split; [|reflexivity].
  rewrite lookup_alter_eq, He. cbn [fmap option_fmap option_map].
  eexists. split; [reflexivity|]. cbn [ce_tables]. apply jsmap_get_set.
Qed.

Lemma fillColumns_keeps api connection options connectionKey key t w :
  let t' := fst (fillColumns api connection options connectionKey key t w) in
  tm_type t' = tm_type t ∧ tm_schema t' = tm_schema t
  ∧ tm_name t' = tm_name t ∧ tm_description t' = tm_description t.
Proof.
  unfold fillColumns. destruct (missing _ _); [|by cbn].
  unfold bind. rewrite populateColumns_run.
  destruct (api _ _); cbn; auto.
Qed.

Lemma fillDescription_keeps api connection options connectionKey key t w :
  let t' := fst (fillDescription api connection options connectionKey key t w) in
  tm_type t' = tm_type t ∧ tm_schema t' = tm_schema t
  ∧ tm_name t' = tm_name t ∧ tm_columns t' = tm_columns t.
Proof.
  unfold fillDescription. destruct (missing _ _); [|by cbn].
  unfold bind. rewrite populateDescription_run.
  cbv zeta. destruct (Js.Boolean_ _); cbn; auto.
Qed.

(** C9.  Every table that the on-demand load returns has kind [TABLE],
    whatever the loader answers: from [loadTableOnDemand], from
    [loadTableCrossDatabase], and from [getTable] when the call is a
    cross-database call or the entry of the connection lacks the object. *)
Theorem on_demand_kind_is_TABLE (api : Loader) :
  (∀ connection schema name options w t,
      fst (loadTableOnDemand api connection schema name options w) = Some t →
      tm_type t = TABLE)
  ∧ (∀ c database schema name w t,
        fst (loadTableCrossDatabase api c database schema name w) = Some t →
        tm_type t = TABLE)
  ∧ (∀ connection schema name token options w t,
        fst (getTable api connection schema name token options w) = Some t →
        (is_Some (crossDatabaseTarget connection options)
         ∨ ∀ connectionKey e,
             fst (ensureCache api connection token w) = Some (connectionKey, e) →
             JsMap.get (toObjectKey schema name) (ce_tables e) = None) →
        tm_type t = TABLE).
Proof.
  assert (∀ connection schema name options w t,
             fst (loadTableOnDemand api connection schema name options w)
             = Some t → tm_type t = TABLE) as Hload.
  { intros connection schema name options w t Ht.
    destruct (loadTableOnDemand _ _ _ _ _ _) as [r w'] eqn:E.
    apply loadTableOnDemand_run in E as (_ & _ & E).
    by apply E in Ht as (? & _). }
  split; [exact Hload|].
  split; [intros c database schema name w t; apply Hload|].
  intros connection schema name token options w t. unfold getTable.
  destruct (crossDatabaseTarget connection options) as [[c database]|].
  { intros Ht _. exact (Hload _ _ _ _ _ _ Ht). }
  intros Ht [[x Hx]|Habsent]; [discriminate|].
  unfold bind in Ht.
  destruct (ensureCache api connection token w) as [[[connectionKey e]|] w1]
    eqn:Hens.
  2:{ exact (Hload _ _ _ _ _ _ Ht). }
  specialize (Habsent connectionKey e eq_refl).
  unfold lookupOrLoad in Ht. rewrite Habsent in Ht. unfold bind in Ht.
  destruct (loadTableOnDemand api connection schema name options w1)
    as [[t0|] w2] eqn:Hl; [|discriminate].
  assert (tm_type t0 = TABLE) as Ht0.
  { apply (Hload connection schema name options w1). by rewrite Hl. }
  destruct (setTable _ _ _ _) as [[] w3].
  cbn [ret] in Ht.
  pose proof (fillColumns_keeps api connection options connectionKey
                (toObjectKey schema name) t0 w3) as (Hc & _).
  destruct (fillColumns _ _ _ _ _ _ _) as [t1 w4].
  pose proof (fillDescription_keeps api connection options connectionKey
                (toObjectKey schema name) t1 w4) as (Hd & _).
  destruct (fillDescription _ _ _ _ _ _ _) as [t2 w5].
  cbn [fst] in *. injection Ht as <-. congruence.
Qed.

Lemma on_demand_kind_is_TABLE_witness :
  ∃ t, fst (getTable salesLoader salesConnection "dbo" "Items" None
              (Some "Archive") freshWorld) = Some t
       ∧ tm_type t = TABLE.
Proof.
  eexists. split; [vm_compute; reflexivity|].
  eapply (proj2 (proj2 (on_demand_kind_is_TABLE salesLoader))
            salesConnection "dbo" "Items" None (Some "Archive") freshWorld).
  - vm_compute. reflexivity.
  - left. vm_compute. eauto.
Defined.

(** C4, counterexample.  The connection names no database of its own and
    the call names the database [Archive].  The call goes through the
    cache: it creates the entry of the connection key, stores the table it
    loaded in that entry, and a repeated call reads the table from there,
    with a loader that answers nothing. *)
Lemma target_database_call_is_cached :
  let call api :=
    getTable api serverConnection "dbo" "Items" None (Some "Archive") in
  let w1 := snd (call salesLoader freshWorld) in
  serverConnection ≫= conn_database = None
  ∧ cache freshWorld !! "c1|srv|sa" = None
  ∧ (∃ t, fst (call salesLoader freshWorld) = Some t
          ∧ Stored w1 "c1|srv|sa" "dbo.items" t
          ∧ fst (call failingLoader w1) = Some t)
  ∧ fst (call failingLoader freshWorld) = None.
Proof.
  split; [reflexivity|]. split; [reflexivity|]. split; [|reflexivity].
  eexists. split; [vm_compute; reflexivity|].
  split; [|vm_compute; reflexivity].
  eexists. split; vm_compute; reflexivity.
Qed.

(** C4, as amended.  When the connection has a default database and the
    target database of [getTable] differs from it, both names being not
    empty and compared without regard to case, the call is the one-shot
    cross-database load: it issues the columns query, and the description
    query if columns came back, scoped to the target database; it leaves
    the cache as it was, so nothing is stored; and its result does not
    depend on the cache. *)
Theorem cross_database_bypasses_cache
  (api : Loader) (connection : option MssqlConnection) (schema name : string)
  (token : option CancellationToken) (options : option string)
  (c : MssqlConnection) (target : string) (w : World) :
  differentDatabase connection options c target →
  let r := getTable api connection schema name token options w in
  r = loadTableCrossDatabase api c target schema name w
  ∧ cache (snd r) = cache w
  ∧ (∀ w', Datatypes.length (issued w') = Datatypes.length (issued w) →
           fst (getTable api connection schema name token options w') = fst r)
  ∧ (issued (snd r) = issued w ++ [FetchColumns schema name (Some target)]
     ∨ issued (snd r)
       = issued w ++ [FetchColumns schema name (Some target);
                      FetchDescription schema name (Some target)]).
Proof.
  intros Hdiff r. subst r.
  pose proof (crossDatabaseTarget_different _ _ _ _ Hdiff) as Hcross.
  assert (∀ w', getTable api connection schema name token options w'
                = loadTableCrossDatabase api c target schema name w') as Hrun.
  { intros w'. unfold getTable. rewrite Hcross. reflexivity. }
  rewrite Hrun. split; [reflexivity|].
  unfold loadTableCrossDatabase.
  split.
  { destruct (loadTableOnDemand _ _ _ _ _ _) as [r w1] eqn:E.
    by apply loadTableOnDemand_run in E as (? & _). }
  split.
  { intros w' Hlen. rewrite Hrun. unfold loadTableCrossDatabase.
    by apply loadTableOnDemand_result. }
  unfold loadTableOnDemand, bind. rewrite populateColumns_run.
  cbn [tm_schema tm_name queryDatabaseOf].
  destruct (api _ _) as [result|]; cbn [tm_columns]; [|by left].
  destruct (map toColumn (qr_rows result)); [by left|].
  rewrite populateDescription_run. right.
  cbn [snd issued tm_schema tm_name queryDatabaseOf].
  by rewrite <- app_assoc.
Qed.

Lemma cross_database_bypasses_cache_witness :
  cache (snd (getTable salesLoader salesConnection "dbo" "Items" None
                (Some "Archive") freshWorld)) = cache freshWorld.
Proof.
  refine (proj1 (proj2 (cross_database_bypasses_cache salesLoader
            salesConnection "dbo" "Items" None (Some "Archive")
            (mkConnection (Some "c1") (Some "srv") (Some "Sales") (Some "sa"))
            "Archive" freshWorld _))).
  split; [reflexivity|]. split; [reflexivity|].
  exists "Sales". split; [reflexivity|].
  repeat split; vm_compute; discriminate.
Defined.

End CacheClaims.

(** ** Calling [getTable] twice *)

Section Idempotence.
Import MssqlApi SchemaCache Spec Samples.

Lemma fillColumns_eq api connection options connectionKey key t w :
  fillColumns api connection options connectionKey key t w
  = if missing (tm_columns t) (fun _ => true) then
      let r := populateColumns api connection t options w in
      (fst r, snd (setTable connectionKey key (fst r) (snd r)))
    else (t, w).
Proof.
  unfold fillColumns, bind, ret. destruct (missing _ _); [|reflexivity].
  destruct (populateColumns _ _ _ _ _) as [t1 w1]. cbn [fst snd].
  destruct (setTable _ _ _ _) as [[] w2]. reflexivity.
Qed.

Lemma fillDescription_eq api connection options connectionKey key t w :
  fillDescription api connection options connectionKey key t w
  = if missing (tm_description t) Js.Boolean_ then
      let r := populateDescription api connection t options w in
      (fst r, snd (setTable connectionKey key (fst r) (snd r)))
    else (t, w).
Proof.
  unfold fillDescription, bind, ret. destruct (missing _ _); [|reflexivity].
  destruct (populateDescription _ _ _ _ _) as [t1 w1]. cbn [fst snd].
  destruct (setTable _ _ _ _) as [[] w2]. reflexivity.
Qed.

Lemma fillColumns_first api connection options connectionKey key t w t' w' :
  deterministic api →
  Stored w connectionKey key t →
  fillColumns api connection options connectionKey key t w = (t', w') →
  Stored w' connectionKey key t'
  ∧ tm_schema t' = tm_schema t ∧ tm_name t' = tm_name t
  ∧ tm_description t' = tm_description t
  ∧ columnsSettled api connection options t'.
Proof.
  intros Hdet (e & He & Hget). rewrite fillColumns_eq.
  unfold columnsSettled, columnsFilled.
  destruct (missing (tm_columns t) _) eqn:Hm.
  2:{ intros [= <- <-]. split; [by exists e|]. rewrite Hm. by repeat split. }
  rewrite populateColumns_run. cbn [fst snd]. intros [= <- <-].
  split.
  { eapply setTable_run. cbn [cache]. exact He. }
  destruct (api _ _) as [result|] eqn:Hq;
    cbn [tm_schema tm_name tm_description tm_columns].
  - repeat split. discriminate.
  - repeat split. intros _ n.
    rewrite (Hdet n (Datatypes.length (issued w))). exact Hq.
Qed.

Lemma fillDescription_first api connection options connectionKey key t w t' w' :
  deterministic api →
  Stored w connectionKey key t →
  fillDescription api connection options connectionKey key t w = (t', w') →
  Stored w' connectionKey key t'
  ∧ tm_schema t' = tm_schema t ∧ tm_name t' = tm_name t
  ∧ tm_columns t' = tm_columns t
  ∧ descriptionSettled api connection options t'.
Proof.
  intros Hdet (e & He & Hget). rewrite fillDescription_eq.
  unfold descriptionSettled, descriptionFilled.
  destruct (missing (tm_description t) _) eqn:Hm.
  2:{ intros [= <- <-]. split; [by exists e|]. rewrite Hm. by repeat split. }
  rewrite populateDescription_run. cbv zeta. cbn [fst snd]. intros [= <- <-].
  split.
  { eapply setTable_run. cbn [cache]. exact He. }
  destruct (Js.Boolean_ (scalarOf (api _ _))) eqn:Hq;
    cbn [tm_schema tm_name tm_description tm_columns].
  - repeat split. unfold missing. cbn [from_option]. rewrite Hq. discriminate.
  - repeat split. intros _ n.
    rewrite (Hdet n (Datatypes.length (issued w))). exact Hq.
Qed.

Lemma lookupOrLoad_first api connection schema name options connectionKey
  e key w r w' :
  cache w !! connectionKey = Some e →
  lookupOrLoad api connection schema name options connectionKey e key w
  = (r, w') →
  match r with
  | Some t => Stored w' connectionKey key t
  | None =>
      cache w' = cache w
      ∧ JsMap.get key (ce_tables e) = None
      ∧ fst (loadTableOnDemand api connection schema name options w) = None
  end.
Proof.
  intros He. unfold lookupOrLoad.
  destruct (JsMap.get key (ce_tables e)) as [t|] eqn:Hget.
  { intros [= <- <-]. by exists e. }
  unfold bind.
  destruct (loadTableOnDemand api connection schema name options w)
    as [[t|] w1] eqn:Hl.
  - pose proof Hl as Hrun. apply loadTableOnDemand_run in Hrun as (Hc & _).
    rewrite <- Hc in He.
    pose proof (setTable_run connectionKey key t w1 e He) as (Hs & _).
    destruct (setTable connectionKey key t w1) as [[] w2].
    intros [= <- <-]. exact Hs.
  - pose proof Hl as Hrun. apply loadTableOnDemand_run in Hrun as (Hc & _).
    intros [= <- <-]. auto.
Qed.

Lemma getTable_first api connection schema name token options w key r w1 :
  deterministic api →
  getConnectionKey connection = Some key →
  crossDatabaseTarget connection options = None →
  getTable api connection schema name token options w = (r, w1) →
  match r with
  | Some t =>
      Stored w1 key (toObjectKey schema name) t
      ∧ columnsSettled api connection options t
      ∧ descriptionSettled api connection options t
  | None =>
      ∃ e, cache w1 !! key = Some e
           ∧ JsMap.get (toObjectKey schema name) (ce_tables e) = None
           ∧ ∀ w', fst (loadTableOnDemand api connection schema name options w')
                   = None
  end.
Proof.
  intros Hdet Hk Hcross. unfold getTable. rewrite Hcross. unfold bind.
  destruct (ensureCache_entry api connection token w key Hk)
    as (e & w0 & more & -> & He & _).
  destruct (lookupOrLoad _ _ _ _ _ _ _ _ _) as [[t0|] w2] eqn:El;
    apply (lookupOrLoad_first _ _ _ _ _ _ _ _ _ _ _ He) in El.
  - destruct (fillColumns _ _ _ _ _ _ _) as [t1 w3] eqn:Ec.
    apply (fillColumns_first _ _ _ _ _ _ _ _ _ Hdet El) in Ec
      as (Hs1 & Hschema1 & Hname1 & _ & Hcols).
    destruct (fillDescription _ _ _ _ _ _ _) as [t2 w4] eqn:Ed.
    apply (fillDescription_first _ _ _ _ _ _ _ _ _ Hdet Hs1) in Ed
      as (Hs2 & Hschema2 & Hname2 & Hcolumns & Hdesc).
    intros [= <- <-]. split; [exact Hs2|]. split; [|exact Hdesc].
    unfold columnsSettled, columnsFilled in *.
    rewrite Hschema2, Hname2, Hcolumns. exact Hcols.
  - destruct El as (Hc & Hget & Hnone). intros [= <- <-].
    exists e. rewrite Hc. split; [exact He|]. split; [exact Hget|].
    intros w'. rewrite <- Hnone.
    by apply loadTableOnDemand_deterministic.
Qed.

Lemma getTable_again api connection schema name token options w key t :
  getConnectionKey connection = Some key →
  crossDatabaseTarget connection options = None →
  Stored w key (toObjectKey schema name) t →
  columnsSettled api connection options t →
  descriptionSettled api connection options t →
  fst (getTable api connection schema name token options w) = Some t
  ∧ issued (snd (getTable api connection schema name token options w))
    = issued w ++ refetched connection options t.
Proof.
  intros Hk Hcross (e & He & Hget) Hcols Hdesc.
  unfold getTable. rewrite Hcross. unfold bind.
  rewrite (ensureCache_hit _ _ _ _ _ _ Hk He).
  unfold lookupOrLoad. rewrite Hget. cbn [ret].
  unfold refetched, columnsSettled, descriptionSettled, columnsFilled,
    descriptionFilled in *.
  rewrite fillColumns_eq.
  destruct (missing (tm_columns t) _) eqn:Hmc; cbn [negb] in *.
  - rewrite populateColumns_run, (Hcols eq_refl). cbn [fst snd].
    rewrite fillDescription_eq.
    destruct (missing (tm_description t) _) eqn:Hmd; cbn [negb] in *.
    + rewrite populateDescription_run. cbv zeta.
      rewrite (Hdesc eq_refl). cbn [fst snd issued setTable withCache].
      split; [reflexivity|]. by rewrite <- app_assoc.
    + cbn [fst snd issued setTable withCache]. split; reflexivity.
  - rewrite fillDescription_eq.
    destruct (missing (tm_description t) _) eqn:Hmd; cbn [negb] in *.
    + rewrite populateDescription_run. cbv zeta.
      rewrite (Hdesc eq_refl). cbn [fst snd issued setTable withCache].
      split; reflexivity.
    + cbn [fst snd]. split; [reflexivity|]. by rewrite app_nil_r.
Qed.

Lemma getTable_again_absent api connection schema name token options w key e :
  getConnectionKey connection = Some key →
  crossDatabaseTarget connection options = None →
  cache w !! key = Some e →
  JsMap.get (toObjectKey schema name) (ce_tables e) = None →
  fst (loadTableOnDemand api connection schema name options w) = None →
  fst (getTable api connection schema name token options w) = None
  ∧ ∃ more,
      issued (snd (getTable api connection schema name token options w))
      = issued w ++ more
      ∧ Forall (fun f => isBulkFetch f = false) more.
Proof.
  intros Hk Hcross He Hget Hnone.
  unfold getTable. rewrite Hcross. unfold bind.
  rewrite (ensureCache_hit _ _ _ _ _ _ Hk He).
  unfold lookupOrLoad. rewrite Hget. unfold bind.
  destruct (loadTableOnDemand api connection schema name options w)
    as [r w1] eqn:Hl.
  cbn [fst] in Hnone. subst r. cbn [ret fst snd].
  split; [reflexivity|].
  by apply loadTableOnDemand_run in Hl as (_ & Hmore & _).
Qed.

(** C5, counterexample.  A cross-database call fills the columns of the
    table it returns, and the same call, made again, issues the columns
    query again. *)
Lemma cross_database_call_refetches :
  let first :=
    getTable salesLoader salesConnection "dbo" "Items" None (Some "Archive")
      freshWorld in
  let second :=
    getTable salesLoader salesConnection "dbo" "Items" None (Some "Archive")
      (snd first) in
  deterministic salesLoader
  ∧ (∃ t, fst first = Some t ∧ columnsFilled t = true)
  ∧ fst second = fst first
  ∧ issued (snd second)
    = issued (snd first)
      ++ [FetchColumns "dbo" "Items" (Some "Archive");
          FetchDescription "dbo" "Items" (Some "Archive")].
Proof.
  split; [intros n m query; reflexivity|].
  split; [eexists; split; vm_compute; reflexivity|].
  split; vm_compute; reflexivity.
Qed.

(** C5, as amended.  For every object and connection key, when the call is
    not a cross-database call and the loader returns the same result for
    the same query, calling [getTable] twice in sequence yields the same
    metadata, field for field, both times; the second call issues no bulk
    fetch, no columns query if the first call returned columns, and no
    description query if the first call returned a description. *)
Theorem getTable_twice
  (api : Loader) (connection : option MssqlConnection) (schema name : string)
  (token1 token2 : option CancellationToken) (options : option string)
  (w : World) (key : string) :
  deterministic api →
  getConnectionKey connection = Some key →
  crossDatabaseTarget connection options = None →
  let first := getTable api connection schema name token1 options w in
  let second :=
    getTable api connection schema name token2 options (snd first) in
  fst second = fst first
  ∧ ∃ new,
      issued (snd second) = issued (snd first) ++ new
      ∧ Forall (fun f => isBulkFetch f = false) new
      ∧ ∀ t, fst first = Some t →
             (columnsFilled t = true →
              Forall (fun f => isColumnsFetch f = false) new)
             ∧ (descriptionFilled t = true →
                Forall (fun f => isDescriptionFetch f = false) new).
Proof.
  intros Hdet Hk Hcross first second. subst second.
  destruct first as [r w1] eqn:Hfirst. subst first.
  pose proof (getTable_first _ _ _ _ _ _ _ _ _ _ Hdet Hk Hcross Hfirst) as H1.
  cbn [fst snd]. destruct r as [t|].
  - destruct H1 as (Hs & Hcols & Hdesc).
    destruct (getTable_again api connection schema name token2 options w1
                key t Hk Hcross Hs Hcols Hdesc) as (-> & ->).
    split; [reflexivity|]. exists (refetched connection options t).
    split; [reflexivity|]. unfold refetched.
    split.
    { destruct (columnsFilled t), (descriptionFilled t);
        repeat constructor. }
    intros t' [= <-]. split; intros ->.
    + destruct (descriptionFilled t); repeat constructor.
    + destruct (columnsFilled t); repeat constructor.
  - destruct H1 as (e & He & Hget & Hnone).
    destruct (getTable_again_absent api connection schema name token2 options
                w1 key e Hk Hcross He Hget (Hnone w1))
      as (-> & more & -> & Hmore).
    split; [reflexivity|]. exists more.
    split; [reflexivity|]. split; [exact Hmore|]. discriminate.
Qed.

Lemma getTable_twice_witness :
  let first :=
    getTable salesLoader salesConnection "dbo" "Orders" None None freshWorld in
  fst (getTable salesLoader salesConnection "dbo" "Orders" None None
         (snd first)) = fst first.
Proof.
  refine (proj1 (getTable_twice salesLoader salesConnection "dbo" "Orders"
                   None None None freshWorld "c1|srv|Sales|sa" _ _ _)).
  - intros n m query. reflexivity.
  - vm_compute. reflexivity.
  - vm_compute. reflexivity.
Defined.

End Idempotence.

(** ** Further properties of the schema cache *)

Section CacheExtras.
Import MssqlApi SchemaCache Spec Samples StoreProps.

Lemma filter_isTableOrView (l : list TableMetadata) :
  List.filter isTableOrView l = l.
Proof.
  induction l as [|t l IH]; [reflexivity|]. cbn [List.filter].
  assert (isTableOrView t = true) as -> by (unfold isTableOrView; by destruct (tm_type t)).
  by rewrite IH.
Qed.

(** X1.  When the cache holds an entry for the connection key,
    [getTables], [getRoutines] and [getForeignKeys] answer from that entry:
    they return all its tables, its routines and its foreign keys, issue
    no query and leave the store as it is, whatever the loader. *)
Theorem cached_entry_answers_without_query
  (api : Loader) (connection : option MssqlConnection)
  (token : option CancellationToken) (w : World) (key : string)
  (e : CacheEntry) :
  getConnectionKey connection = Some key →
  cache w !! key = Some e →
  getTables api connection token w = (JsMap.values (ce_tables e), w)
  ∧ getRoutines api connection w = (JsMap.values (ce_routines e), w)
  ∧ getForeignKeys api connection w = (ce_foreignKeys e, w).
Proof.
  intros Hk He. unfold getTables, getRoutines, getForeignKeys, bind.
  rewrite !(ensureCache_hit api connection _ w key e Hk He).
  cbn [ret]. by rewrite filter_isTableOrView.
Qed.

Lemma cached_entry_answers_without_query_witness :
  let w := snd (getTables salesLoader salesConnection None freshWorld) in
  ∃ e, getForeignKeys failingLoader salesConnection w = (ce_foreignKeys e, w).
Proof.
  intros w. eexists.
  refine (proj2 (proj2 (cached_entry_answers_without_query failingLoader
            salesConnection None w "c1|srv|Sales|sa" _ _ _))).
  - vm_compute. reflexivity.
  - vm_compute. reflexivity.
Defined.

(** X2.  Without a connection key (no connection, or a connection whose
    fields are all absent or blank) [getTables], [getRoutines] and
    [getForeignKeys] return the empty list and [invalidate] does nothing:
    no query is issued and the store is unchanged.  [getTable] returns
    absent without a query when there is no connection at all, but for a
    connection that has no key it still runs the on-demand load, that is,
    it issues the columns query, and it stores nothing. *)
Theorem no_connection_key_no_entry
  (api : Loader) (connection : option MssqlConnection)
  (token : option CancellationToken) (w : World) :
  getConnectionKey connection = None →
  getTables api connection token w = ([], w)
  ∧ getRoutines api connection w = ([], w)
  ∧ getForeignKeys api connection w = ([], w)
  ∧ invalidate connection w = (tt, w)
  ∧ (∀ schema name options,
        connection = None →
        getTable api connection schema name token options w = (None, w))
  ∧ (∀ schema name options c,
        connection = Some c →
        crossDatabaseTarget connection options = None →
        let r := getTable api connection schema name token options w in
        r = loadTableOnDemand api connection schema name options w
        ∧ cache (snd r) = cache w
        ∧ ∃ more,
            issued (snd r)
            = issued w ++ FetchColumns schema name
                            (queryDatabaseOf connection options) :: more).
Proof.
  intros Hk.
  assert (∀ token', ensureCache api connection token' w = (None, w)) as Hens.
  { intros token'. unfold ensureCache. by rewrite Hk. }
  unfold getTables, getRoutines, getForeignKeys, invalidate, bind.
  rewrite !Hens, Hk. cbn [ret].
  repeat (split; [reflexivity|]).
  split.
  - intros schema name options ->. unfold getTable.
    destruct options; cbn [crossDatabaseTarget]; unfold bind;
      rewrite Hens; reflexivity.
  - intros schema name options c Hc Hcross. cbv zeta.
    assert (getTable api connection schema name token options w
            = loadTableOnDemand api connection schema name options w) as ->.
    { unfold getTable. rewrite Hcross. unfold bind. by rewrite Hens. }
    split; [reflexivity|].
    split.
    { destruct (loadTableOnDemand _ _ _ _ _ _) as [r w'] eqn:E.
      by apply loadTableOnDemand_run in E as (? & _). }
    subst connection. unfold loadTableOnDemand, bind.
    rewrite populateColumns_run. cbn [tm_schema tm_name].
    destruct (api _ _) as [result|]; cbn [tm_columns ret snd issued];
      [|by exists []].
    destruct (map toColumn (qr_rows result)); cbn [ret snd issued];
      [by exists []|].
    rewrite populateDescription_run. cbn [snd issued].
    eexists. by rewrite <- app_assoc.
Qed.

Lemma no_connection_key_no_entry_witness :
  getTables salesLoader keylessConnection None freshWorld = ([], freshWorld).
Proof.
  apply (no_connection_key_no_entry salesLoader keylessConnection None
           freshWorld).
  vm_compute. reflexivity.
Defined.

(** X3.  [invalidate] removes the entry of the connection key and nothing
    else: the entries of all other keys stay, no query is issued, and the
    next [getTables] for the key issues the bulk fetch again; [dispose]
    removes every entry. *)
Theorem invalidate_drops_one_entry
  (connection : option MssqlConnection) (w : World) (key : string) :
  getConnectionKey connection = Some key →
  let w' := snd (invalidate connection w) in
  cache w' !! key = None
  ∧ (∀ k, k ≠ key → cache w' !! k = cache w !! k)
  ∧ issued w' = issued w
  ∧ (∀ api token,
        ∃ more,
          issued (snd (getTables api connection token w'))
          = issued w ++ FetchObjects (connection ≫= conn_database) :: more)
  ∧ (∀ k, cache (snd (dispose w)) !! k = None).
Proof.
  intros Hk w'.
  assert (w' = mkWorld (delete key (cache w)) (issued w) (now w)) as ->.
  { subst w'. unfold invalidate.
    by rewrite Hk, (getConnectionKey_nonEmpty _ _ Hk). }
  cbn [cache issued].
  split; [apply lookup_delete_eq|].
  split; [intros k Hne; by apply lookup_delete_ne|].
  split; [reflexivity|].
  split; [|intros k; apply lookup_empty].
  intros api token.
  match goal with
  | |- context [getTables _ _ _ ?w2] =>
      destruct (ensureCache_miss api connection token w2 key Hk)
        as (e & more & Hens & _ & _); [apply lookup_delete_eq|]
  end.
  exists more. unfold getTables, bind. rewrite Hens. reflexivity.
Qed.

Lemma invalidate_drops_one_entry_witness :
  cache (snd (invalidate salesConnection
                (snd (getTables salesLoader salesConnection None freshWorld))))
    !! "c1|srv|Sales|sa" = None.
Proof.
  apply (invalidate_drops_one_entry salesConnection
           (snd (getTables salesLoader salesConnection None freshWorld))
           "c1|srv|Sales|sa").
  vm_compute. reflexivity.
Defined.

(** *** The bulk snapshot *)




Lemma jsmap_get_values {V} (k : string) (v : V) (m : JsMap.t V) :
  JsMap.get k m = Some v → v ∈ JsMap.values m.
Proof.
  unfold JsMap.values.
  induction m as [|[k0 v0] m IH]; cbn [JsMap.get map snd]; [discriminate|].
  case_bool_decide.
  - intros [= ->]. left.
  - intros Hget. right. by apply IH.
Qed.







(** *** Lookups and on-demand loads *)

Lemma toLowerChar_idem (c : ascii) :
  Js.toLowerChar (Js.toLowerChar c) = Js.toLowerChar c.
Proof. destruct c as [[] [] [] [] [] [] [] []]; reflexivity. Qed.

Lemma toLowerCase_idem (s : string) :
  Js.toLowerCase (Js.toLowerCase s) = Js.toLowerCase s.
Proof.
  unfold Js.toLowerCase. rewrite chars_str, map_map. f_equal.
  apply map_ext. intros c. apply toLowerChar_idem.
Qed.

(** X5.  The lookup of [getTable] ignores case: for a table that the entry
    of the connection holds, a call that spells schema and name in another
    case is the same call, with the same result and the same effect; so
    is the call with the names in lower case. *)
Theorem getTable_lookup_ignores_case
  (api : Loader) (connection : option MssqlConnection) (schema name : string)
  (token : option CancellationToken) (options : option string) (w : World)
  (key : string) (e : CacheEntry) (t : TableMetadata) :
  getConnectionKey connection = Some key →
  crossDatabaseTarget connection options = None →
  cache w !! key = Some e →
  JsMap.get (toObjectKey schema name) (ce_tables e) = Some t →
  (∀ schema' name',
      Js.toLowerCase schema' = Js.toLowerCase schema →
      Js.toLowerCase name' = Js.toLowerCase name →
      getTable api connection schema' name' token options w
      = getTable api connection schema name token options w)
  ∧ getTable api connection (Js.toLowerCase schema) (Js.toLowerCase name)
      token options w
    = getTable api connection schema name token options w.
Proof.
  intros Hk Hcross He Hget.
  assert (∀ schema' name',
             Js.toLowerCase schema' = Js.toLowerCase schema →
             Js.toLowerCase name' = Js.toLowerCase name →
             getTable api connection schema' name' token options w
             = getTable api connection schema name token options w) as Hsame.
  { intros schema' name' Hs Hn. unfold getTable. rewrite Hcross. unfold bind.
    rewrite (ensureCache_hit _ _ _ _ _ _ Hk He).
    assert (toObjectKey schema' name' = toObjectKey schema name) as ->
      by (unfold toObjectKey; by rewrite Hs, Hn).
    unfold lookupOrLoad. rewrite Hget. reflexivity. }
  split; [exact Hsame|]. apply Hsame; apply toLowerCase_idem.
Qed.

Lemma getTable_lookup_ignores_case_witness :
  let w := snd (getTables salesLoader salesConnection None freshWorld) in
  getTable salesLoader salesConnection "DBO" "ORDERS" None None w
  = getTable salesLoader salesConnection "dbo" "Orders" None None w.
Proof.
  intros w.
  refine (proj1 (getTable_lookup_ignores_case salesLoader salesConnection
                   "dbo" "Orders" None None w "c1|srv|Sales|sa"
                   _ _ _ _ _ _) "DBO" "ORDERS" _ _);
    vm_compute; reflexivity.
Defined.

Lemma loadTableOnDemand_connected api connection c schema name options w :
  connection = Some c →
  loadTableOnDemand api connection schema name options w
  = let r :=
      populateColumns api connection (mkTable schema name TABLE None None)
        options w in
    match tm_columns (fst r) with
    | None | Some [] => (None, snd r)
    | Some (_ :: _) =>
        let r2 := populateDescription api connection (fst r) options (snd r) in
        (Some (fst r2), snd r2)
    end.
Proof.
  intros ->. unfold loadTableOnDemand, bind.
  destruct (populateColumns _ _ _ _ _) as [t1 w1]. cbn [fst snd].
  destruct (tm_columns t1) as [[|col cols]|]; reflexivity.
Qed.

(** X6.  When the entry of the connection lacks the object and the columns
    query fails or returns no row, [getTable] returns absent after that
    single query and stores nothing: the cache is exactly as before. *)
Theorem absent_object_is_not_stored
  (api : Loader) (connection : option MssqlConnection) (schema name : string)
  (token : option CancellationToken) (options : option string) (w : World)
  (key : string) (e : CacheEntry) :
  getConnectionKey connection = Some key →
  crossDatabaseTarget connection options = None →
  cache w !! key = Some e →
  JsMap.get (toObjectKey schema name) (ce_tables e) = None →
  from_option (fun result => bool_decide (qr_rows result = [])) true
    (api (Datatypes.length (issued w))
       (Queries.columnsForObjectQuery schema name
          (queryDatabaseOf connection options))) = true →
  getTable api connection schema name token options w
  = (None,
     mkWorld (cache w)
       (issued w ++ [FetchColumns schema name
                       (queryDatabaseOf connection options)])
       (now w)).
Proof.
  intros Hk Hcross He Hget Hrows.
  destruct (getConnectionKey_connected _ _ Hk) as [c Hc].
  unfold getTable. rewrite Hcross. unfold bind.
  rewrite (ensureCache_hit _ _ _ _ _ _ Hk He).
  unfold lookupOrLoad. rewrite Hget. unfold bind.
  rewrite (loadTableOnDemand_connected _ _ _ _ _ _ _ Hc).
  rewrite populateColumns_run. cbv zeta. cbn [tm_schema tm_name fst snd].
  destruct (api _ _) as [result|]; cbn [from_option] in Hrows;
    cbn [tm_columns]; [|reflexivity].
  apply bool_decide_eq_true_1 in Hrows. rewrite Hrows. reflexivity.
Qed.

Lemma absent_object_is_not_stored_witness :
  let w := snd (getTables salesLoader salesConnection None freshWorld) in
  fst (getTable salesLoader salesConnection "dbo" "Nothing" None None w)
  = None.
Proof.
  intros w.
  rewrite (absent_object_is_not_stored salesLoader salesConnection
             "dbo" "Nothing" None None w "c1|srv|Sales|sa"
             (mkEntry
                [("dbo.orders", mkTable "dbo" "Orders" TABLE None None);
                 ("dbo.openorders", mkTable "dbo" "OpenOrders" VIEW None None)]
                [] [] 0));
    vm_compute; reflexivity.
Defined.

Lemma fillDescription_stored api connection options connectionKey key t w :
  Stored w connectionKey key t →
  Stored (snd (fillDescription api connection options connectionKey key t w))
    connectionKey key
    (fst (fillDescription api connection options connectionKey key t w)).
Proof.
  intros (e & He & Hget). rewrite fillDescription_eq.
  destruct (missing _ _); [|by exists e].
  rewrite populateDescription_run. cbv zeta. cbn [fst snd].
  eapply setTable_run. cbn [cache]. exact He.
Qed.

(** The on-demand load of [getTable], step by step. *)
Lemma on_demand_load_run
  (api : Loader) (connection : option MssqlConnection) (schema name : string)
  (token : option CancellationToken) (options : option string) (w : World)
  (key : string) (e : CacheEntry) (result : QueryResult) :
  getConnectionKey connection = Some key →
  crossDatabaseTarget connection options = None →
  cache w !! key = Some e →
  JsMap.get (toObjectKey schema name) (ce_tables e) = None →
  api (Datatypes.length (issued w))
    (Queries.columnsForObjectQuery schema name
       (queryDatabaseOf connection options)) = Some result →
  qr_rows result ≠ [] →
  ∃ t,
    fst (getTable api connection schema name token options w) = Some t
    ∧ tm_type t = TABLE ∧ tm_schema t = schema ∧ tm_name t = name
    ∧ tm_columns t = Some (map toColumn (qr_rows result))
    ∧ Stored (snd (getTable api connection schema name token options w))
        key (toObjectKey schema name) t
    ∧ (∀ api' token' w',
          Stored w' key (toObjectKey schema name) t →
          t ∈ fst (getTables api' connection token' w'))
    ∧ (∀ w', cache (snd (invalidate connection w')) !! key = None
             ∧ cache (snd (dispose w')) !! key = None).
Proof.
  intros Hk Hcross He Hget Hq Hrows.
  destruct (getConnectionKey_connected _ _ Hk) as [c Hc].
  assert (∃ t1 w1,
             loadTableOnDemand api connection schema name options w
             = (Some t1, w1)
             ∧ tm_type t1 = TABLE ∧ tm_schema t1 = schema ∧ tm_name t1 = name
             ∧ tm_columns t1 = Some (map toColumn (qr_rows result))
             ∧ cache w1 = cache w) as (t1 & w1 & Hl & Hty & Hs & Hn & Hcols & Hc1).
  { rewrite (loadTableOnDemand_connected _ _ _ _ _ _ _ Hc).
    rewrite populateColumns_run. cbv zeta. cbn [tm_schema tm_name fst snd].
    rewrite Hq. cbn [tm_columns].
    destruct (map toColumn (qr_rows result)) as [|col cols] eqn:Hmap.
    { destruct (qr_rows result); [done | discriminate]. }
    rewrite populateDescription_run. cbv zeta.
    cbn [tm_schema tm_name tm_type tm_columns tm_description cache].
    eexists _, _. split; [reflexivity|].
    destruct (Js.Boolean_ _); by repeat split. }
  assert (Stored
            (snd (setTable key (toObjectKey schema name) t1 w1))
            key (toObjectKey schema name) t1) as Hst.
  { eapply setTable_run. rewrite Hc1. exact He. }
  set (w2 := snd (setTable key (toObjectKey schema name) t1 w1)) in *.
  assert (getTable api connection schema name token options w
          = (Some (fst (fillDescription api connection options key
                          (toObjectKey schema name) t1 w2)),
             snd (fillDescription api connection options key
                    (toObjectKey schema name) t1 w2))) as Hrun.
  { unfold getTable. rewrite Hcross. unfold bind.
    rewrite (ensureCache_hit _ _ _ _ _ _ Hk He).
    unfold lookupOrLoad. rewrite Hget. unfold bind. rewrite Hl.
    subst w2. destruct (setTable key (toObjectKey schema name) t1 w1)
      as [[] w2]. cbn [ret snd].
    rewrite fillColumns_eq. unfold missing. rewrite Hcols. cbn [from_option negb].
    destruct (fillDescription _ _ _ _ _ _ _). reflexivity. }
  rewrite Hrun. cbn [fst snd].
  pose proof (fillDescription_keeps api connection options key
                (toObjectKey schema name) t1 w2) as (Kt & Ks & Kn & Kc).
  pose proof (fillDescription_stored api connection options key
                (toObjectKey schema name) t1 w2 Hst) as Hst2.
  eexists. split; [reflexivity|].
  split; [congruence|]. split; [congruence|]. split; [congruence|].
  split; [congruence|]. split; [exact Hst2|].
  split.
  - intros api' token' w' (e2 & He2 & Hget2).
    unfold getTables, bind.
    rewrite (ensureCache_hit _ _ _ _ _ _ Hk He2). cbn [ret fst].
    rewrite filter_isTableOrView. by eapply jsmap_get_values.
  - intros w'. split.
    + unfold invalidate.
      rewrite Hk, (getConnectionKey_nonEmpty _ _ Hk).
      apply lookup_delete_eq.
    + apply lookup_empty.
Qed.

(** X7.  When the entry of the connection lacks the object and the columns
    query returns rows, [getTable] returns a table of kind [TABLE] with
    the schema and name of the call and one column per row, and stores it
    in the entry under the object key.  From then on, in every state of
    the store in which the entry of the key holds that table under that
    object key, [getTables] for the connection lists it, for any loader
    and token; [invalidate] and [dispose] remove the entry, and the
    table with it. *)
Theorem on_demand_load_is_stored
  (api : Loader) (connection : option MssqlConnection) (schema name : string)
  (token : option CancellationToken) (options : option string) (w : World)
  (key : string) (e : CacheEntry) (result : QueryResult) :
  getConnectionKey connection = Some key →
  crossDatabaseTarget connection options = None →
  cache w !! key = Some e →
  JsMap.get (toObjectKey schema name) (ce_tables e) = None →
  api (Datatypes.length (issued w))
    (Queries.columnsForObjectQuery schema name
       (queryDatabaseOf connection options)) = Some result →
  qr_rows result ≠ [] →
  ∃ t,
    fst (getTable api connection schema name token options w) = Some t
    ∧ tm_type t = TABLE ∧ tm_schema t = schema ∧ tm_name t = name
    ∧ tm_columns t = Some (map toColumn (qr_rows result))
    ∧ Stored (snd (getTable api connection schema name token options w))
        key (toObjectKey schema name) t
    ∧ (∀ api' token' w',
          Stored w' key (toObjectKey schema name) t →
          t ∈ fst (getTables api' connection token' w'))
    ∧ (∀ w', cache (snd (invalidate connection w')) !! key = None
             ∧ cache (snd (dispose w')) !! key = None).
Proof. apply on_demand_load_run. Qed.

Lemma on_demand_load_is_stored_witness :
  ∃ t,
    fst (getTable salesLoader salesConnection "dbo" "Orders" None None
           (snd (getTables failingLoader salesConnection None freshWorld)))
    = Some t
    ∧ tm_type t = TABLE.
Proof.
  destruct (on_demand_load_is_stored salesLoader salesConnection
              "dbo" "Orders" None None
              (snd (getTables failingLoader salesConnection None freshWorld))
              "c1|srv|Sales|sa" (emptyEntry 0) ordersColumns
              eq_refl eq_refl eq_refl eq_refl eq_refl)
    as (t & H1 & H2 & _).
  { discriminate. }
  exists t. split; [exact H1 | exact H2].
Defined.

(** *** What [getTable] leaves alone *)

Lemma touches_same_cache key w w' :
  cache w' = cache w → touchesOnlyTables key w w'.
Proof.
  intros Hc. split; [by rewrite Hc|].
  intros e He. exists e. by rewrite Hc.
Qed.

Lemma touches_trans key w1 w2 w3 :
  touchesOnlyTables key w1 w2 → touchesOnlyTables key w2 w3 →
  touchesOnlyTables key w1 w3.
Proof.
  intros (Ho1 & Hk1) (Ho2 & Hk2). split.
  - intros k Hne. by rewrite Ho2, Ho1.
  - intros e He. destruct (Hk1 e He) as (e2 & He2 & ? & ? & ?).
    destruct (Hk2 e2 He2) as (e3 & He3 & ? & ? & ?).
    exists e3. split; [exact He3|]. split_and!; congruence.
Qed.

Lemma setTable_touches connectionKey key t w :
  touchesOnlyTables connectionKey w (snd (setTable connectionKey key t w)).
Proof.
  unfold setTable, withCache. cbn [snd]. split; cbn [cache].
  - intros k Hne. by apply lookup_alter_ne.
  - intros e He. rewrite lookup_alter_eq, He. cbn. eauto.
Qed.

Lemma ensureCache_touches api connection token w key :
  getConnectionKey connection = Some key →
  touchesOnlyTables key w (snd (ensureCache api connection token w)).
Proof.
  intros Hk. destruct (cache w !! key) as [e|] eqn:Hc.
  - rewrite (ensureCache_hit _ _ _ _ _ _ Hk Hc). by apply touches_same_cache.
  - destruct (ensureCache_miss api connection token w key Hk Hc)
      as (e & more & -> & _). cbn [snd]. split; cbn [cache].
    + intros k Hne. by apply lookup_insert_ne.
    + intros e' He'. congruence.
Qed.

Lemma lookupOrLoad_touches api connection schema name options
  connectionKey e key w :
  touchesOnlyTables connectionKey w
    (snd (lookupOrLoad api connection schema name options connectionKey e
            key w)).
Proof.
  unfold lookupOrLoad. destruct (JsMap.get key (ce_tables e));
    [by apply touches_same_cache|].
  unfold bind.
  destruct (loadTableOnDemand api connection schema name options w)
    as [[t|] w1] eqn:Hl;
    apply loadTableOnDemand_run in Hl as (Hc & _).
  - pose proof (setTable_touches connectionKey key t w1) as Hs.
    destruct (setTable connectionKey key t w1) as [[] w2]. cbn [ret snd] in *.
    eapply touches_trans; [by apply touches_same_cache | exact Hs].
  - by apply touches_same_cache.
Qed.

Lemma fillColumns_touches api connection options connectionKey key t w :
  touchesOnlyTables connectionKey w
    (snd (fillColumns api connection options connectionKey key t w)).
Proof.
  rewrite fillColumns_eq. destruct (missing _ _);
    [|by apply touches_same_cache].
  rewrite populateColumns_run. cbv zeta. cbn [fst snd].
  eapply touches_trans; [|apply setTable_touches].
  by apply touches_same_cache.
Qed.

Lemma fillDescription_touches api connection options connectionKey key t w :
  touchesOnlyTables connectionKey w
    (snd (fillDescription api connection options connectionKey key t w)).
Proof.
  rewrite fillDescription_eq. destruct (missing _ _);
    [|by apply touches_same_cache].
  rewrite populateDescription_run. cbv zeta. cbn [fst snd].
  eapply touches_trans; [|apply setTable_touches].
  by apply touches_same_cache.
Qed.

(** X8.  [getTable] changes nothing in the cache but the tables of the
    entry of its own connection key: the entries of all other keys are as
    before, no entry is removed, and an entry that the key had keeps its
    routines, its foreign keys and its timestamp. *)
Theorem getTable_touches_only_its_tables
  (api : Loader) (connection : option MssqlConnection) (schema name : string)
  (token : option CancellationToken) (options : option string) (w : World)
  (key : string) :
  getConnectionKey connection = Some key →
  touchesOnlyTables key w
    (snd (getTable api connection schema name token options w)).
Proof.
  intros Hk. unfold getTable.
  destruct (crossDatabaseTarget connection options) as [[c database]|].
  { unfold loadTableCrossDatabase.
    destruct (loadTableOnDemand _ _ _ _ _ _) as [r w1] eqn:Hl.
    apply loadTableOnDemand_run in Hl as (Hc & _).
    by apply touches_same_cache. }
  unfold bind.
  pose proof (ensureCache_touches api connection token w key Hk) as H0.
  destruct (ensureCache_entry api connection token w key Hk)
    as (e & w0 & more & Hens & _).
  rewrite Hens in *. cbn [snd] in H0.
  pose proof (lookupOrLoad_touches api connection schema name options key e
                (toObjectKey schema name) w0) as H1.
  destruct (lookupOrLoad _ _ _ _ _ _ _ _ _) as [[t0|] w1]; cbn [snd] in *.
  2:{ by eapply touches_trans. }
  pose proof (fillColumns_touches api connection options key
                (toObjectKey schema name) t0 w1) as H2.
  destruct (fillColumns _ _ _ _ _ _ _) as [t1 w2]; cbn [snd] in *.
  pose proof (fillDescription_touches api connection options key
                (toObjectKey schema name) t1 w2) as H3.
  destruct (fillDescription _ _ _ _ _ _ _) as [t2 w3]; cbn [ret snd] in *.
  eauto using touches_trans.
Qed.

Lemma getTable_touches_only_its_tables_witness :
  touchesOnlyTables "c1|srv|Sales|sa" freshWorld
    (snd (getTable salesLoader salesConnection "dbo" "Orders" None None
            freshWorld)).
Proof.
  apply (getTable_touches_only_its_tables salesLoader salesConnection
           "dbo" "Orders" None None freshWorld "c1|srv|Sales|sa").
  vm_compute. reflexivity.
Defined.

End CacheExtras.

(** ** Routines *)

Section RoutineFacts.
Import MssqlApi SchemaCache RoutineStore Samples.

Lemma ensureCacheR_hit api connection token w key e :
  getConnectionKey connection = Some key →
  rcache w !! key = Some e →
  ensureCacheR api connection token w = (Some (key, e), w).
Proof.
  intros Hk He. unfold ensureCacheR.
  rewrite Hk, (getConnectionKey_nonEmpty _ _ Hk).
  cbn [negb]. unfold rbind. rewrite He. reflexivity.
Qed.

Lemma ensureCacheR_entry api connection token w key :
  getConnectionKey connection = Some key →
  ∃ e w' more,
    ensureCacheR api connection token w = (Some (key, e), w')
    ∧ rcache w' !! key = Some e
    ∧ rissued w' = rissued w ++ more
    ∧ Forall (fun f => isBulkR f = true) more.
Proof.
  intros Hk. destruct (rcache w !! key) as [e|] eqn:Hc.
  { exists e, w, []. rewrite (ensureCacheR_hit _ _ _ _ _ _ Hk Hc).
    rewrite app_nil_r. auto. }
  unfold ensureCacheR. rewrite Hk, (getConnectionKey_nonEmpty _ _ Hk).
  cbn [negb]. unfold rbind, runQueryR, withRCache, rret. rewrite Hc.
  cbn [rissued rcache rnow].
  destruct (answer api token _ _) as [objects|].
  - destruct (foldl addObjectRow _ _) as [tables routines].
    cbn [rissued rcache rnow]. eexists _, _, _. split; [reflexivity|].
    cbn [rcache rissued]. split; [apply lookup_insert_eq|].
    rewrite <- app_assoc. split; [reflexivity|]. repeat constructor.
  - eexists _, _, _. split; [reflexivity|].
    cbn [rcache rissued]. split; [apply lookup_insert_eq|].
    split; [reflexivity|]. repeat constructor.
Qed.

Lemma setRoutine_run connectionKey key r w e :
  rcache w !! connectionKey = Some e →
  StoredRoutine (snd (setRoutine connectionKey key r w)) connectionKey key r
  ∧ rissued (snd (setRoutine connectionKey key r w)) = rissued w
  ∧ ∃ e', rcache (snd (setRoutine connectionKey key r w)) !! connectionKey
          = Some e'
          ∧ ce_tables e' = ce_tables e
          ∧ ce_foreignKeys e' = ce_foreignKeys e.
Proof.
  intros He. unfold setRoutine, withRCache, StoredRoutine.
  cbn [snd rcache rissued]. rewrite lookup_alter_eq, He.
  cbn [fmap option_fmap option_map].
  split; [|split; [reflexivity|]].
  - eexists. split; [reflexivity|]. cbn [ce_routines]. apply jsmap_get_set.
  - eexists. split; [reflexivity|]. by split.
Qed.

Lemma fillDefinition_eq api connection connectionKey key r w :
  fillDefinition api connection connectionKey key r w
  = if missing (rm_definition r) Js.Boolean_ then
      let d :=
        scalarOf (api (Datatypes.length (rissued w))
                    (RoutineQueries.routineDefinitionQuery (rm_schema r)
                       (rm_name r) (connection ≫= conn_database))) in
      let r' :=
        if Js.Boolean_ d
        then mkRoutine (rm_schema r) (rm_name r) (rm_type r) (Some d)
               (rm_parameters r)
        else r in
      (r', snd (setRoutine connectionKey key r'
                  (mkRWorld (rcache w)
                     (rissued w ++ [FetchDefinition (rm_schema r) (rm_name r)
                                      (connection ≫= conn_database)])
                     (rnow w))))
    else (r, w).
Proof.
  unfold fillDefinition. destruct (missing _ _); reflexivity.
Qed.

Lemma fillParameters_eq api connection connectionKey key r w :
  fillParameters api connection connectionKey key r w
  = if missing (rm_parameters r) (fun _ => true) then
      let r' :=
        match api (Datatypes.length (rissued w))
                (RoutineQueries.routineParametersQuery (rm_schema r)
                   (rm_name r) (connection ≫= conn_database)) with
        | Some result =>
            mkRoutine (rm_schema r) (rm_name r) (rm_type r) (rm_definition r)
              (Some (map toParameter (qr_rows result)))
        | None => r
        end in
      (r', snd (setRoutine connectionKey key r'
                  (mkRWorld (rcache w)
                     (rissued w ++ [FetchParameters (rm_schema r) (rm_name r)
                                      (connection ≫= conn_database)])
                     (rnow w))))
    else (r, w).
Proof.
  unfold fillParameters. destruct (missing _ _); [|reflexivity].
  unfold rbind, populateRoutineParameters, runQueryR, answer.
  cbn [from_option rQueryText rbind].
  destruct (api _ _); reflexivity.
Qed.

(** X9.  A routine that the entry of the connection lacks is never loaded
    on demand: whenever [getRoutine] returns absent, the only queries it
    has issued are those of the bulk fetch, and with an entry in the cache
    it returns absent without any query and leaves the store as it is. *)
Theorem routine_miss_is_not_loaded
  (api : Loader) (connection : option MssqlConnection) (schema name : string)
  (w : RWorld) :
  (fst (getRoutine api connection schema name w) = None →
   ∃ more,
     rissued (snd (getRoutine api connection schema name w))
     = rissued w ++ more
     ∧ Forall (fun f => isBulkR f = true) more)
  ∧ (∀ key e,
        getConnectionKey connection = Some key →
        rcache w !! key = Some e →
        JsMap.get (toObjectKey schema name) (ce_routines e) = None →
        getRoutine api connection schema name w = (None, w)).
Proof.
  split.
  - unfold getRoutine, rbind.
    destruct (getConnectionKey connection) as [key|] eqn:Hk.
    2:{ intros _. unfold ensureCacheR. rewrite Hk. exists [].
        by rewrite app_nil_r. }
    destruct (ensureCacheR_entry api connection None w key Hk)
      as (e & w0 & more & -> & _ & Hmore & Hbulk).
    destruct (JsMap.get _ _) as [r|].
    + destruct (fillDefinition _ _ _ _ _ _) as [r1 w1].
      destruct (fillParameters _ _ _ _ _ _) as [r2 w2]. discriminate.
    + intros _. exists more. by split.
  - intros key e Hk He Hget. unfold getRoutine, rbind.
    rewrite (ensureCacheR_hit _ _ _ _ _ _ Hk He), Hget. reflexivity.
Qed.

Lemma routine_miss_is_not_loaded_witness :
  ∃ more,
    rissued (snd (getRoutine routineLoader salesConnection "dbo" "Nothing"
                    freshRWorld))
    = rissued freshRWorld ++ more
    ∧ Forall (fun f => isBulkR f = true) more.
Proof.
  apply (proj1 (routine_miss_is_not_loaded routineLoader salesConnection
                  "dbo" "Nothing" freshRWorld)).
  vm_compute. reflexivity.
Defined.

(** X10.  For a routine that the entry of the connection holds,
    [getRoutine] returns it with the schema, name and kind of the
    snapshot; it asks for the definition only if none is stored and for
    the parameters only if none are stored, with the names as the
    snapshot spells them; the routine it returns is the one stored in the
    entry afterwards, and the tables and foreign keys of the entry are as
    before. *)
Theorem getRoutine_fills_lazily
  (api : Loader) (connection : option MssqlConnection) (schema name : string)
  (w : RWorld) (key : string) (e : CacheEntry) (r0 : RoutineMetadata) :
  getConnectionKey connection = Some key →
  rcache w !! key = Some e →
  JsMap.get (toObjectKey schema name) (ce_routines e) = Some r0 →
  let res := getRoutine api connection schema name w in
  ∃ r,
    fst res = Some r
    ∧ rm_schema r = rm_schema r0 ∧ rm_name r = rm_name r0
    ∧ rm_type r = rm_type r0
    ∧ StoredRoutine (snd res) key (toObjectKey schema name) r
    ∧ rissued (snd res)
      = rissued w
        ++ (if missing (rm_definition r0) Js.Boolean_
            then [FetchDefinition (rm_schema r0) (rm_name r0)
                    (connection ≫= conn_database)]
            else [])
        ++ (if missing (rm_parameters r0) (fun _ => true)
            then [FetchParameters (rm_schema r0) (rm_name r0)
                    (connection ≫= conn_database)]
            else [])
    ∧ (∃ e', rcache (snd res) !! key = Some e'
             ∧ ce_tables e' = ce_tables e
             ∧ ce_foreignKeys e' = ce_foreignKeys e)
    ∧ (∀ ps, rm_parameters r0 = Some ps → rm_parameters r = Some ps).
Proof.
  intros Hk He Hget res. subst res. unfold getRoutine, rbind.
  rewrite (ensureCacheR_hit _ _ _ _ _ _ Hk He), Hget.
  rewrite fillDefinition_eq.
  assert (∃ r1 w1,
             (if missing (rm_definition r0) Js.Boolean_ then _ else (r0, w))
             = (r1, w1)
             ∧ rm_schema r1 = rm_schema r0 ∧ rm_name r1 = rm_name r0
             ∧ rm_type r1 = rm_type r0
             ∧ rm_parameters r1 = rm_parameters r0
             ∧ StoredRoutine w1 key (toObjectKey schema name) r1
             ∧ rissued w1
               = rissued w
                 ++ (if missing (rm_definition r0) Js.Boolean_
                     then [FetchDefinition (rm_schema r0) (rm_name r0)
                             (connection ≫= conn_database)]
                     else [])
             ∧ ∃ e1, rcache w1 !! key = Some e1
                     ∧ ce_tables e1 = ce_tables e
                     ∧ ce_foreignKeys e1 = ce_foreignKeys e)
    as (r1 & w1 & -> & Hs1 & Hn1 & Ht1 & Hp1 & Hst1 & Hi1 & e1 & He1 & Htb1 & Hfk1).
  { destruct (missing (rm_definition r0) Js.Boolean_).
    - cbv zeta. eexists _, _. split; [reflexivity|].
      match goal with
      | |- context [setRoutine key ?k ?r ?w0] =>
          destruct (setRoutine_run key k r w0 e He) as (Hst & Hi & Hfr)
      end.
      split; [by destruct (Js.Boolean_ _)|].
      split; [by destruct (Js.Boolean_ _)|].
      split; [by destruct (Js.Boolean_ _)|].
      split; [by destruct (Js.Boolean_ _)|].
      split; [exact Hst|]. split; [exact Hi|]. exact Hfr.
    - exists r0, w. rewrite app_nil_r. repeat split; try done.
      + by exists e.
      + by exists e. }
  rewrite fillParameters_eq. rewrite Hs1, Hn1, Hp1.
  destruct (missing (rm_parameters r0) (fun _ => true)) eqn:Hm.
  - cbv zeta. unfold rret. cbn [fst snd].
    match goal with
    | |- context [setRoutine key ?k ?r ?w0] =>
        destruct (setRoutine_run key k r w0 e1 He1)
          as (Hst & Hi & e2 & He2 & Htb2 & Hfk2)
    end.
    eexists. split; [reflexivity|].
    split; [by destruct (api _ _)|].
    split; [by destruct (api _ _)|].
    split; [by destruct (api _ _); cbn; congruence|].
    split; [exact Hst|].
    split; [rewrite Hi; cbn [rissued]; by rewrite Hi1, <- app_assoc|].
    split; [exists e2; split; [exact He2|]; split; congruence|].
    intros ps Hps. unfold missing in Hm. rewrite Hps in Hm. discriminate.
  - unfold rret. cbn [fst snd]. exists r1. split; [reflexivity|].
    split; [exact Hs1|]. split; [exact Hn1|]. split; [exact Ht1|].
    split; [exact Hst1|]. split; [by rewrite Hi1, app_nil_r|].
    split; [by exists e1|]. intros ps Hps. congruence.
Qed.

Lemma getRoutine_fills_lazily_witness :
  ∃ r,
    fst (getRoutine routineLoader salesConnection "DBO" "addorder"
           (snd (ensureCacheR routineLoader salesConnection None freshRWorld)))
    = Some r
    ∧ rm_name r = "AddOrder".
Proof.
  destruct (getRoutine_fills_lazily routineLoader salesConnection
              "DBO" "addorder"
              (snd (ensureCacheR routineLoader salesConnection None freshRWorld))
              "c1|srv|Sales|sa"
              (mkEntry [] [("dbo.addorder",
                            mkRoutine "dbo" "AddOrder" PROCEDURE None None)]
                 [] 0)
              (mkRoutine "dbo" "AddOrder" PROCEDURE None None)
              eq_refl eq_refl eq_refl)
    as (r & H1 & _ & H2 & _).
  exists r. split; [exact H1 | exact H2].
Defined.

End RoutineFacts.

(** ** A table that is filled *)

Section FilledTable.
Import MssqlApi SchemaCache Spec Samples StoreProps.

(** X28.  A table that the entry of the connection stores with its
    columns and its description filled is returned as it is, without any
    query and without a change of the store, whatever the loader and the
    token.  The database named in the options makes no difference unless
    the call is a cross-database call: the table is found under its
    schema and name alone. *)
Theorem filled_table_answers_without_query
  (api : Loader) (connection : option MssqlConnection) (schema name : string)
  (token : option CancellationToken) (options : option string) (w : World)
  (key : string) (t : TableMetadata) :
  getConnectionKey connection = Some key →
  crossDatabaseTarget connection options = None →
  Stored w key (toObjectKey schema name) t →
  columnsFilled t = true →
  descriptionFilled t = true →
  getTable api connection schema name token options w = (Some t, w).
Proof.
  intros Hk Hcross (e & He & Hget) Hcols Hdesc.
  unfold getTable. rewrite Hcross. unfold bind.
  rewrite (ensureCache_hit _ _ _ _ _ _ Hk He).
  unfold lookupOrLoad. rewrite Hget. cbn [ret].
  unfold columnsFilled, descriptionFilled in *.
  apply negb_true_iff in Hcols, Hdesc.
  rewrite fillColumns_eq, Hcols. cbn [fst snd].
  rewrite fillDescription_eq, Hdesc. reflexivity.
Qed.

Lemma filled_table_answers_without_query_witness :
  let first :=
    getTable salesLoader salesConnection "dbo" "Orders" None None freshWorld in
  ∃ t,
    fst first = Some t
    ∧ getTable failingLoader salesConnection "DBO" "orders" None
        (Some "SALES") (snd first)
      = (Some t, snd first).
Proof.
  intros first. eexists. split; [vm_compute; reflexivity|].
  apply (filled_table_answers_without_query failingLoader salesConnection
           "DBO" "orders" None (Some "SALES") (snd first) "c1|srv|Sales|sa").
  - vm_compute. reflexivity.
  - vm_compute. reflexivity.
  - eexists. split; vm_compute; reflexivity.
  - vm_compute. reflexivity.
  - vm_compute. reflexivity.
Defined.

End FilledTable.
(** ** A bulk fetch that fails *)

Section FailedFetch.
Import MssqlApi SchemaCache Spec Samples StoreProps.

(** C1, counterexample.  After a bulk fetch that failed the cache holds an
    entry for the key, and the next [getTables], with a loader that would
    answer, issues no query. *)
Lemma failed_bulk_fetch_is_cached :
  let w1 := snd (getTables failingLoader salesConnection None freshWorld) in
  cache freshWorld !! "c1|srv|Sales|sa" = None
  ∧ cache w1 !! "c1|srv|Sales|sa" = Some (emptyEntry 0)
  ∧ getTables salesLoader salesConnection None w1 = ([], w1).
Proof. repeat split; vm_compute; reflexivity. Qed.

(** C1, as amended.  When the bulk fetch for a connection key fails (the
    loader returns no result for the object list, or the token is
    cancelled), [getTables] returns the empty list and stores an entry
    without tables, routines or foreign keys under the key.  In every
    state of the store in which the key has an entry, [getTables] for the
    key does not attempt the bulk fetch again, whatever the loader would
    answer: it returns the tables of the entry without any query and
    without changing the store, which is the empty list whenever the
    entry is an empty one.  A [getTable] that meets the empty entry and
    finds columns for its object stores the table it loaded on demand in
    the entry, and [getTables] lists that table in every state in which
    the entry holds it, still without a query.  [invalidate] removes the
    entry, and the next [getTables] after it issues the bulk fetch
    again. *)
Theorem failed_bulk_fetch_caches_empty_entry
  (api : Loader) (connection : option MssqlConnection)
  (token : option CancellationToken) (w : World) (key : string) :
  getConnectionKey connection = Some key →
  cache w !! key = None →
  answer api token (Datatypes.length (issued w))
    (Queries.allObjectsQuery (connection ≫= conn_database)) = None →
  let w1 := snd (getTables api connection token w) in
  fst (getTables api connection token w) = []
  ∧ cache w1 = <[key := emptyEntry (now w)]> (cache w)
  ∧ issued w1 = issued w ++ [FetchObjects (connection ≫= conn_database)]
  ∧ (∀ api' token' w' e,
        cache w' !! key = Some e →
        getTables api' connection token' w'
        = (List.filter isTableOrView (JsMap.values (ce_tables e)), w'))
  ∧ (∀ api' token' w' timestamp,
        cache w' !! key = Some (emptyEntry timestamp) →
        getTables api' connection token' w' = ([], w'))
  ∧ (∀ api' schema name token' options result w' timestamp,
        cache w' !! key = Some (emptyEntry timestamp) →
        crossDatabaseTarget connection options = None →
        api' (Datatypes.length (issued w'))
          (Queries.columnsForObjectQuery schema name
             (queryDatabaseOf connection options)) = Some result →
        qr_rows result ≠ [] →
        ∃ t,
          fst (getTable api' connection schema name token' options w')
          = Some t
          ∧ Stored
              (snd (getTable api' connection schema name token' options w'))
              key (toObjectKey schema name) t
          ∧ ∀ api'' token'' w'',
              Stored w'' key (toObjectKey schema name) t →
              t ∈ fst (getTables api'' connection token'' w'')
              ∧ snd (getTables api'' connection token'' w'') = w'')
  ∧ (∀ w',
        cache (snd (invalidate connection w')) !! key = None
        ∧ ∀ api' token',
            ∃ more,
              issued (snd (getTables api' connection token'
                             (snd (invalidate connection w'))))
              = issued w'
                ++ FetchObjects (connection ≫= conn_database) :: more).
Proof.
  intros Hk Hc Hfail w1.
  destruct (ensureCache_miss api connection token w key Hk Hc)
    as (e & more & Hens & Hmore & He).
  rewrite Hfail in Hmore. specialize (He Hfail). subst e more.
  assert (getTables api connection token w
          = ([], mkWorld (<[key := emptyEntry (now w)]> (cache w))
                   (issued w ++ [FetchObjects (connection ≫= conn_database)])
                   (now w))) as Hget.
  { unfold getTables, bind. rewrite Hens. reflexivity. }
  assert (∀ api' token' w' e,
             cache w' !! key = Some e →
             getTables api' connection token' w'
             = (List.filter isTableOrView (JsMap.values (ce_tables e)), w'))
    as Hhit.
  { intros api' token' w' e He. unfold getTables, bind.
    by rewrite (ensureCache_hit api' connection token' w' key e Hk He). }
  assert (w1 = mkWorld (<[key := emptyEntry (now w)]> (cache w))
                 (issued w ++ [FetchObjects (connection ≫= conn_database)])
                 (now w)) as Hw1.
  { subst w1. by rewrite Hget. }
  split; [by rewrite Hget|].
  split; [by rewrite Hw1|]. split; [by rewrite Hw1|].
  split; [exact Hhit|].
  split; [intros api' token' w' timestamp He; by rewrite (Hhit _ _ _ _ He)|].
  split.
  - intros api' schema name token' options result w' timestamp He Hcross Hq
      Hrows.
    destruct (on_demand_load_run api' connection schema name token'
                options w' key (emptyEntry timestamp) result Hk Hcross He)
      as (t & Ht & _ & _ & _ & _ & Hst & _ & _);
      [reflexivity | exact Hq | exact Hrows |].
    exists t. split; [exact Ht|]. split; [exact Hst|].
    intros api'' token'' w'' (e2 & He2 & Hget2).
    rewrite (Hhit api'' token'' w'' e2 He2). cbn [fst snd].
    split; [|reflexivity].
    rewrite filter_isTableOrView. by eapply jsmap_get_values.
  - intros w'.
    assert (snd (invalidate connection w')
            = mkWorld (delete key (cache w')) (issued w') (now w')) as ->.
    { unfold invalidate.
      by rewrite Hk, (getConnectionKey_nonEmpty _ _ Hk). }
    cbn [cache]. split; [apply lookup_delete_eq|].
    intros api' token'.
    match goal with
    | |- context [getTables _ _ _ ?w2] =>
        destruct (ensureCache_miss api' connection token' w2 key Hk)
          as (e & more & Hens' & _ & _); [apply lookup_delete_eq|]
    end.
    exists more. unfold getTables, bind. rewrite Hens'. reflexivity.
Qed.

Lemma failed_bulk_fetch_caches_empty_entry_witness :
  let w1 := snd (getTables failingLoader salesConnection None freshWorld) in
  fst (getTables failingLoader salesConnection None freshWorld) = []
  ∧ (∀ api' token', getTables api' salesConnection token' w1 = ([], w1))
  ∧ ∃ t,
      fst (getTable salesLoader salesConnection "dbo" "Orders" None None w1)
      = Some t
      ∧ t ∈ fst (getTables failingLoader salesConnection None
                   (snd (getTable salesLoader salesConnection "dbo" "Orders"
                           None None w1))).
Proof.
  intros w1.
  pose proof (failed_bulk_fetch_caches_empty_entry failingLoader
                salesConnection None freshWorld "c1|srv|Sales|sa"
                eq_refl eq_refl eq_refl) as (H1 & _ & _ & _ & H5 & H6 & _).
  split; [exact H1|]. split.
  - intros api' token'. apply (H5 api' token' w1 0). reflexivity.
  - destruct (H6 salesLoader "dbo" "Orders" None None ordersColumns w1 0
                eq_refl eq_refl eq_refl) as (t & Ht & Hst & Hlist);
      [discriminate|].
    exists t. split; [exact Ht|].
    apply (Hlist failingLoader None _ Hst).
Defined.

End FailedFetch.


(** ** Escaping in the queries *)

Section Escaping.
Import TextProps.

Lemma isChar_eq (x c : ascii) : Js.isChar x c = true ↔ x = c.
Proof.
  unfold Js.isChar, Js.code. rewrite N.eqb_eq. split; [|by intros ->].
  intros H. rewrite <- (ascii_N_embedding x), <- (ascii_N_embedding c).
  by rewrite H.
Qed.

Lemma isChar_refl (x : ascii) : Js.isChar x x = true.
Proof. by apply isChar_eq. Qed.

Lemma doubled_chars (x : ascii) (c : ascii) (cs : list ascii) :
  flat_map (fun c => if Js.isChar x c then [c; c] else [c]) (c :: cs)
  = (if Js.isChar x c then [c; c] else [c])
      ++ flat_map (fun c => if Js.isChar x c then [c; c] else [c]) cs.
Proof. reflexivity. Qed.

Lemma doubleChar_paired (x : ascii) (v : string) :
  paired x (Js.chars (Queries.doubleChar x v)) = true.
Proof.
  unfold Queries.doubleChar. rewrite chars_str.
  induction (Js.chars v) as [|c cs IH]; [reflexivity|].
  rewrite doubled_chars. destruct (Js.isChar x c) eqn:E; simpl.
  - by rewrite E, IH.
  - by rewrite E.
Qed.

Lemma doubleChar_halve (x : ascii) (v : string) :
  Js.str (halve x (Js.chars (Queries.doubleChar x v))) = v.
Proof.
  unfold Queries.doubleChar. rewrite chars_str.
  rewrite <- (str_chars v) at 2. f_equal.
  induction (Js.chars v) as [|c cs IH]; [reflexivity|].
  rewrite doubled_chars. destruct (Js.isChar x c) eqn:E; simpl.
  - by rewrite E, IH.
  - by rewrite E, IH.
Qed.

Lemma doubleChar_others (x : ascii) (v : string) :
  Js.removeAll (Js.isChar x) (Queries.doubleChar x v)
  = Js.removeAll (Js.isChar x) v.
Proof.
  unfold Js.removeAll, Queries.doubleChar. rewrite chars_str. f_equal.
  induction (Js.chars v) as [|c cs IH]; [reflexivity|].
  rewrite doubled_chars. destruct (Js.isChar x c) eqn:E; simpl;
    rewrite E; simpl; by rewrite IH.
Qed.

(** Doubling another character keeps the pairs of [x]. *)
Lemma paired_doubled_other (x y : ascii) (n : nat) :
  Js.isChar y x = false →
  ∀ cs, (Datatypes.length cs ≤ n)%nat →
        paired x (flat_map (fun c => if Js.isChar y c then [c; c] else [c]) cs)
        = paired x cs.
Proof.
  intros Hyx. induction n as [|n IH]; intros cs Hlen.
  { destruct cs; [reflexivity | simpl in Hlen; lia]. }
  destruct cs as [|c cs]; [reflexivity|].
  rewrite doubled_chars.
  destruct (Js.isChar x c) eqn:Ex.
  - apply isChar_eq in Ex. subst c. rewrite Hyx.
    cbn [app paired]. rewrite isChar_refl.
    destruct cs as [|c' cs']; [reflexivity|].
    rewrite doubled_chars. destruct (Js.isChar y c') eqn:Ey.
    + assert (Js.isChar x c' = false) as H.
      { destruct (Js.isChar x c') eqn:E; [|reflexivity].
        apply isChar_eq in E. subst c'. congruence. }
      cbn [app]. rewrite H. reflexivity.
    + cbn [app]. rewrite IH; [reflexivity|]. simpl in Hlen. lia.
  - destruct (Js.isChar y c); cbn [app paired]; rewrite !Ex;
      apply IH; simpl in Hlen; lia.
Qed.

(** X11.  [escapeSqlIdentifier] doubles every closing bracket and changes
    nothing else; in its result closing brackets occur in pairs only, and
    reading each pair as one bracket gives the value back, so different
    values have different escapes.  [escapeSqlLiteral] does the same for
    quotes and closing brackets together. *)
Theorem escapes_double_and_round_trip (value : string) :
  paired "]" (Js.chars (Queries.escapeSqlIdentifier value)) = true
  ∧ Js.str (halve "]" (Js.chars (Queries.escapeSqlIdentifier value))) = value
  ∧ Js.removeAll (Js.isChar "]") (Queries.escapeSqlIdentifier value)
    = Js.removeAll (Js.isChar "]") value
  ∧ (∀ other, Queries.escapeSqlIdentifier other
              = Queries.escapeSqlIdentifier value → other = value)
  ∧ paired "'" (Js.chars (Queries.escapeSqlLiteral value)) = true
  ∧ paired "]" (Js.chars (Queries.escapeSqlLiteral value)) = true
  ∧ Js.str (halve "'"
              (halve "]" (Js.chars (Queries.escapeSqlLiteral value))))
    = value.
Proof.
  unfold Queries.escapeSqlIdentifier, Queries.escapeSqlLiteral.
  split; [apply doubleChar_paired|].
  split; [apply doubleChar_halve|].
  split; [apply doubleChar_others|].
  split.
  { intros other H. rewrite <- (doubleChar_halve "]" other), H.
    apply doubleChar_halve. }
  split.
  { unfold Queries.doubleChar at 1. rewrite chars_str.
    rewrite (paired_doubled_other "'" "]" _ eq_refl _ (Nat.le_refl _)).
    apply doubleChar_paired. }
  split; [apply doubleChar_paired|].
  rewrite <- (chars_str (halve "]" _)), doubleChar_halve.
  apply doubleChar_halve.
Qed.

Lemma escapes_double_and_round_trip_witness :
  paired "]" (Js.chars (Queries.escapeSqlIdentifier "a]b")) = true
  ∧ Queries.escapeSqlIdentifier "x]" ≠ Queries.escapeSqlIdentifier "x".
Proof.
  destruct (escapes_double_and_round_trip "a]b") as (H & _).
  split; [exact H|].
  destruct (escapes_double_and_round_trip "x") as (_ & _ & _ & Hinj & _).
  intros E. apply Hinj in E. discriminate.
Defined.

End Escaping.

(** ** The shape of the contexts the analyzer returns *)

Section ContextShape.
Import SqlParser TextProps.

Lemma determineRoutineCategory_cases (keyword : string) :
  determineRoutineCategory keyword = C_view
  ∨ determineRoutineCategory keyword = C_function
  ∨ determineRoutineCategory keyword = C_procedure.
Proof.
  unfold determineRoutineCategory.
  repeat case_bool_decide; auto.
Qed.

Lemma buildRoutineContext_shape (token : option string)
  (category : RoutineCategory) :
  let r := buildRoutineContext token category in
  ctx_type r = T_routine ∧ ctx_alias r = None
  ∧ ctx_routineCategory r = Some category.
Proof.
  unfold buildRoutineContext.
  destruct (parseRoutineToken (default "" token)) as [schema prefix].
  by cbn.
Qed.

Lemma detectRoutineContext_shape (linePrefix : string)
  (r : CompletionContextResult) :
  detectRoutineContext linePrefix = Some r →
  ctx_type r = T_routine ∧ ctx_alias r = None
  ∧ ∃ category, ctx_routineCategory r = Some category ∧ category ≠ C_any.
Proof.
  unfold detectRoutineContext. intros H.
  destruct (execRegex linePrefix) as [g2|].
  { injection H as <-.
    destruct (buildRoutineContext_shape (Some g2) C_procedure) as (?&?&?).
    split_and!; [done..|]. by exists C_procedure. }
  destruct (ddlRegex linePrefix) as [[g1 g2]|]; [|done].
  injection H as <-.
  destruct (buildRoutineContext_shape (Some g2) (determineRoutineCategory g1))
    as (?&?&?).
  split_and!; [done..|]. eexists. split; [done|].
  destruct (determineRoutineCategory_cases g1) as [-> | [-> | ->]]; done.
Qed.

(** X12.  Whatever the line and the cursor, the analyzer never answers
    with the type schema nor with the category any; an alias is given
    exactly in the column contexts that have an owner, and then it is the
    owner; a table or keyword context has no owner; a category is given
    only in a routine context; a keyword context has an empty prefix. *)
Theorem analyze_result_shape (lineText : string) (character : nat) :
  let r := analyzeCompletionContext lineText character in
  ctx_type r ≠ T_schema
  ∧ ctx_routineCategory r ≠ Some C_any
  ∧ (is_Some (ctx_routineCategory r) → ctx_type r = T_routine)
  ∧ (is_Some (ctx_alias r) → ctx_type r = T_column)
  ∧ (ctx_type r = T_column → ctx_alias r = ctx_owner r)
  ∧ (ctx_type r = T_table ∨ ctx_type r = T_keyword → ctx_owner r = None)
  ∧ (ctx_type r = T_keyword → ctx_prefix r = "").
Proof.
  unfold analyzeCompletionContext.
  destruct (detectRoutineContext _) as [r|] eqn:Hd.
  { apply detectRoutineContext_shape in Hd as (Ht & Ha & c & Hc & Hne).
    cbv zeta. rewrite Ht, Ha, Hc.
    split_and!; try done; try congruence;
      try (by intros [? ?]); try (by intros [|]). }
  cbv zeta.
  repeat match goal with
  | |- context [if ?b then _ else _] => destruct b
  | |- context [let '(_, _) := ?p in _] => destruct p
  end; cbn; split_and!; try done;
    try (by intros [? ?]); try (by intros [|]).
Qed.

Lemma analyze_result_shape_witness :
  ctx_type (analyzeCompletionContext "SELECT o.na" 11) = T_column
  ∧ ctx_alias (analyzeCompletionContext "SELECT o.na" 11)
    = ctx_owner (analyzeCompletionContext "SELECT o.na" 11).
Proof.
  assert (ctx_type (analyzeCompletionContext "SELECT o.na" 11) = T_column)
    as Ht by (vm_compute; reflexivity).
  split; [exact Ht|].
  destruct (analyze_result_shape "SELECT o.na" 11) as (_ & _ & _ & _ & H & _).
  exact (H Ht).
Defined.

End ContextShape.

(** ** The characters of the names the parser resolves *)

Section NameCharacters.
Import SqlParser TextProps Spec.

Lemma filter_Forall_and (P : ascii → Prop) (p : ascii → bool)
  (l : list ascii) :
  Forall P l →
  Forall (fun c => P c ∧ p c = false) (List.filter (fun c => negb (p c)) l).
Proof.
  induction 1 as [|x l Hx Hl IH]; cbn [List.filter]; [constructor|].
  destruct (p x) eqn:E; cbn [negb]; [exact IH|]. by constructor.
Qed.

Lemma removeAll_chars (P : ascii → Prop) (p : ascii → bool) (s : string) :
  Forall P (Js.chars s) →
  Forall (fun c => P c ∧ p c = false) (Js.chars (Js.removeAll p s)).
Proof.
  intros H. unfold Js.removeAll. rewrite chars_str.
  by apply filter_Forall_and.
Qed.

Lemma splitGo_chars (P : ascii → Prop) (sep : ascii) (cs : list ascii) :
  ∀ cur,
    Forall P cs →
    Forall (fun c => P c ∧ Js.isChar sep c = false) cur →
    Forall (fun t => Forall (fun c => P c ∧ Js.isChar sep c = false)
                       (Js.chars t))
      (Js.splitGo sep cur cs).
Proof.
  induction cs as [|c cs IH]; intros cur Hcs Hcur; cbn [Js.splitGo].
  - constructor; [|constructor]. rewrite chars_str.
    apply Forall_forall. intros x Hx.
    apply list_elem_of_In, in_rev, list_elem_of_In in Hx.
    by eapply Forall_forall in Hcur.
  - apply Forall_cons in Hcs as [Hc Hcs].
    destruct (Js.isChar sep c) eqn:E.
    + constructor.
      * rewrite chars_str. apply Forall_forall. intros x Hx.
        apply list_elem_of_In, in_rev, list_elem_of_In in Hx.
        by eapply Forall_forall in Hcur.
      * apply IH; [done | constructor].
    + apply IH; [done|]. by constructor.
Qed.

Lemma split_chars (P : ascii → Prop) (sep : ascii) (s : string) :
  Forall P (Js.chars s) →
  Forall (fun t => Forall (fun c => P c ∧ Js.isChar sep c = false)
                     (Js.chars t))
    (Js.split sep s).
Proof. intros H. apply splitGo_chars; [done | constructor]. Qed.

Lemma trim_chars (P : ascii → Prop) (s : string) :
  Forall P (Js.chars s) → Forall P (Js.chars (Js.trim s)).
Proof.
  intros H. unfold Js.trim. rewrite chars_str.
  by apply dropEnd_Forall, dropWhile_Forall.
Qed.

Lemma sliceFrom_chars (P : ascii → Prop) (n : nat) (s : string) :
  Forall P (Js.chars s) → Forall P (Js.chars (Js.sliceFrom n s)).
Proof.
  intros H. unfold Js.sliceFrom. rewrite chars_str. by apply Forall_drop.
Qed.

Lemma pop_elem {A} (l : list A) (x : A) (r : list A) :
  Js.pop l = (Some x, r) → l = r ++ [x].
Proof.
  unfold Js.pop. destruct (rev l) as [|y r'] eqn:E; [discriminate|].
  intros [= -> <-]. rewrite <- (rev_involutive l), E. reflexivity.
Qed.

Lemma Forall_filter_list {A} (P : A → Prop) (p : A → bool) (l : list A) :
  Forall P l → Forall P (List.filter p l).
Proof.
  induction 1 as [|x l Hx Hl IH]; cbn [List.filter]; [constructor|].
  destruct (p x); [by constructor | exact IH].
Qed.

(** The white space that is left after the runs are collapsed is the
    space character. *)
Lemma collapseGo_spaces (cs : list ascii) :
  ∀ inRun,
    Forall (fun c => Js.isSpace c = true → c = " "%char)
      (collapseGo inRun cs).
Proof.
  induction cs as [|c cs IH]; intros inRun; cbn [collapseGo]; [constructor|].
  destruct (Js.isSpace c) eqn:E.
  - destruct inRun; [apply IH|]. constructor; [done | apply IH].
  - constructor; [congruence | apply IH].
Qed.

Lemma no_space_left (c : ascii) :
  (Js.isSpace c = true → c = " "%char) ∧ Js.isChar " " c = false →
  Js.isSpace c = false.
Proof.
  intros [H1 H2]. destruct (Js.isSpace c) eqn:E; [|reflexivity].
  rewrite (H1 eq_refl) in H2. discriminate.
Qed.

Lemma isAsteriskAt_char (text : string) (offset : nat) :
  isAsteriskAt text offset = true ↔ Js.charAt offset text = Some "*"%char.
Proof.
  unfold isAsteriskAt. destruct (Js.charAt offset text) as [c|]; cbn.
  - rewrite isChar_eq. split; [by intros <- | by intros [= <-]].
  - split; discriminate.
Qed.

(** The parts [parseTableToken] returns are made of the characters of
    its token, without dots and brackets. *)
Lemma parseTableToken_chars (P : ascii → Prop) (token : string)
  (schema object : option string) :
  Forall P (Js.chars token) →
  parseTableToken token = (schema, object) →
  ∀ part, schema = Some part ∨ object = Some part →
          Forall (fun c => (P c ∧ isDot c = false) ∧ isBracket c = false)
            (Js.chars part).
Proof.
  intros HP. unfold parseTableToken.
  pose proof (Forall_filter_list _ Js.nonEmpty _
                (split_chars P "." token HP)) as Hparts.
  destruct (List.filter Js.nonEmpty (Js.split "." token)) as [|p0 ps] eqn:E.
  { intros [= <- <-] part [?|?]; discriminate. }
  destruct (Js.pop (p0 :: ps)) as [[objectPart|] parts] eqn:Epop.
  2: { intros [= <- <-] part [?|?]; discriminate. }
  apply pop_elem in Epop. rewrite Epop in Hparts.
  apply Forall_app in Hparts as [Hrest Hobj].
  apply Forall_cons in Hobj as [Hobj _].
  destruct (Js.nonEmpty objectPart); cbn [negb].
  2: { intros [= <- <-] part [?|?]; discriminate. }
  destruct (Js.pop parts) as [[schemaPart|] parts'] eqn:Epop2.
  - apply pop_elem in Epop2. rewrite Epop2 in Hrest.
    apply Forall_app in Hrest as [_ Hsch].
    apply Forall_cons in Hsch as [Hsch _].
    intros [= <- <-] part [Hs|[= <-]].
    + destruct (Js.nonEmpty schemaPart); [|discriminate].
      injection Hs as <-. by apply removeAll_chars.
    + by apply removeAll_chars.
  - intros [= <- <-] part [?|[= <-]]; [discriminate|].
    by apply removeAll_chars.
Qed.

Lemma fromClauseTokens_chars (text : string) (asteriskOffset : nat)
  (raw : string) (remaining : list string) :
  fromClauseTokens text asteriskOffset = Some (raw, remaining) →
  Forall (fun c => Js.isSpace c = false) (Js.chars raw).
Proof.
  unfold fromClauseTokens.
  set (normalizedAfter := Js.trim (collapseSpaces _)).
  assert (Forall (fun c => Js.isSpace c = true → c = " "%char)
            (Js.chars normalizedAfter)) as Hn.
  { apply trim_chars. unfold collapseSpaces. rewrite chars_str.
    apply collapseGo_spaces. }
  destruct (Js.nonEmpty normalizedAfter); cbn [negb]; [|discriminate].
  destruct (Js.indexOf _ _) as [fromIndex|]; [|discriminate].
  set (afterFrom := Js.trim (Js.sliceFrom _ normalizedAfter)).
  assert (Forall (fun c => Js.isSpace c = true → c = " "%char)
            (Js.chars afterFrom)) as Ha.
  { by apply trim_chars, sliceFrom_chars. }
  destruct (Js.nonEmpty afterFrom); cbn [negb]; [|discriminate].
  pose proof (split_chars _ " " afterFrom Ha) as Hs.
  destruct (Js.split " " afterFrom) as [|t ts]; [discriminate|].
  intros [= <- <-]. apply Forall_cons in Hs as [Ht _].
  eapply Forall_impl; [exact Ht|]. intros c. apply no_space_left.
Qed.

(** X13.  When a wildcard is found, its range is one character long and
    holds an asterisk of the text, at the offset of the cursor or, only
    when no asterisk is there, just before it; the object name is not
    empty, and neither it nor the schema contains a bracket, a dot, a
    comma, a semicolon or white space. *)
Theorem wildcard_context_shape (text : string) (offset : nat)
  (found : WildcardContext) :
  findWildcardContext text offset = Some found →
  let first := fst (wc_asteriskRange found) in
  snd (wc_asteriskRange found) = S first
  ∧ Js.charAt first text = Some "*"%char
  ∧ (first = offset
     ∨ (S first = offset ∧ Js.charAt offset text ≠ Some "*"%char))
  ∧ wt_object (wc_target found) ≠ ""
  ∧ free isNamePunctuation (wt_object (wc_target found))
  ∧ (∀ schema, wt_schema (wc_target found) = Some schema →
               free isNamePunctuation schema).
Proof.
  unfold findWildcardContext.
  destruct (locateAsterisk text offset) as [a|] eqn:Ea; [|discriminate].
  destruct (fromClauseTokens text a) as [[raw remaining]|] eqn:Ef;
    [|discriminate].
  apply fromClauseTokens_chars in Ef.
  destruct (Js.nonEmpty (Js.removeAll isSeparator raw)); cbn [negb];
    [|discriminate].
  destruct (parseTableToken _) as [schema [object|]] eqn:Ep; [|discriminate].
  destruct (Js.nonEmpty object) eqn:En; cbn [negb]; [|discriminate].
  intros [= <-]. cbn.
  assert (∀ part, schema = Some part ∨ Some object = Some part →
                  free isNamePunctuation part) as Hfree.
  { intros part Hpart.
    pose proof (parseTableToken_chars _ _ _ _
                  (removeAll_chars _ isSeparator raw Ef) Ep part Hpart) as H.
    eapply Forall_impl; [exact H|].
    intros c [[[Hsp Hsep] Hdot] Hbr]. unfold isNamePunctuation.
    by rewrite Hsp, Hsep, Hdot, Hbr. }
  split_and!.
  - lia.
  - unfold locateAsterisk in Ea.
    destruct (isAsteriskAt text offset) eqn:E1.
    { injection Ea as <-. by apply isAsteriskAt_char. }
    destruct (offset =? 0)%nat; cbn [orb] in Ea; [discriminate|].
    destruct (isAsteriskAt text (offset - 1)) eqn:E2; cbn [negb] in Ea;
      [|discriminate].
    injection Ea as <-. by apply isAsteriskAt_char.
  - unfold locateAsterisk in Ea.
    destruct (isAsteriskAt text offset) eqn:E1.
    { injection Ea as <-. by left. }
    destruct (offset =? 0)%nat eqn:E0; cbn [orb] in Ea; [discriminate|].
    destruct (isAsteriskAt text (offset - 1)); cbn [negb] in Ea;
      [|discriminate].
    injection Ea as <-. right. apply Nat.eqb_neq in E0. split; [lia|].
    intros H. apply isAsteriskAt_char in H. congruence.
  - by apply nonEmpty_true.
  - apply Hfree. by right.
  - intros s Hs. apply Hfree. by left.
Qed.

Lemma wildcard_context_shape_witness :
  ∃ found,
    findWildcardContext "SELECT * FROM [dbo].[Orders] o, x" 8 = Some found
    ∧ wc_asteriskRange found = (7%nat, 8%nat)
    ∧ wt_object (wc_target found) = "Orders"
    ∧ free isNamePunctuation (wt_object (wc_target found)).
Proof.
  eexists. split; [vm_compute; reflexivity|].
  split; [reflexivity|]. split; [reflexivity|].
  apply (wildcard_context_shape "SELECT * FROM [dbo].[Orders] o, x" 8).
  vm_compute; reflexivity.
Defined.

End NameCharacters.

(** ** The parts of a routine token *)

Section RoutineToken.
Import SqlParser TextProps Spec.

Lemma isDot_char (c : ascii) : isDot c = true → c = "."%char.
Proof. unfold isDot. intros H. by apply isChar_eq in H. Qed.

Lemma normalizeDotsGo_chars (P : ascii → Prop) (cs : list ascii) :
  ∀ pending afterDot,
    Forall P pending → Forall P cs →
    Forall P (normalizeDotsGo pending afterDot cs).
Proof.
  induction cs as [|c cs IH]; intros pending afterDot Hp Hcs;
    cbn [normalizeDotsGo]; [done|].
  apply Forall_cons in Hcs as [Hc Hcs].
  destruct (Js.isSpace c).
  { destruct afterDot; apply IH; try done.
    apply Forall_app. split; [done | by constructor]. }
  destruct (isDot c) eqn:Ed.
  { apply isDot_char in Ed. subst c. constructor; [done|]. by apply IH. }
  apply Forall_app. split; [done|]. constructor; [done|]. by apply IH.
Qed.

Lemma normalizeDotsGo_no_dot (cs : list ascii) :
  ∀ pending,
    Forall (fun c => isDot c = false) cs →
    normalizeDotsGo pending false cs = pending ++ cs.
Proof.
  induction cs as [|c cs IH]; intros pending Hcs; cbn [normalizeDotsGo].
  { by rewrite app_nil_r. }
  apply Forall_cons in Hcs as [Hc Hcs]. rewrite Hc.
  destruct (Js.isSpace c).
  - rewrite IH by done. by rewrite <- app_assoc.
  - by rewrite (IH [] Hcs).
Qed.

Lemma splitGo_no_sep (sep : ascii) (cs : list ascii) :
  ∀ cur,
    Forall (fun c => Js.isChar sep c = false) cs →
    Js.splitGo sep cur cs = [Js.str (rev cur ++ cs)].
Proof.
  induction cs as [|c cs IH]; intros cur Hcs; cbn [Js.splitGo].
  { by rewrite app_nil_r. }
  apply Forall_cons in Hcs as [Hc Hcs]. rewrite Hc, IH by done.
  cbn [rev]. by rewrite <- app_assoc.
Qed.

Lemma includes_false (x : ascii) (s : string) :
  Js.includes x s = false ↔ Forall (fun c => Js.isChar x c = false) (Js.chars s).
Proof.
  unfold Js.includes. induction (Js.chars s) as [|c cs IH]; cbn [existsb].
  { split; [constructor | done]. }
  rewrite orb_false_iff, Forall_cons, IH. done.
Qed.

Lemma routineSegments_chars (P : ascii → Prop) (token : string) :
  Forall P (Js.chars token) →
  Forall (fun t => Forall (fun c => (P c ∧ isBracket c = false)
                                    ∧ isDot c = false) (Js.chars t))
    (routineSegments token).
Proof.
  intros H. unfold routineSegments. apply split_chars.
  unfold normalizeDots. rewrite chars_str.
  apply normalizeDotsGo_chars; [constructor|].
  by apply removeAll_chars, trim_chars.
Qed.

Lemma rightmost_elem (P : string → Prop) (segments : list string) :
  P "" → Forall P segments → P (rightmost segments).
Proof.
  intros H0 H. unfold rightmost.
  destruct (rev segments) as [|x r] eqn:E; [exact H0|]. cbn.
  eapply Forall_forall; [exact H|].
  apply list_elem_of_In, in_rev. rewrite E. by left.
Qed.

Lemma nearestNamedBefore_elem (P : string → Prop) (segments : list string)
  (owner : string) :
  Forall P segments → nearestNamedBefore segments = Some owner →
  P owner ∧ owner ≠ "".
Proof.
  intros H. unfold nearestNamedBefore. intros Hh.
  apply head_Some_elem_of, list_elem_of_In, filter_In in Hh as [Hin Hne].
  split; [|by apply nonEmpty_true].
  eapply Forall_forall; [exact H|].
  apply list_elem_of_In, in_rev.
  destruct (rev segments); [done | by right].
Qed.

(** X14.  The owner and the prefix that [parseRoutineToken] returns are
    made of characters of the token and contain neither a bracket nor a
    dot; an owner that is returned is not empty.  A token without a dot
    has no owner, and its prefix is the trimmed token without its
    brackets. *)
Theorem routine_token_parts (token : string) :
  free isBracketOrDot (snd (parseRoutineToken token))
  ∧ (∀ owner, fst (parseRoutineToken token) = Some owner →
              owner ≠ "" ∧ free isBracketOrDot owner)
  ∧ (∀ part c, (fst (parseRoutineToken token) = Some part
                ∨ snd (parseRoutineToken token) = part) →
               c ∈ Js.chars part → c ∈ Js.chars token)
  ∧ (Js.includes "." token = false →
     parseRoutineToken token = (None, stripBrackets (Js.trim token))).
Proof.
  rewrite parseRoutineToken_segments. cbn [fst snd].
  pose proof (routineSegments_chars (fun c => c ∈ Js.chars token) token) as H.
  assert (Forall (fun c => c ∈ Js.chars token) (Js.chars token)) as Hall.
  { by apply Forall_forall. }
  specialize (H Hall). clear Hall.
  set (Q := fun t : string =>
              Forall (fun c => (c ∈ Js.chars token ∧ isBracket c = false)
                               ∧ isDot c = false) (Js.chars t)) in H.
  assert (∀ t, Q t → free isBracketOrDot t) as Hfree.
  { intros t Ht. eapply Forall_impl; [exact Ht|].
    intros c [[_ Hb] Hd]. unfold isBracketOrDot. by rewrite Hb, Hd. }
  assert (Q "") as Q0 by constructor.
  split_and!.
  - by apply Hfree, rightmost_elem.
  - intros owner Ho.
    destruct (nearestNamedBefore_elem Q _ _ H Ho) as [HQ Hne].
    split; [done | by apply Hfree].
  - intros part c [Ho | <-] Hc.
    + destruct (nearestNamedBefore_elem Q _ _ H Ho) as [HQ _].
      by eapply Forall_forall in HQ as [[? _] _].
    + pose proof (rightmost_elem Q _ Q0 H) as HQ.
      by eapply Forall_forall in HQ as [[? _] _].
  - intros Hinc. apply includes_false in Hinc.
    unfold routineSegments, Js.split, normalizeDots. rewrite chars_str.
    assert (Forall (fun c => isDot c = false)
              (Js.chars (stripBrackets (Js.trim token)))) as Hd.
    { eapply Forall_impl;
        [apply (removeAll_chars (fun c => isDot c = false) isBracket),
           trim_chars, Hinc|].
      by intros c [? _]. }
    rewrite normalizeDotsGo_no_dot, splitGo_no_sep by done.
    cbn. by rewrite str_chars.
Qed.

Lemma routine_token_parts_witness :
  Js.includes "." " [sp_x] " = false
  ∧ parseRoutineToken " [sp_x] " = (None, "sp_x").
Proof.
  assert (Js.includes "." " [sp_x] " = false) as H by reflexivity.
  split; [exact H|].
  destruct (routine_token_parts " [sp_x] ") as (_ & _ & _ & Hplain).
  rewrite (Hplain H). vm_compute. reflexivity.
Defined.

End RoutineToken.

(** ** The tokens of a qualified identifier *)

Section Tokenizer.
Import SqlParser TextProps Spec.

Lemma append_cons (x : ascii) (a b : string) :
  String x a +:+ b = String x (a +:+ b).
Proof. reflexivity. Qed.

Lemma append_nil (b : string) : "" +:+ b = b.
Proof. reflexivity. Qed.

Lemma append_nil_r (a : string) : a +:+ "" = a.
Proof.
  induction a as [|x a IH]; [reflexivity|].
  rewrite append_cons. f_equal. exact IH.
Qed.

Lemma str_snoc (l : list ascii) (c : ascii) :
  Js.str (l ++ [c]) = Js.str l +:+ String c "".
Proof.
  unfold Js.str. induction l as [|x l IH]; cbn; rewrite ?append_cons, ?append_nil; cbn; [reflexivity | f_equal; exact IH].
Qed.

Lemma str_app (l m : list ascii) : Js.str (l ++ m) = Js.str l +:+ Js.str m.
Proof.
  unfold Js.str. induction l as [|x l IH]; cbn; rewrite ?append_cons, ?append_nil; cbn; [reflexivity | f_equal; exact IH].
Qed.

Lemma chars_app (a b : string) : Js.chars (a +:+ b) = Js.chars a ++ Js.chars b.
Proof.
  unfold Js.chars. induction a as [|x a IH]; cbn; rewrite ?append_cons, ?append_nil; cbn; [reflexivity | f_equal; exact IH].
Qed.

Lemma append_snoc (a : string) (c : ascii) (b : string) :
  (a +:+ String c "") +:+ b = a +:+ String c b.
Proof. induction a as [|x a IH]; cbn; rewrite ?append_cons, ?append_nil; cbn; [reflexivity | f_equal; exact IH]. Qed.

Lemma isBracket_false (c : ascii) :
  isBracket c = false → Js.isChar "[" c = false ∧ Js.isChar "]" c = false.
Proof. unfold isBracket. by intros ?%orb_false_iff. Qed.

Lemma pushTrimmed_filter (parts : list string) (current : string) :
  pushTrimmed parts current
  = parts ++ List.filter Js.nonEmpty [Js.trim current].
Proof.
  unfold pushTrimmed. rewrite nonEmpty_length. cbn [List.filter].
  destruct (Js.nonEmpty (Js.trim current)); [reflexivity|].
  by rewrite app_nil_r.
Qed.

Lemma tokenizeGo_trimmed (cs : list ascii) :
  ∀ parts current depth,
    Forall (fun t => Js.trim t = t ∧ t ≠ "") parts →
    Forall (fun t => Js.trim t = t ∧ t ≠ "")
      (tokenizeGo cs parts current depth).
Proof.
  assert (∀ parts current,
            Forall (fun t => Js.trim t = t ∧ t ≠ "") parts →
            Forall (fun t => Js.trim t = t ∧ t ≠ "")
              (pushTrimmed parts current)) as Hpush.
  { intros parts current H. unfold pushTrimmed. rewrite nonEmpty_length.
    destruct (Js.nonEmpty (Js.trim current)) eqn:E; [|done].
    apply Forall_app. split; [done|]. constructor; [|constructor].
    split; [apply trim_idem | by apply nonEmpty_true]. }
  induction cs as [|c cs IH]; intros parts current depth H;
    cbn [tokenizeGo]; [by apply Hpush|].
  repeat match goal with
  | |- context [if ?b then _ else _] => destruct b
  end; apply IH; auto.
Qed.

Lemma tokenizeGo_no_bracket (cs : list ascii) :
  ∀ cur parts,
    Forall (fun c => isBracket c = false) cs →
    tokenizeGo cs parts (Js.str (rev cur)) 0
    = parts ++ List.filter Js.nonEmpty
                 (map Js.trim (Js.splitGo "." cur cs)).
Proof.
  induction cs as [|c cs IH]; intros cur parts Hcs;
    cbn [tokenizeGo Js.splitGo map].
  { apply pushTrimmed_filter. }
  apply Forall_cons in Hcs as [Hc Hcs].
  apply isBracket_false in Hc as [-> ->].
  unfold isDot. destruct (Js.isChar "." c); cbn [andb Nat.eqb].
  - change "" with (Js.str (rev [])). rewrite IH by done.
    rewrite pushTrimmed_filter. cbn [map List.filter].
    destruct (Js.nonEmpty (Js.trim (Js.str (rev cur))));
      by rewrite <- app_assoc.
  - rewrite <- str_snoc. by apply (IH (c :: cur)).
Qed.

Lemma tokenizeGo_inside (cs : list ascii) :
  ∀ current parts depth rest,
    Forall (fun c => isBracket c = false) cs →
    tokenizeGo (cs ++ rest) parts current (S depth)
    = tokenizeGo rest parts (current +:+ Js.str cs) (S depth).
Proof.
  induction cs as [|c cs IH]; intros current parts depth rest Hcs.
  { cbn [app]. change (Js.str []) with EmptyString. by rewrite append_nil_r. }
  apply Forall_cons in Hcs as [Hc Hcs].
  apply isBracket_false in Hc as [H1 H2].
  cbn [app tokenizeGo]. rewrite H1, H2.
  cbn [Nat.eqb]. rewrite andb_false_r, IH by done.
  by rewrite append_snoc.
Qed.

Lemma dropEnd_snoc_keep {A} (p : A → bool) (l : list A) (x : A) :
  p x = false → Js.dropEnd p (l ++ [x]) = l ++ [x].
Proof.
  intros H. unfold Js.dropEnd. rewrite rev_app_distr.
  cbn [rev app Js.dropWhile]. rewrite H. cbn [rev].
  by rewrite rev_involutive.
Qed.

Lemma trim_bracketed (inner : list ascii) :
  Js.trim (Js.str ("["%char :: inner ++ ["]"%char]))
  = Js.str ("["%char :: inner ++ ["]"%char]).
Proof.
  unfold Js.trim. rewrite chars_str. f_equal.
  assert (Js.dropWhile Js.isSpace ("["%char :: inner ++ ["]"%char])
          = ("["%char :: inner) ++ ["]"%char]) as -> by reflexivity.
  by rewrite dropEnd_snoc_keep.
Qed.

Lemma tokenizeGo_bracketed (inner : list ascii) :
  Forall (fun c => isBracket c = false) inner →
  tokenizeGo ("["%char :: inner ++ ["]"%char]) [] "" 0
  = [Js.str ("["%char :: inner ++ ["]"%char])].
Proof.
  intros H.
  assert (tokenizeGo ("["%char :: inner ++ ["]"%char]) [] "" 0
          = tokenizeGo (inner ++ ["]"%char]) [] "[" 1) as -> by reflexivity.
  rewrite tokenizeGo_inside by done.
  assert (∀ cur, tokenizeGo ["]"%char] [] cur 1
                 = pushTrimmed [] (cur +:+ "]")) as -> by reflexivity.
  assert (("[" +:+ Js.str inner) +:+ "]"
          = Js.str ("["%char :: inner ++ ["]"%char])) as ->.
  { rewrite append_cons, append_nil, append_cons.
    change (Js.str ("["%char :: inner ++ ["]"%char]))
      with (String "[" (Js.str (inner ++ ["]"%char]))).
    by rewrite str_app. }
  unfold pushTrimmed. rewrite trim_bracketed. reflexivity.
Qed.

(** X15.  Every token of [tokenizeQualifiedIdentifier] is trimmed and not
    empty.  When the identifier has no bracket its tokens are its
    segments between the dots, trimmed, the blank ones left out.  A name
    between brackets is one token, whatever dots it contains. *)
Theorem tokens_of_an_identifier (identifier : string) :
  Forall (fun t => Js.trim t = t ∧ t ≠ "")
    (tokenizeQualifiedIdentifier identifier)
  ∧ (hasNoBracket identifier →
     tokenizeQualifiedIdentifier identifier
     = List.filter Js.nonEmpty (map Js.trim (Js.split "." identifier)))
  ∧ (hasNoBracket identifier →
     tokenizeQualifiedIdentifier (String "[" (identifier +:+ "]"))
     = [String "[" (identifier +:+ "]")]).
Proof.
  unfold tokenizeQualifiedIdentifier. split_and!.
  - apply tokenizeGo_trimmed. constructor.
  - intros H. by apply (tokenizeGo_no_bracket _ [] []).
  - intros H.
    assert (Js.chars (String "[" (identifier +:+ "]"))
            = "["%char :: Js.chars identifier ++ ["]"%char]) as Hc.
    { change (Js.chars (String "[" (identifier +:+ "]")))
        with ("["%char :: Js.chars (identifier +:+ "]")).
      by rewrite chars_app. }
    rewrite Hc, tokenizeGo_bracketed by done.
    by rewrite <- Hc, str_chars.
Qed.

Lemma tokens_of_an_identifier_witness :
  hasNoBracket "Order.Details"
  ∧ tokenizeQualifiedIdentifier "[Order.Details]" = ["[Order.Details]"].
Proof.
  assert (hasNoBracket "Order.Details") as H.
  { unfold hasNoBracket. repeat constructor. }
  split; [exact H|].
  exact (proj2 (proj2 (tokens_of_an_identifier "Order.Details")) H).
Defined.

End Tokenizer.

(** ** The key of a connection *)

Section ConnectionKey.
Import MssqlApi KeyProps.

Lemma keyPart_blank (part : option string) :
  match part with
  | Some p => if (0 <? Js.length (Js.trim p))%nat then Some p else None
  | None => None
  end = if blank part then None else part.
Proof.
  destruct part as [p|]; [|reflexivity]. cbn [blank].
  by destruct (0 <? _)%nat.
Qed.

(** X16.  A connection has no key exactly when each of its four fields
    is absent or blank.  When the four fields are filled the key is
    these fields, as they are, joined by bars.  The key does not tell
    which field a value comes from: a connection that has a server only
    and one that has a database only share the key when the two values
    are the same. *)
Theorem connection_key_fields (c : MssqlConnection) :
  (getConnectionKey (Some c) = None
   ↔ blank (conn_connectionId c) && blank (conn_server c)
     && blank (conn_database c) && blank (conn_user c) = true)
  ∧ (∀ id server database user,
        c = mkConnection (Some id) (Some server) (Some database) (Some user) →
        blank (Some id) || blank (Some server) || blank (Some database)
        || blank (Some user) = false →
        getConnectionKey (Some c)
        = Some (id +:+ "|" +:+ server +:+ "|" +:+ database +:+ "|" +:+ user))
  ∧ (∀ v, blank (Some v) = false →
          getConnectionKey (Some (onlyServer v)) = Some v
          ∧ getConnectionKey (Some (onlyDatabase v)) = Some v).
Proof.
  split_and!.
  - unfold getConnectionKey. cbn [omap list_omap].
    rewrite !keyPart_blank.
    destruct c as [[i|] [s|] [d|] [u|]];
      cbn [conn_connectionId conn_server conn_database conn_user];
      repeat match goal with
      | |- context [blank (Some ?x)] => destruct (blank (Some x))
      end; cbn; split; congruence.
  - intros id server database user -> H.
    apply orb_false_iff in H as [H Hu].
    apply orb_false_iff in H as [H Hd].
    apply orb_false_iff in H as [Hi Hs].
    unfold getConnectionKey.
    cbn [blank] in Hi, Hs, Hd, Hu.
    apply negb_false_iff in Hi, Hs, Hd, Hu.
    cbn [omap list_omap conn_connectionId conn_server conn_database conn_user].
    rewrite Hi, Hs, Hd, Hu. reflexivity.
  - intros v Hv. unfold getConnectionKey, onlyServer, onlyDatabase.
    cbn [blank] in Hv. apply negb_false_iff in Hv.
    cbn [omap list_omap conn_connectionId conn_server conn_database conn_user].
    rewrite Hv. by split.
Qed.

Lemma connection_key_fields_witness :
  getConnectionKey Samples.salesConnection
  = Some ("c1" +:+ "|" +:+ "srv" +:+ "|" +:+ "Sales" +:+ "|" +:+ "sa")
  ∧ getConnectionKey (Some (onlyServer "Sales"))
    = getConnectionKey (Some (onlyDatabase "Sales")).
Proof.
  destruct (connection_key_fields
              (mkConnection (Some "c1") (Some "srv") (Some "Sales")
                 (Some "sa"))) as (_ & H4 & H1).
  split.
  - apply (H4 "c1" "srv" "Sales" "sa"); reflexivity.
  - destruct (H1 "Sales" eq_refl) as [-> ->]. reflexivity.
Defined.

End ConnectionKey.

(** ** Normalized results *)

Section NormalizedResults.
Import MssqlApi ResultNormalizer.

Lemma length_append (a b : string) :
  String.length (a +:+ b) = (String.length a + String.length b)%nat.
Proof.
  induction a as [|x a IH]; [reflexivity|].
  rewrite append_cons. cbn [String.length]. by rewrite IH.
Qed.

Lemma candidate_inj (baseName : string) (i j : nat) :
  candidate baseName i = candidate baseName j → i = j.
Proof.
  destruct i as [|i], j as [|j]; cbn [candidate]; intros H.
  - reflexivity.
  - apply (f_equal String.length) in H. rewrite !length_append in H.
    cbn [String.length] in H. lia.
  - apply (f_equal String.length) in H. rewrite !length_append in H.
    cbn [String.length] in H. lia.
  - apply String.app_inj in H. injection H as H.
    by apply pretty_nat_inj in H.
Qed.

(** With too few columns to hold every name that was tried, the loop
    stops at a name that is not a column. *)
Lemma uniqueName_tries (columns : list string) (baseName : string) :
  ∀ fuel turn,
    (∀ i, (i < turn)%nat → candidate baseName i ∈ columns) →
    uniqueName fuel columns baseName (candidate baseName turn) (S turn)
      ∉ columns
    ∨ (∀ i, (i < turn + fuel)%nat → candidate baseName i ∈ columns).
Proof.
  induction fuel as [|fuel IH]; intros turn Hseen.
  { right. intros i Hi. apply Hseen. lia. }
  cbn [uniqueName]. case_bool_decide as Hin; [|by left].
  destruct (IH (S turn)) as [Hfresh | Hall].
  - intros i Hi. destruct (decide (i = turn)) as [->|]; [done|].
    apply Hseen. lia.
  - left. exact Hfresh.
  - right. intros i Hi. apply Hall. lia.
Qed.

Lemma uniqueName_fresh (columns : list string) (baseName : string) :
  uniqueName (S (Datatypes.length columns)) columns baseName baseName 1
    ∉ columns.
Proof.
  destruct (uniqueName_tries columns baseName (S (Datatypes.length columns)) 0)
    as [H | Hall]; [intros i Hi; lia | exact H |].
  exfalso.
  set (tried := map (candidate baseName)
                  (seq 0 (S (Datatypes.length columns)))).
  assert (NoDup tried) as Hnd.
  { apply NoDup_fmap_2; [|apply NoDup_seq].
    intros i j. apply candidate_inj. }
  assert (tried ⊆+ columns) as Hsub.
  { apply NoDup_submseteq; [done|]. intros x Hx.
    apply list_elem_of_fmap in Hx as (i & -> & Hi).
    apply elem_of_seq in Hi. apply Hall. lia. }
  apply submseteq_length in Hsub. unfold tried in Hsub.
  rewrite length_map, length_seq in Hsub. lia.
Qed.

Lemma pushColumns_spec (columnInfo : list (option SimpleColumnInfo)) :
  ∀ index columns,
    NoDup columns →
    NoDup (pushColumns columnInfo index columns)
    ∧ Datatypes.length (pushColumns columnInfo index columns)
      = (Datatypes.length columns + Datatypes.length columnInfo)%nat.
Proof.
  induction columnInfo as [|info rest IH]; intros index columns Hnd;
    cbn [pushColumns Datatypes.length].
  { split; [done | lia]. }
  destruct (IH (S index)
              (columns ++
               [uniqueName (S (Datatypes.length columns)) columns
                  (getColumnName info index) (getColumnName info index) 1]))
    as [H1 H2].
  { apply NoDup_app. split_and!; [done | | apply NoDup_singleton].
    intros x Hx Hx'. apply list_elem_of_singleton in Hx'. subst x.
    by apply uniqueName_fresh in Hx. }
  split; [exact H1|]. rewrite H2, length_app. cbn. lia.
Qed.

Lemma defaultName_inj (i j : nat) : defaultName i = defaultName j → i = j.
Proof.
  unfold defaultName. intros H. apply String.app_inj in H.
  apply pretty_nat_inj in H. lia.
Qed.

Lemma fallbackColumns_NoDup (rows : option (list Row)) :
  NoDup (fallbackColumns rows).
Proof.
  unfold fallbackColumns.
  destruct rows as [[|[first|] ?]|]; try apply NoDup_nil_2.
  apply NoDup_fmap_2; [|apply NoDup_seq].
  intros i j. apply defaultName_inj.
Qed.

(** Writing the cells one column after the other.  A name other than
    [__proto__] holds what was written under it last. *)
Lemma assign_other (record : RowObject) (columnName name : string)
  (value : Js.Value) :
  name ≠ "__proto__" →
  ro_own (assign record columnName value) !! name
  = if bool_decide (columnName = name) then Some value
    else ro_own record !! name.
Proof.
  intros Hname. unfold assign.
  destruct (String.eqb_spec columnName "__proto__") as [->|Hc].
  - rewrite bool_decide_eq_false_2 by done.
    destruct (ro_prototype record); cbn [ro_own]; try reflexivity.
    by rewrite lookup_insert_ne.
  - cbn [ro_own]. case_bool_decide as E.
    + subst. apply lookup_insert_eq.
    + by apply lookup_insert_ne.
Qed.

Lemma assign_named (record : RowObject) (columnName : string)
  (value : Js.Value) :
  columnName ≠ "__proto__" →
  ro_own (assign record columnName value) !! "__proto__"
  = ro_own record !! "__proto__"
  ∧ ro_prototype (assign record columnName value) = ro_prototype record.
Proof.
  intros Hc. unfold assign.
  destruct (String.eqb_spec columnName "__proto__") as [E|_]; [done|].
  cbn [ro_own ro_prototype]. split; [|reflexivity].
  by apply lookup_insert_ne.
Qed.

Lemma writeCells_lookup (row : Row) (pairs : list (nat * string)) :
  ∀ (record : RowObject) name,
    name ≠ "__proto__" →
    ro_own
      (fold_left
         (fun (record : RowObject) '(index, columnName) =>
            assign record columnName (cellValue (cellAt row index)))
         pairs record) !! name
    = match last (List.filter (fun p => bool_decide (snd p = name)) pairs) with
      | Some (index, _) => Some (cellValue (cellAt row index))
      | None => ro_own record !! name
      end.
Proof.
  induction pairs as [|[i c] pairs IH]; intros record name Hname;
    [reflexivity|].
  cbn [fold_left List.filter snd]. rewrite IH by exact Hname.
  rewrite (assign_other _ _ _ _ Hname).
  case_bool_decide as Hc.
  - subst c.
    destruct (List.filter _ pairs) as [|p ps] eqn:E.
    + reflexivity.
    + change (last ((i, name) :: p :: ps)) with (last (p :: ps)).
      destruct (last (p :: ps)) as [[? ?]|] eqn:El; [reflexivity|].
      by apply last_None in El.
  - destruct (last _) as [[? ?]|]; reflexivity.
Qed.

(** Columns with other names leave the prototype alone and create no
    property named [__proto__]. *)
Lemma writeCells_named (row : Row) (pairs : list (nat * string)) :
  ∀ (record : RowObject),
    "__proto__" ∉ map snd pairs →
    let written :=
      fold_left
        (fun (record : RowObject) '(index, columnName) =>
           assign record columnName (cellValue (cellAt row index)))
        pairs record in
    ro_own written !! "__proto__" = ro_own record !! "__proto__"
    ∧ ro_prototype written = ro_prototype record.
Proof.
  induction pairs as [|[i c] pairs IH]; intros record Hout; [done|].
  cbn [map snd] in Hout. apply not_elem_of_cons in Hout as [Hc Hout].
  cbn [fold_left]. destruct (IH (assign record c (cellValue (cellAt row i)))
                               Hout) as [-> ->].
  apply assign_named. congruence.
Qed.

(** The one column named [__proto__], if there is one, sets the
    prototype. *)
Lemma writeCells_proto (row : Row) (pairs : list (nat * string)) :
  ∀ (record : RowObject),
    NoDup (map snd pairs) →
    ro_prototype record = ObjectPrototype →
    ro_own record !! "__proto__" = None →
    let written :=
      fold_left
        (fun (record : RowObject) '(index, columnName) =>
           assign record columnName (cellValue (cellAt row index)))
        pairs record in
    ro_own written !! "__proto__" = None
    ∧ ("__proto__" ∉ map snd pairs → ro_prototype written = ObjectPrototype)
    ∧ (∀ index, (index, "__proto__") ∈ pairs →
                ro_prototype written
                = protoSetter ObjectPrototype (cellValue (cellAt row index))).
Proof.
  induction pairs as [|[i c] pairs IH]; intros record Hnd Hp Hown.
  { cbn. split; [exact Hown|]. split; [done|].
    intros index Hin. by apply elem_of_nil in Hin. }
  cbn [map snd] in Hnd. apply NoDup_cons in Hnd as [Hc Hnd].
  cbn [fold_left]. destruct (decide (c = "__proto__")) as [->|Hne].
  - destruct (writeCells_named row pairs
                (assign record "__proto__" (cellValue (cellAt row i))) Hc)
      as [Ho Hq].
    cbv zeta. rewrite Ho, Hq. unfold assign. cbn [String.eqb Ascii.eqb Bool.eqb].
    rewrite Hp. cbn [ro_own ro_prototype].
    split; [exact Hown|]. split.
    + intros Hout. exfalso. apply Hout. cbn [map snd]. left.
    + intros index Hin. apply elem_of_cons in Hin as [[= ->]|Hin];
        [reflexivity|].
      exfalso. apply Hc. apply list_elem_of_fmap. by exists (index, "__proto__").
  - destruct (assign_named record c (cellValue (cellAt row i)) Hne)
      as [Ho Hq].
    destruct (IH (assign record c (cellValue (cellAt row i))) Hnd)
      as (H1 & H2 & H3); [congruence | congruence |].
    split; [exact H1|]. split.
    + intros Hout. apply H2. cbn [map snd] in Hout.
      by apply not_elem_of_cons in Hout as [_ ?].
    + intros index Hin. apply elem_of_cons in Hin as [[= _ E]|Hin];
        [done|]. by apply H3.
Qed.

Lemma filter_by_name_absent (columns : list string) :
  ∀ (f : nat → nat) name,
    name ∉ columns →
    List.filter (fun p : nat * string => bool_decide (snd p = name))
      (imap (fun index columnName => (f index, columnName)) columns)
    = [].
Proof.
  induction columns as [|c columns IH]; intros f name Hc; [reflexivity|].
  apply not_elem_of_cons in Hc as [Hne Hc].
  rewrite imap_cons. cbn [List.filter snd].
  rewrite bool_decide_eq_false_2 by done.
  exact (IH (fun x => f (S x)) name Hc).
Qed.

Lemma filter_by_name_NoDup (columns : list string) :
  ∀ (f : nat → nat) i name,
    NoDup columns → columns !! i = Some name →
    List.filter (fun p : nat * string => bool_decide (snd p = name))
      (imap (fun index columnName => (f index, columnName)) columns)
    = [(f i, name)].
Proof.
  induction columns as [|c columns IH]; intros f i name Hnd Hi; [done|].
  apply NoDup_cons in Hnd as [Hc Hnd].
  rewrite imap_cons. cbn [List.filter snd].
  destruct i as [|i]; cbn in Hi.
  - injection Hi as ->. rewrite bool_decide_eq_true_2 by done.
    f_equal. exact (filter_by_name_absent columns (fun x => f (S x)) name Hc).
  - rewrite bool_decide_eq_false_2.
    2: { intros ->. apply Hc. by eapply list_elem_of_lookup_2. }
    exact (IH (fun x => f (S x)) i name Hnd Hi).
Qed.

Lemma filter_by_name_present (columns : list string) :
  ∀ (f : nat → nat) name,
    name ∈ columns →
    List.filter (fun p : nat * string => bool_decide (snd p = name))
      (imap (fun index columnName => (f index, columnName)) columns)
    ≠ [].
Proof.
  induction columns as [|c columns IH]; intros f name Hc.
  { by apply elem_of_nil in Hc. }
  rewrite imap_cons. cbn [List.filter snd].
  case_bool_decide as Hcn; [done|].
  apply elem_of_cons in Hc as [->|Hc]; [done|].
  exact (IH (fun x => f (S x)) name Hc).
Qed.

Lemma numbered_names (columns : list string) :
  map snd (imap (fun index columnName => (index, columnName)) columns)
  = columns.
Proof.
  assert (∀ f : nat → nat,
             map snd (imap (fun index columnName => (f index, columnName))
                        columns) = columns) as H.
  { induction columns as [|c columns IH]; intros f; [reflexivity|].
    rewrite imap_cons. cbn [map snd]. f_equal.
    exact (IH (fun x => f (S x))). }
  exact (H (fun x => x)).
Qed.

Lemma convertRow_reads_by_position (columns : list string) (row : Row)
  (i : nat) (name : string) :
  NoDup columns → columns !! i = Some name → name ≠ "__proto__" →
  ro_own (convertRow columns row) !! name = Some (cellValue (cellAt row i)).
Proof.
  intros Hnd Hi Hname. unfold convertRow.
  rewrite writeCells_lookup by exact Hname.
  rewrite (filter_by_name_NoDup columns (fun x => x) i name Hnd Hi).
  reflexivity.
Qed.

Lemma convertRow_keys (columns : list string) (row : Row) (name : string) :
  NoDup columns →
  is_Some (ro_own (convertRow columns row) !! name)
  ↔ name ∈ columns ∧ name ≠ "__proto__".
Proof.
  intros Hnd. destruct (decide (name = "__proto__")) as [->|Hname].
  - unfold convertRow.
    destruct (writeCells_proto row
                (imap (fun index columnName => (index, columnName)) columns)
                (mkRowObject ∅ ObjectPrototype)) as (-> & _);
      [by rewrite numbered_names | reflexivity | apply lookup_empty |].
    split; [by intros [? ?] | by intros [_ ?]].
  - unfold convertRow. rewrite writeCells_lookup by exact Hname.
    destruct (decide (name ∈ columns)) as [Hin | Hout].
    + pose proof (filter_by_name_present columns (fun x => x) name Hin)
        as Hne.
      destruct (last _) as [[? ?]|] eqn:El.
      * split; [done | by eexists].
      * by apply last_None in El.
    + rewrite (filter_by_name_absent columns (fun x => x) name Hout).
      cbn. rewrite lookup_empty. split; [by intros [? ?] | by intros [? _]].
Qed.

Lemma convertRow_prototype (columns : list string) (row : Row) :
  NoDup columns →
  ("__proto__" ∉ columns
   → ro_prototype (convertRow columns row) = ObjectPrototype)
  ∧ (∀ i, columns !! i = Some "__proto__" →
          ro_prototype (convertRow columns row)
          = protoSetter ObjectPrototype (cellValue (cellAt row i))).
Proof.
  intros Hnd. unfold convertRow.
  destruct (writeCells_proto row
              (imap (fun index columnName => (index, columnName)) columns)
              (mkRowObject ∅ ObjectPrototype)) as (_ & H2 & H3);
    [by rewrite numbered_names | reflexivity | apply lookup_empty |].
  split.
  - intros Hout. apply H2. by rewrite numbered_names.
  - intros i Hi. apply H3.
    exact (elem_of_lookup_imap_2
             (fun index columnName => (index, columnName)) columns
             "__proto__" i Hi).
Qed.

(** X17.  A result of the connection sharing service is always
    normalized, and the names of its columns are pairwise different: a
    name that comes again is given a numbered suffix.  When columns are
    described there are as many names as descriptions, and there is one
    normalized row for each row of the result.  Each normalized row has
    as properties of its own exactly the columns not named [__proto__],
    and holds under the name of the i-th column the value of the i-th
    cell of the row it comes from.  A column named [__proto__] never
    becomes a property: its cell goes to the prototype setter of the
    plain object, which replaces the prototype of the row when the value
    is an object, removes it when the value is null and ignores any other
    value; without such a column the row keeps the prototype of a plain
    object. *)
Theorem normalized_result_reads_by_position (result : SimpleExecuteResult) :
  ∃ normalized,
    normalizeSimpleExecuteResult (Some result) = Some normalized
    ∧ NoDup (nr_columns normalized)
    ∧ (∀ columnInfo, se_columnInfo result = Some columnInfo →
                     columnInfo ≠ [] →
                     Datatypes.length (nr_columns normalized)
                     = Datatypes.length columnInfo)
    ∧ Datatypes.length (nr_rows normalized)
      = Datatypes.length (default [] (se_rows result))
    ∧ (∀ r row, default [] (se_rows result) !! r = Some row →
         ∃ record,
           nr_rows normalized !! r = Some record
           ∧ (∀ name, is_Some (ro_own record !! name)
                      ↔ name ∈ nr_columns normalized ∧ name ≠ "__proto__")
           ∧ (∀ i name, nr_columns normalized !! i = Some name →
                        name ≠ "__proto__" →
                        ro_own record !! name
                        = Some (cellValue (cellAt row i)))
           ∧ ("__proto__" ∉ nr_columns normalized →
              ro_prototype record = ObjectPrototype)
           ∧ (∀ i, nr_columns normalized !! i = Some "__proto__" →
                   ro_prototype record
                   = match cellValue (cellAt row i) with
                     | Js.Object => ValuePrototype
                     | Js.Null => NullPrototype
                     | _ => ObjectPrototype
                     end)).
Proof.
  unfold normalizeSimpleExecuteResult.
  set (columnInfo := default [] (se_columnInfo result)).
  destruct (pushColumns_spec columnInfo 0 [] (NoDup_nil_2)) as [Hnd Hlen].
  set (columns := match pushColumns columnInfo 0 [] with
                  | [] => fallbackColumns (se_rows result)
                  | _ :: _ => pushColumns columnInfo 0 []
                  end).
  assert (NoDup columns) as Hcols.
  { unfold columns. destruct (pushColumns columnInfo 0 []);
      [apply fallbackColumns_NoDup | exact Hnd]. }
  eexists. split; [reflexivity|]. cbn [nr_columns nr_rows].
  split_and!.
  - exact Hcols.
  - intros infos Hinfos Hne. unfold columns.
    assert (columnInfo = infos) as Hci.
    { unfold columnInfo. by rewrite Hinfos. }
    rewrite Hci in *. cbn in Hlen.
    destruct (pushColumns infos 0 []) as [|c cs]; [|exact Hlen].
    destruct infos; [done | discriminate].
  - by rewrite length_map.
  - intros r row Hr. exists (convertRow columns row).
    destruct (convertRow_prototype columns row Hcols) as [Hplain Hset].
    split_and!.
    + by rewrite list_lookup_fmap, Hr.
    + intros name. by apply convertRow_keys.
    + intros i name Hi Hname. by apply convertRow_reads_by_position.
    + exact Hplain.
    + intros i Hi. rewrite (Hset i Hi). reflexivity.
Qed.

Lemma normalized_result_reads_by_position_witness :
  ∃ normalized record,
    normalizeSimpleExecuteResult (Some protoResult) = Some normalized
    ∧ nr_columns normalized = ["__proto__"; "n"]
    ∧ nr_rows normalized !! 1%nat = Some record
    ∧ ro_own record !! "n" = Some (Js.Str "8")
    ∧ ro_own record !! "__proto__" = None
    ∧ ro_prototype record = NullPrototype.
Proof.
  destruct (normalized_result_reads_by_position protoResult)
    as (normalized & Hn & _ & _ & _ & Hrows).
  assert (nr_columns normalized = ["__proto__"; "n"]) as Hc.
  { injection Hn as <-. vm_compute. reflexivity. }
  destruct (Hrows 1%nat
              (Some [Some (mkCell Js.Undefined Js.Undefined true Js.Undefined);
                     Some (mkCell (Js.Str "8") Js.Undefined false
                             Js.Undefined)])
              eq_refl) as (record & Hr & Hkeys & Hread & _ & Hproto).
  exists normalized, record. split; [exact Hn|]. split; [exact Hc|].
  split; [exact Hr|]. split_and!.
  - apply (Hread 1%nat "n"); [by rewrite Hc | discriminate].
  - destruct (ro_own record !! "__proto__") eqn:E; [|reflexivity].
    exfalso. assert (is_Some (ro_own record !! "__proto__")) as Hs.
    { rewrite E. by eexists. }
    by apply Hkeys in Hs as [_ ?].
  - apply (Hproto 0%nat). by rewrite Hc.
Defined.

End NormalizedResults.

(** ** The INSERT generator *)

Section InsertSnippets.
Import MssqlApi SchemaCache Spec InsertGenerator TextProps.

Lemma starFrom_all (p : ascii → bool) (cs : list ascii) :
  ∀ acc,
    Re.starFrom p (fun _ => Re.eos tt) acc cs
    = if forallb p cs then Some tt else None.
Proof.
  induction cs as [|c cs IH]; intros acc; [reflexivity|].
  cbn [Re.starFrom forallb]. destruct (p c); [|reflexivity].
  rewrite IH. cbn [andb]. by destruct (forallb p cs).
Qed.

Lemma identifierRegex_chars (identifier : string) :
  identifierRegex identifier
  = match Js.chars identifier with
    | c :: rest => SqlParser.isWordStart c && forallb Js.isWord rest
    | [] => false
    end.
Proof.
  unfold identifierRegex, Re.one, Re.star.
  destruct (Js.chars identifier) as [|c rest]; [reflexivity|].
  destruct (SqlParser.isWordStart c); [|reflexivity].
  rewrite starFrom_all. by destruct (forallb Js.isWord rest).
Qed.

Lemma comma_no_placeholder (index total : nat) :
  placeholdersOf (comma index total) = [] ∧ defaultsOf (comma index total) = 0%nat.
Proof. unfold comma. by destruct (index <? total - 1)%nat. Qed.

Lemma placeholdersOf_app (a b : list SnippetPart) :
  placeholdersOf (a ++ b) = placeholdersOf a ++ placeholdersOf b.
Proof. apply omap_app. Qed.

Lemma defaultsOf_app (a b : list SnippetPart) :
  defaultsOf (a ++ b) = (defaultsOf a + defaultsOf b)%nat.
Proof. unfold defaultsOf. by rewrite List.filter_app, length_app. Qed.

Lemma concat_no_placeholder (ls : list (list SnippetPart)) :
  Forall (fun l => placeholdersOf l = [] ∧ defaultsOf l = 0%nat) ls →
  placeholdersOf (concat ls) = [] ∧ defaultsOf (concat ls) = 0%nat.
Proof.
  induction 1 as [|l ls [H1 H2] _ [IH1 IH2]]; [done|].
  cbn [concat]. by rewrite placeholdersOf_app, defaultsOf_app, H1, H2, IH1, IH2.
Qed.

Lemma text_is_not_DEFAULT (rest : string) :
  defaultsOf [Text (Queries.newline +:+ rest)] = 0%nat.
Proof.
  unfold defaultsOf. cbn [List.filter].
  rewrite bool_decide_eq_false_2; [reflexivity|].
  unfold Queries.newline. rewrite append_cons, append_nil. discriminate.
Qed.

Lemma nameParts_no_placeholder (columns : list ColumnMetadata) :
  placeholdersOf (nameParts columns) = []
  ∧ defaultsOf (nameParts columns) = 0%nat.
Proof.
  unfold nameParts. apply concat_no_placeholder, Forall_forall.
  intros l Hl. apply elem_of_lookup_imap_1 in Hl as (i & c & -> & _).
  destruct (comma_no_placeholder i (Datatypes.length columns)) as [H1 H2].
  split.
  - change (placeholdersOf (Text ?a :: ?l)) with (placeholdersOf l).
    exact H1.
  - change (defaultsOf (Text ?a :: ?l))
      with (defaultsOf ([Text a] ++ l)).
    by rewrite defaultsOf_app, H2, text_is_not_DEFAULT.
Qed.

Lemma valueParts_placeholders (total : nat) (columns : list ColumnMetadata) :
  ∀ index placeholderIndex,
    placeholdersOf (valueParts total index placeholderIndex columns)
    = imap (fun i column => ("@" +:+ cm_name column, (placeholderIndex + i)%nat))
        (List.filter (fun column => negb (hasDefault column)) columns)
    ∧ defaultsOf (valueParts total index placeholderIndex columns)
      = Datatypes.length (List.filter hasDefault columns).
Proof.
  induction columns as [|c columns IH]; intros index placeholderIndex;
    [done|].
  cbn [valueParts List.filter].
  destruct (comma_no_placeholder index total) as [H1 H2].
  change (from_option Js.nonEmpty false (cm_defaultExpression c))
    with (hasDefault c).
  destruct (hasDefault c); cbn [negb].
  - destruct (IH (S index) placeholderIndex) as [IH1 IH2]. split.
    + change (placeholdersOf (Text ?a :: Text ?b :: ?l))
        with (placeholdersOf l).
      by rewrite placeholdersOf_app, H1, IH1.
    + change (defaultsOf (Text ?a :: Text "DEFAULT" :: ?l))
        with (defaultsOf ([Text a] ++ [Text "DEFAULT"] ++ l)).
      rewrite !defaultsOf_app, H2, IH2, text_is_not_DEFAULT.
      reflexivity.
  - destruct (IH (S index) (S placeholderIndex)) as [IH1 IH2]. split.
    + change (placeholdersOf (Text ?a :: Placeholder ?v ?n :: ?l))
        with ((v, n) :: placeholdersOf l).
      rewrite placeholdersOf_app, H1, IH1, imap_cons. cbn [app].
      rewrite Nat.add_0_r. f_equal. apply imap_ext. intros i x _.
      unfold compose. f_equal. lia.
    + change (defaultsOf (Text ?a :: Placeholder ?v ?n :: ?l))
        with (defaultsOf ([Text a] ++ [Placeholder v n] ++ l)).
      rewrite !defaultsOf_app, H2, IH2, text_is_not_DEFAULT.
      reflexivity.
Qed.

(** X18.  The snippet of [buildInsertSnippet] has one placeholder for
    each column without a default expression, in the order of the
    columns, named after the column and numbered 1, 2, 3, ... without a
    gap; each of the other columns gets the text DEFAULT. *)
Theorem insert_snippet_placeholders (columns : list ColumnMetadata) :
  placeholdersOf (buildInsertSnippet columns)
  = imap (fun i column => ("@" +:+ cm_name column, S i))
      (List.filter (fun column => negb (hasDefault column)) columns)
  ∧ defaultsOf (buildInsertSnippet columns)
    = Datatypes.length (List.filter hasDefault columns).
Proof.
  unfold buildInsertSnippet.
  destruct (nameParts_no_placeholder columns) as [N1 N2].
  destruct (valueParts_placeholders (Datatypes.length columns) columns 0 1)
    as [V1 V2].
  split.
  - assert (∀ a, placeholdersOf [Text a] = []) as HT by reflexivity.
    rewrite !placeholdersOf_app, N1, V1, !HT. cbn [app].
    by rewrite app_nil_r.
  - rewrite !defaultsOf_app, N2, V2.
    rewrite !text_is_not_DEFAULT. lia.
Qed.

(** X19.  For the columns that [populateColumns] builds from the
    columns query the filter of the generator keeps every column, and
    every column gets a placeholder: no column is left out as identity,
    computed or rowguid, and none gets DEFAULT. *)
Theorem insert_for_cached_columns
  (api : Loader) (connection : option MssqlConnection)
  (table : TableMetadata) (options : option string) (w : World)
  (result : QueryResult) :
  api (Datatypes.length (issued w))
    (Queries.columnsForObjectQuery (tm_schema table) (tm_name table)
       (queryDatabaseOf connection options)) = Some result →
  Forall fromColumnsQuery (qr_rows result) →
  ∃ columns,
    tm_columns (fst (populateColumns api connection table options w))
    = Some columns
    ∧ insertableColumns columns = columns
    ∧ placeholdersOf (buildInsertSnippet (insertableColumns columns))
      = imap (fun i column => ("@" +:+ cm_name column, S i)) columns
    ∧ defaultsOf (buildInsertSnippet (insertableColumns columns)) = 0%nat.
Proof.
  intros Hq Hrows. rewrite populateColumns_run, Hq. cbn [fst tm_columns].
  exists (map toColumn (qr_rows result)). split; [reflexivity|].
  assert (Forall flagsAbsent (map toColumn (qr_rows result))) as Hflags.
  { apply Forall_map. eapply Forall_impl; [exact Hrows|].
    intros row. apply toColumn_flagsAbsent. }
  set (columns := map toColumn (qr_rows result)) in *.
  assert (insertableColumns columns = columns) as Hall.
  { unfold insertableColumns. clear -Hflags.
    induction Hflags as [|c cs (Hi & Hc & Hr & _) _ IH]; [reflexivity|].
    cbn [List.filter]. rewrite Hi, Hc, Hr. cbn. by rewrite IH. }
  assert (List.filter (fun column => negb (hasDefault column)) columns
          = columns
          ∧ List.filter hasDefault columns = []) as [Hnd Hd].
  { clear -Hflags.
    induction Hflags as [|c cs (_ & _ & _ & Hdef) _ [IH1 IH2]]; [done|].
    cbn [List.filter].
    assert (hasDefault c = false) as -> by (unfold hasDefault; by rewrite Hdef).
    cbn. by rewrite IH1, IH2. }
  rewrite Hall. split; [reflexivity|]. unfold buildInsertSnippet.
  destruct (nameParts_no_placeholder columns) as [N1 N2].
  destruct (valueParts_placeholders (Datatypes.length columns) columns 0 1)
    as [V1 V2].
  split.
  - assert (∀ a, placeholdersOf [Text a] = []) as HT by reflexivity.
    rewrite !placeholdersOf_app, N1, V1, !HT, Hnd. cbn [app].
    by rewrite app_nil_r.
  - rewrite !defaultsOf_app, N2, V2, Hd, !text_is_not_DEFAULT. reflexivity.
Qed.

Lemma insert_for_cached_columns_witness :
  ∃ columns,
    tm_columns
      (fst (populateColumns Samples.salesLoader Samples.salesConnection
              (mkTable "dbo" "Orders" TABLE None None) None
              Samples.freshWorld))
    = Some columns
    ∧ insertableColumns columns = columns
    ∧ placeholdersOf (buildInsertSnippet (insertableColumns columns))
      = imap (fun i column => ("@" +:+ cm_name column, S i)) columns
    ∧ defaultsOf (buildInsertSnippet (insertableColumns columns)) = 0%nat.
Proof.
  apply (insert_for_cached_columns Samples.salesLoader Samples.salesConnection
           (mkTable "dbo" "Orders" TABLE None None) None Samples.freshWorld
           Samples.ordersColumns).
  - vm_compute. reflexivity.
  - unfold Samples.ordersColumns; simpl.
    apply Forall_cons; split; [|apply Forall_cons; split; [|apply Forall_nil]];
      apply (bool_decide_unpack _); vm_compute; exact I.
Defined.

Lemma wrapIdentifier_bracketed (identifier : string) :
  identifierRegex identifier = false →
  Js.chars (wrapIdentifier identifier)
  = "["%char :: Js.chars (Queries.doubleChar "]" identifier) ++ ["]"%char].
Proof.
  intros H. unfold wrapIdentifier. rewrite H.
  rewrite append_cons, append_nil.
  change (Js.chars (String "[" ?s)) with ("["%char :: Js.chars s).
  by rewrite chars_app.
Qed.

Lemma chars_inj (a b : string) : Js.chars a = Js.chars b → a = b.
Proof. intros H. by rewrite <- (str_chars a), <- (str_chars b), H. Qed.

(** X20.  [wrapIdentifier] leaves a name alone exactly when it starts
    with a letter or an underscore and goes on with word characters;
    any other name is put between brackets with each closing bracket
    doubled, so that reading the pairs as one bracket gives the name
    back.  Different names are never wrapped to the same text. *)
Theorem wrapIdentifier_round_trip (identifier : string) :
  (identifierRegex identifier = true →
   wrapIdentifier identifier = identifier
   ∧ ∃ c rest, Js.chars identifier = c :: rest
               ∧ SqlParser.isWordStart c = true
               ∧ Forall (fun c => Js.isWord c = true) rest)
  ∧ (identifierRegex identifier = false →
     ∃ body,
       wrapIdentifier identifier = "[" +:+ body +:+ "]"
       ∧ paired "]" (Js.chars body) = true
       ∧ Js.str (halve "]" (Js.chars body)) = identifier)
  ∧ (∀ other, wrapIdentifier other = wrapIdentifier identifier →
              other = identifier).
Proof.
  split_and!.
  - intros H. split; [unfold wrapIdentifier; by rewrite H|].
    rewrite identifierRegex_chars in H.
    destruct (Js.chars identifier) as [|c rest]; [discriminate|].
    apply andb_true_iff in H as [Hc Hrest].
    exists c, rest. split_and!; [done.. |].
    clear -Hrest. induction rest as [|x rest IH]; [constructor|].
    cbn in Hrest. apply andb_true_iff in Hrest as [Hx Hrest].
    constructor; auto.
  - intros H. exists (Queries.doubleChar "]" identifier).
    split; [unfold wrapIdentifier; by rewrite H|].
    split; [apply doubleChar_paired | apply doubleChar_halve].
  - intros other H.
    destruct (identifierRegex other) eqn:Eo,
      (identifierRegex identifier) eqn:Ei.
    + unfold wrapIdentifier in H. by rewrite Eo, Ei in H.
    + apply (f_equal Js.chars) in H.
      rewrite (wrapIdentifier_bracketed identifier Ei) in H.
      unfold wrapIdentifier in H. rewrite Eo in H.
      rewrite identifierRegex_chars, H in Eo. discriminate.
    + apply (f_equal Js.chars) in H.
      rewrite (wrapIdentifier_bracketed other Eo) in H.
      unfold wrapIdentifier in H. rewrite Ei in H.
      rewrite identifierRegex_chars, <- H in Ei. discriminate.
    + apply (f_equal Js.chars) in H.
      rewrite (wrapIdentifier_bracketed other Eo),
        (wrapIdentifier_bracketed identifier Ei) in H.
      injection H as H. apply app_inj_tail in H as [H _].
      apply chars_inj in H.
      rewrite <- (doubleChar_halve "]" other), H.
      apply doubleChar_halve.
Qed.

Lemma wrapIdentifier_round_trip_witness :
  wrapIdentifier "Order_Id" = "Order_Id"
  ∧ ∃ body, wrapIdentifier "Order]Id" = "[" +:+ body +:+ "]"
            ∧ Js.str (halve "]" (Js.chars body)) = "Order]Id".
Proof.
  split.
  - apply (proj1 (wrapIdentifier_round_trip "Order_Id")). reflexivity.
  - destruct (proj1 (proj2 (wrapIdentifier_round_trip "Order]Id")) eq_refl)
      as (body & H1 & _ & H2).
    by exists body.
Defined.

End InsertSnippets.


(** ** What a match of a regular expression tells *)

Section RegexFacts.
Context {R : Type}.

Lemma orElse_Some (a b : option R) (r : R) :
  Re.orElse a b = Some r → a = Some r ∨ b = Some r.
Proof. destruct a; cbn; auto. Qed.

Lemma alt_inv (r1 r2 : Re.Matcher R) (k : Re.Cont R) (cs : list ascii)
  (r : R) :
  Re.alt r1 r2 k cs = Some r → r1 k cs = Some r ∨ r2 k cs = Some r.
Proof. apply orElse_Some. Qed.

Lemma opt_inv (r1 : Re.Matcher R) (k : Re.Cont R) (cs : list ascii) (r : R) :
  Re.opt r1 k cs = Some r → r1 k cs = Some r ∨ k [] cs = Some r.
Proof. apply orElse_Some. Qed.

Lemma lit_inv (s : string) (k : Re.Cont R) (cs : list ascii) (r : R) :
  Re.lit s k cs = Some r →
  ∃ m rest, cs = m ++ rest
            ∧ map Js.toLowerChar m = map Js.toLowerChar (Js.chars s)
            ∧ k m rest = Some r.
Proof.
  unfold Re.lit, Re.eqIgnoreCase. case_bool_decide as H; [|discriminate].
  intros Hk. eexists _, _. split; [symmetry; apply take_drop|].
  split; [symmetry; exact H | exact Hk].
Qed.

Lemma starFrom_inv (p : ascii → bool) (k : Re.Cont R) (cs : list ascii) :
  ∀ acc r,
    Re.starFrom p k acc cs = Some r →
    ∃ m rest, cs = m ++ rest ∧ Forall (fun c => p c = true) m
              ∧ k (acc ++ m) rest = Some r.
Proof.
  induction cs as [|c cs IH]; intros acc r H; cbn [Re.starFrom] in H.
  { exists [], []. split_and!; [done | constructor | by rewrite app_nil_r]. }
  destruct (p c) eqn:Ec.
  - apply orElse_Some in H as [H|H].
    + apply IH in H as (m & rest & -> & Hm & Hk).
      exists (c :: m), rest. split; [reflexivity|].
      split; [by constructor|]. by rewrite <- app_assoc in Hk.
    + exists [], (c :: cs).
      split_and!; [done | constructor | by rewrite app_nil_r].
  - exists [], (c :: cs).
    split_and!; [done | constructor | by rewrite app_nil_r].
Qed.

Lemma star_inv (p : ascii → bool) (k : Re.Cont R) (cs : list ascii) (r : R) :
  Re.star p k cs = Some r →
  ∃ m rest, cs = m ++ rest ∧ Forall (fun c => p c = true) m
            ∧ k m rest = Some r.
Proof. intros H. by apply starFrom_inv in H. Qed.

Lemma plus_inv (p : ascii → bool) (k : Re.Cont R) (cs : list ascii) (r : R) :
  Re.plus p k cs = Some r →
  ∃ m rest, cs = m ++ rest ∧ m ≠ [] ∧ Forall (fun c => p c = true) m
            ∧ k m rest = Some r.
Proof.
  unfold Re.plus. destruct cs as [|c cs]; [discriminate|].
  destruct (p c) eqn:Ec; [|discriminate]. intros H.
  apply starFrom_inv in H as (m & rest & -> & Hm & Hk).
  exists (c :: m), rest. split; [reflexivity|]. split; [done|].
  split; [by constructor | exact Hk].
Qed.

Lemma eos_inv (x : R) (cs : list ascii) (r : R) :
  Re.eos x cs = Some r → cs = [] ∧ r = x.
Proof. destruct cs; [by intros [= <-] | discriminate]. Qed.

Lemma searchFrom_inv (m : option ascii → list ascii → option R)
  (cs : list ascii) :
  ∀ prev r,
    Re.searchFrom m prev cs = Some r →
    ∃ before prev' rest, cs = before ++ rest ∧ m prev' rest = Some r.
Proof.
  induction cs as [|c cs IH]; intros prev r H; cbn [Re.searchFrom] in H.
  - destruct (m prev []) eqn:E; [|discriminate].
    exists [], prev, []. by rewrite <- H.
  - destruct (m prev (c :: cs)) eqn:E.
    + exists [], prev, (c :: cs). by rewrite <- H.
    + apply IH in H as (before & prev' & rest & -> & Hm).
      by exists (c :: before), prev', rest.
Qed.

(** A greedy run followed by the end of the input takes the input
    whole, or fails. *)
Lemma starFrom_eos (p : ascii → bool) (f : list ascii → R)
  (cs : list ascii) :
  ∀ acc,
    Re.starFrom p (fun g => Re.eos (f g)) acc cs
    = if forallb p cs then Some (f (acc ++ cs)) else None.
Proof.
  induction cs as [|c cs IH]; intros acc; cbn [Re.starFrom forallb].
  { by rewrite app_nil_r. }
  destruct (p c); [|reflexivity]. rewrite IH. cbn [andb].
  destruct (forallb p cs); [|reflexivity]. by rewrite <- app_assoc.
Qed.

(** Searching a word at the end: no match starts before a character
    that the expression cannot cross. *)
Lemma searchFrom_at_end (m : option ascii → list ascii → option R)
  (blocked : ascii → bool) (word : list ascii) (r : R) :
  (∀ prev cs, existsb blocked cs = true → m prev cs = None) →
  (∀ prev, m prev word = Some r) →
  ∀ before prev,
    (before = [] ∨ ∃ sep, last before = Some sep ∧ blocked sep = true) →
    Re.searchFrom m prev (before ++ word) = Some r.
Proof.
  intros Hblocked Hword. induction before as [|c before IH]; intros prev Hb.
  { cbn [app]. destruct word; cbn [Re.searchFrom]; by rewrite Hword. }
  destruct Hb as [? | (sep & Hlast & Hsep)]; [done|].
  cbn [app Re.searchFrom]. rewrite Hblocked.
  - apply IH. destruct before as [|d before]; [by left|].
    right. exists sep. split; [|done]. exact Hlast.
  - change (c :: before ++ word) with ((c :: before) ++ word).
    rewrite existsb_app. apply orb_true_iff. left.
    apply existsb_exists. exists sep. split; [|done].
    clear -Hlast. apply list_elem_of_In.
    revert c Hlast. induction before as [|d before IH]; intros c Hlast.
    + cbn in Hlast. injection Hlast as ->. by left.
    + right. by apply (IH d).
Qed.

End RegexFacts.

(** ** Where a routine context comes from *)

Section RoutineContext.
Import SqlParser TextProps ContextProps.

Lemma lower_of_lit (m : list ascii) (s : string) :
  map Js.toLowerChar m = map Js.toLowerChar (Js.chars s) →
  Js.toLowerCase (Js.str m) = Js.toLowerCase s.
Proof. intros H. unfold Js.toLowerCase. by rewrite chars_str, H. Qed.

Lemma lower_of_lits (m1 m2 : list ascii) (s1 s2 : string) :
  map Js.toLowerChar m1 = map Js.toLowerChar (Js.chars s1) →
  map Js.toLowerChar m2 = map Js.toLowerChar (Js.chars s2) →
  Js.toLowerCase (Js.str (m1 ++ m2)) = Js.toLowerCase (s1 +:+ s2).
Proof.
  intros H1 H2. unfold Js.toLowerCase.
  by rewrite chars_str, chars_app, !map_app, H1, H2.
Qed.

Ltac re_inv :=
  repeat (cbv beta in *; match goal with
  | H : Re.alt _ _ _ _ = Some _ |- _ => apply alt_inv in H as [H|H]
  | H : Re.opt _ _ _ = Some _ |- _ => apply opt_inv in H as [H|H]
  | H : Re.seq _ _ _ _ = Some _ |- _ => unfold Re.seq in H
  | H : Re.lit _ _ _ = Some _ |- _ =>
      let m := fresh "word" in
      let rest := fresh "rest" in
      let E := fresh "Hword" in
      apply lit_inv in H as (m & rest & -> & E & H)
  | H : Re.plus _ _ _ = Some _ |- _ =>
      let m := fresh "run" in
      let rest := fresh "rest" in
      let N := fresh "Hsome" in
      let F := fresh "Hrun" in
      apply plus_inv in H as (m & rest & -> & N & F & H)
  | H : Re.star _ _ _ = Some _ |- _ =>
      let m := fresh "run" in
      let rest := fresh "rest" in
      let F := fresh "Hrun" in
      apply star_inv in H as (m & rest & -> & F & H)
  end).

Lemma execRegex_inv (s g2 : string) :
  execRegex s = Some g2 →
  ∃ before keyword spaces,
    Js.chars s = before ++ keyword ++ spaces ++ Js.chars g2
    ∧ spacing spaces
    ∧ within isRoutineNameChar g2
    ∧ Js.toLowerCase (Js.str keyword) ∈ CALL_WORDS.
Proof.
  unfold execRegex, Re.search. intros H.
  apply searchFrom_inv in H as (before & prev & rest & Hs & H).
  destruct (Re.wordBoundary prev rest); [|discriminate].
  rewrite Hs. clear Hs. re_inv;
    apply eos_inv in H as [-> ->]; unfold within, spacing;
    rewrite !chars_str, ?app_nil_r.
  - exists before, (word ++ word0), run.
    split; [by rewrite <- ?app_assoc|]. split; [by split|]. split; [done|].
    rewrite (lower_of_lits _ _ "exec" "ute") by done.
    apply (bool_decide_unpack _). vm_compute. exact I.
  - exists before, word, run.
    split; [by rewrite <- ?app_assoc|]. split; [by split|]. split; [done|].
    rewrite (lower_of_lit _ "exec") by done.
    apply (bool_decide_unpack _). vm_compute. exact I.
  - exists before, word, run.
    split; [by rewrite <- ?app_assoc|]. split; [by split|]. split; [done|].
    rewrite (lower_of_lit _ "call") by done.
    apply (bool_decide_unpack _). vm_compute. exact I.
Qed.

Ltac known_word :=
  erewrite lower_of_lit by eassumption;
  apply (bool_decide_unpack _); vm_compute; exact I.

Lemma ddlRegex_inv (s g1 g2 : string) :
  ddlRegex s = Some (g1, g2) →
  ∃ before verb spaces1 spaces2,
    Js.chars s
    = before ++ verb ++ spaces1 ++ Js.chars g1 ++ spaces2 ++ Js.chars g2
    ∧ spacing spaces1 ∧ spacing spaces2
    ∧ within isRoutineNameChar g2
    ∧ Js.toLowerCase (Js.str verb) ∈ DDL_VERBS
    ∧ Js.toLowerCase g1 ∈ ["procedure"; "proc"; "function"; "view"].
Proof.
  unfold ddlRegex, Re.search. intros H.
  apply searchFrom_inv in H as (before & prev & rest & Hs & H).
  destruct (Re.wordBoundary prev rest); [|discriminate].
  rewrite Hs. clear Hs. apply alt_inv in H as [H|H].
  - re_inv; apply eos_inv in H as [-> [= -> ->]]; unfold within, spacing;
      rewrite !chars_str, ?app_nil_r;
      exists (before ++ word ++ run ++ word0 ++ run0), word1, run1, run2;
      (split; [by rewrite <- ?app_assoc|]);
      (split; [by split|]); (split; [by split|]); (split; [done|]);
      (split; known_word).
  - re_inv; apply eos_inv in H as [-> [= -> ->]]; unfold within, spacing;
      rewrite !chars_str, ?app_nil_r;
      exists before, word, run, run0;
      (split; [by rewrite <- ?app_assoc|]);
      (split; [by split|]); (split; [by split|]); (split; [done|]);
      (split; known_word).
Qed.

Lemma buildRoutineContext_parts (token : string)
  (category : RoutineCategory) :
  buildRoutineContext (Some token) category
  = mkContext T_routine (snd (parseRoutineToken token))
      (fst (parseRoutineToken token)) None (Some category).
Proof.
  unfold buildRoutineContext. cbn [default from_option id].
  by destruct (parseRoutineToken token).
Qed.

(** X21.  A routine context with a category comes from a keyword of the
    text before the cursor.  That text ends with the keyword, white
    space, and a name made of word characters, brackets, dots and white
    space only, and owner and prefix are the parts of that name.  The
    keyword is EXEC, EXECUTE or CALL, and the category is procedure; or
    it is the object keyword of a statement that CREATE, ALTER or DROP
    starts, and the category is procedure after PROCEDURE or PROC,
    function after FUNCTION and view after VIEW. *)
Theorem routine_context_keyword (linePrefix : string)
  (r : CompletionContextResult) :
  detectRoutineContext linePrefix = Some r →
  ∃ before keyword spaces name category,
    Js.chars linePrefix = before ++ Js.chars keyword ++ spaces ++ Js.chars name
    ∧ spacing spaces
    ∧ within isRoutineNameChar name
    ∧ r = mkContext T_routine (snd (parseRoutineToken name))
            (fst (parseRoutineToken name)) None (Some category)
    ∧ ((Js.toLowerCase keyword ∈ CALL_WORDS ∧ category = C_procedure)
       ∨ (Js.toLowerCase keyword ∈ objectWordsOf category
          ∧ ∃ before' verb spaces',
              before = before' ++ Js.chars verb ++ spaces'
              ∧ Js.toLowerCase verb ∈ DDL_VERBS ∧ spacing spaces')).
Proof.
  unfold detectRoutineContext.
  destruct (execRegex linePrefix) as [g2|] eqn:Ee.
  { intros [= <-].
    apply execRegex_inv in Ee as (before & keyword & spaces & Hs & Hsp & Hn & Hk).
    exists before, (Js.str keyword), spaces, g2, C_procedure.
    rewrite chars_str. split_and!; [done.. | apply buildRoutineContext_parts |].
    by left. }
  destruct (ddlRegex linePrefix) as [[g1 g2]|] eqn:Ed; [|discriminate].
  intros [= <-].
  apply ddlRegex_inv in Ed
    as (before & verb & s1 & s2 & Hs & Hs1 & Hs2 & Hn & Hv & Hk).
  exists (before ++ verb ++ s1), g1, s2, g2, (determineRoutineCategory g1).
  split; [by rewrite <- !app_assoc|].
  split_and!; [done.. | apply buildRoutineContext_parts |].
  right. split.
  - unfold determineRoutineCategory.
    repeat (apply elem_of_cons in Hk as [-> | Hk]);
      [ | | | | by apply elem_of_nil in Hk];
      cbn; apply (bool_decide_unpack _); vm_compute; exact I.
  - exists before, (Js.str verb), s1. by rewrite chars_str.
Qed.

Lemma routine_context_keyword_witness :
  ∃ before keyword spaces name category,
    Js.chars "create or alter view [rpt].vSa"
    = before ++ Js.chars keyword ++ spaces ++ Js.chars name
    ∧ spacing spaces
    ∧ within isRoutineNameChar name
    ∧ mkContext T_routine "vSa" (Some "rpt") None (Some C_view)
      = mkContext T_routine (snd (parseRoutineToken name))
          (fst (parseRoutineToken name)) None (Some category)
    ∧ ((Js.toLowerCase keyword ∈ CALL_WORDS ∧ category = C_procedure)
       ∨ (Js.toLowerCase keyword ∈ objectWordsOf category
          ∧ ∃ before' verb spaces',
              before = before' ++ Js.chars verb ++ spaces'
              ∧ Js.toLowerCase verb ∈ DDL_VERBS ∧ spacing spaces')).
Proof.
  apply (routine_context_keyword "create or alter view [rpt].vSa").
  vm_compute. reflexivity.
Defined.

End RoutineContext.

(** ** The word, the owner and the punctuation before the cursor *)

Ltac ascii_cases c :=
  destruct c as [[] [] [] [] [] [] [] []]; vm_compute; try congruence;
  repeat split; congruence.

Section CursorWord.
Import SqlParser TextProps ContextProps.


Lemma word_char (c : ascii) :
  Js.isWord c = true →
  Js.isSpace c = false ∧ isDot c = false ∧ isTokenChar c = true
  ∧ isWordOrDollar c = true ∧ isOwnerChar c = true
  ∧ isListPunctuation c = false.
Proof. ascii_cases c. Qed.

Lemma wordStart_char (c : ascii) :
  isWordStart c = true → Js.isWord c = true.
Proof. ascii_cases c. Qed.

Lemma owner_char (c : ascii) :
  isOwnerChar c = true →
  Js.isSpace c = false ∧ isDot c = false ∧ isTokenChar c = true
  ∧ isListPunctuation c = false.
Proof. ascii_cases c. Qed.

Lemma punctuation_char (c : ascii) :
  isListPunctuation c = true →
  Js.isSpace c = false ∧ isDot c = false ∧ isTokenChar c = false
  ∧ isWordOrDollar c = false.
Proof. ascii_cases c. Qed.

Lemma break_char (c : ascii) :
  isTokenOrDollar c = false →
  isTokenChar c = false ∧ isWordOrDollar c = false ∧ isOwnerChar c = false.
Proof. ascii_cases c. Qed.

Lemma snoc_cases {A} (l : list A) : l = [] ∨ ∃ body x, l = body ++ [x].
Proof. destruct l using rev_ind; [by left | right; eauto]. Qed.

Lemma dropWhile_app_all {A} (p : A → bool) (a b : list A) :
  Forall (fun x => p x = true) a →
  Js.dropWhile p (a ++ b) = Js.dropWhile p b.
Proof.
  induction 1 as [|x a Hx _ IH]; [reflexivity|]. cbn. by rewrite Hx.
Qed.

Lemma dropEnd_tail {A} (p : A → bool) (body : list A) (x : A)
  (tail : list A) :
  p x = false → Forall (fun x => p x = true) tail →
  Js.dropEnd p ((body ++ [x]) ++ tail) = body ++ [x].
Proof.
  intros Hx Htail. unfold Js.dropEnd. rewrite rev_app_distr.
  rewrite dropWhile_app_all.
  2: { apply Forall_forall. intros y Hy.
       apply list_elem_of_In, in_rev, list_elem_of_In in Hy.
       by eapply Forall_forall in Htail. }
  fold (Js.dropEnd p (body ++ [x])). by apply dropEnd_snoc_keep.
Qed.

Lemma forallb_Forall {A} (p : A → bool) (l : list A) :
  forallb p l = true ↔ Forall (fun x => p x = true) l.
Proof.
  induction l as [|x l IH]; cbn; [split; [constructor | done]|].
  rewrite andb_true_iff, Forall_cons, IH. done.
Qed.

Lemma plus_eos {R} (p : ascii → bool) (f : list ascii → R)
  (cs : list ascii) :
  Re.plus p (fun g => Re.eos (f g)) cs
  = match cs with
    | [] => None
    | _ :: _ => if forallb p cs then Some (f cs) else None
    end.
Proof.
  unfold Re.plus. destruct cs as [|c cs]; [reflexivity|].
  cbn [forallb]. destruct (p c); [|reflexivity].
  by rewrite starFrom_eos.
Qed.

Lemma existsb_not_forallb {A} (p : A → bool) (l : list A) :
  existsb (fun x => negb (p x)) l = true → forallb p l = false.
Proof.
  induction l as [|x l IH]; cbn; [done|].
  destruct (p x); cbn; [exact IH | done].
Qed.

(** A class at the end of the text: [[class]+$] finds the run of the
    class that ends the text, when a character outside the class, or
    nothing, comes before it. *)
Lemma search_class_at_end {R} (p : ascii → bool) (f : list ascii → R)
  (before word : list ascii) :
  word ≠ [] → Forall (fun c => p c = true) word →
  (before = [] ∨ ∃ sep, last before = Some sep ∧ p sep = false) →
  Re.searchFrom (fun _ => Re.plus p (fun g => Re.eos (f g))) None
    (before ++ word)
  = Some (f word).
Proof.
  intros Hne Hword Hbefore.
  apply (searchFrom_at_end _ (fun c => negb (p c))).
  - intros _ cs Hcs. rewrite plus_eos. destruct cs; [reflexivity|].
    by rewrite existsb_not_forallb.
  - intros _. rewrite plus_eos. destruct word; [done|].
    by rewrite (proj2 (forallb_Forall _ _) Hword).
  - destruct Hbefore as [?|(sep & ? & Hsep)]; [by left|].
    right. exists sep. by rewrite Hsep.
Qed.

(** No match of an expression that must reach the end of a text whose
    last character it cannot cross. *)
Lemma search_blocked_at_end {R}
  (m : option ascii → list ascii → option R) (blocked : ascii → bool)
  (body : list ascii) (x : ascii) :
  (∀ prev cs, existsb blocked cs = true → m prev cs = None) →
  (∀ prev, m prev [] = None) →
  blocked x = true →
  ∀ prev, Re.searchFrom m prev (body ++ [x]) = None.
Proof.
  intros Hblocked Hnil Hx.
  induction body as [|c body IH]; intros prev.
  - cbn. rewrite Hblocked by (cbn; by rewrite Hx). by rewrite Hnil.
  - cbn [app Re.searchFrom]. rewrite Hblocked; [apply IH|].
    cbn [existsb]. rewrite existsb_app. cbn. rewrite Hx.
    by rewrite !orb_true_r.
Qed.

Lemma lastWord_matcher (cs : list ascii) :
  Re.seq (Re.one isWordStart) (Re.star isWordOrDollar)
    (fun g1 => Re.eos (Js.str g1)) cs
  = match cs with
    | c :: rest =>
        if isWordStart c && forallb isWordOrDollar rest
        then Some (Js.str cs) else None
    | [] => None
    end.
Proof.
  unfold Re.seq, Re.one, Re.star. destruct cs as [|c rest]; [reflexivity|].
  destruct (isWordStart c); [|reflexivity].
  rewrite (starFrom_eos isWordOrDollar (fun g => Js.str ([c] ++ g))).
  by destruct (forallb isWordOrDollar rest).
Qed.

Lemma listPunctuation_matcher (cs : list ascii) :
  Re.one isListPunctuation (fun _ =>
    Re.star Js.isSpace (fun _ => Re.eos tt)) cs
  = match cs with
    | c :: rest =>
        if isListPunctuation c && forallb Js.isSpace rest
        then Some tt else None
    | [] => None
    end.
Proof.
  unfold Re.one, Re.star. destruct cs as [|c rest]; [reflexivity|].
  destruct (isListPunctuation c); [|reflexivity].
  rewrite (starFrom_eos Js.isSpace (fun _ => tt)).
  by destruct (forallb Js.isSpace rest).
Qed.

Lemma endsAtBreak_chars (p : ascii → bool) (before : string) :
  endsAtBreak p before →
  Js.chars before = [] ∨ ∃ sep, last (Js.chars before) = Some sep ∧ p sep = false.
Proof. intros [-> | H]; [by left | by right]. Qed.

Lemma plainWord_chars (word : string) :
  isPlainWord word = true →
  ∃ first others body final,
    Js.chars word = first :: others
    ∧ Js.chars word = body ++ [final]
    ∧ isWordStart first = true
    ∧ Forall (fun c => Js.isWord c = true) (Js.chars word)
    ∧ Js.isWord final = true.
Proof.
  unfold isPlainWord. destruct (Js.chars word) as [|first others] eqn:E;
    [discriminate|].
  intros [Hf Ho%forallb_Forall]%andb_true_iff.
  assert (Forall (fun c => Js.isWord c = true) (first :: others)) as Hall.
  { constructor; [by apply wordStart_char | done]. }
  destruct (snoc_cases (first :: others)) as [?|(body & final & Hsnoc)];
    [done|].
  exists first, others, body, final. split_and!; try done.
  rewrite Hsnoc in Hall. apply Forall_app in Hall as [_ Hfin].
  by apply Forall_cons in Hfin as [? _].
Qed.

(** The last token and the last word of a text that ends with a plain
    word. *)
Lemma lastToken_of_word (before word : string) :
  isPlainWord word = true → endsAtBreak isTokenOrDollar before →
  getLastToken (Js.str (Js.chars before ++ Js.chars word)) = word
  ∧ getLastWord (Js.str (Js.chars before ++ Js.chars word)) = word
  ∧ listPunctuationRegex (Js.str (Js.chars before ++ Js.chars word)) = false
  ∧ Js.includes "." word = false.
Proof.
  intros Hw Hb.
  destruct (plainWord_chars word Hw)
    as (first & others & body & final & Hcons & Hsnoc & Hfirst & Hall & Hfinal).
  apply endsAtBreak_chars in Hb.
  split_and!.
  - unfold getLastToken, lastTokenRegex, Re.search. rewrite chars_str.
    rewrite (search_class_at_end isTokenChar Js.str).
    + cbn. apply str_chars.
    + by rewrite Hcons.
    + eapply Forall_impl; [exact Hall|]. intros c Hc.
      by destruct (word_char c Hc) as (_ & _ & ? & _).
    + destruct Hb as [?|(sep & ? & Hsep)]; [by left|].
      right. exists sep. split; [done|]. by apply break_char in Hsep as [? _].
  - unfold getLastWord, lastWordRegex, Re.search. rewrite chars_str.
    rewrite (searchFrom_at_end _ (fun c => negb (isWordOrDollar c))
               (Js.chars word) word).
    + reflexivity.
    + intros _ cs Hcs. rewrite lastWord_matcher.
      destruct cs as [|c rest]; [reflexivity|]. cbn [existsb] in Hcs.
      destruct (isWordStart c) eqn:Ec; [|reflexivity].
      apply wordStart_char, word_char in Ec as (_ & _ & _ & Ec & _).
      rewrite Ec in Hcs. cbn in Hcs.
      by rewrite (existsb_not_forallb _ _ Hcs).
    + intros _. rewrite lastWord_matcher, Hcons, Hfirst. cbn [andb].
      rewrite Hcons in Hall. apply Forall_cons in Hall as [_ Hall].
      assert (forallb isWordOrDollar others = true) as ->.
      { apply forallb_Forall. eapply Forall_impl; [exact Hall|].
        intros c Hc. by destruct (word_char c Hc) as (_ & _ & _ & ? & _). }
      by rewrite <- Hcons, str_chars.
    + destruct Hb as [?|(sep & ? & Hsep)]; [by left|].
      right. exists sep. split; [done|].
      apply break_char in Hsep as (_ & -> & _). reflexivity.
  - unfold listPunctuationRegex, Re.search. rewrite chars_str, Hsnoc, app_assoc.
    rewrite (search_blocked_at_end _
               (fun c => negb (Js.isSpace c) && negb (isListPunctuation c)));
      [reflexivity | | done |].
    + intros _ cs Hcs. rewrite listPunctuation_matcher.
      destruct cs as [|c rest]; [reflexivity|]. cbn [existsb] in Hcs.
      destruct (isListPunctuation c) eqn:Ec; [|reflexivity].
      rewrite andb_false_r in Hcs. cbn in Hcs.
      assert (forallb Js.isSpace rest = false) as ->; [|reflexivity].
      apply existsb_not_forallb. apply existsb_exists.
      apply existsb_exists in Hcs as (y & Hy & Hc).
      exists y. split; [done|]. by apply andb_true_iff in Hc as [? _].
    + destruct (word_char final Hfinal) as (-> & _ & _ & _ & _ & ->).
      reflexivity.
  - apply includes_false. eapply Forall_impl; [exact Hall|].
    intros c Hc. by destruct (word_char c Hc) as (_ & ? & _).
Qed.

Lemma trimEnd_tail (text tail : string) (body : list ascii) (final : ascii) :
  Js.chars text = body ++ [final] → Js.isSpace final = false →
  within Js.isSpace tail →
  Js.trimEnd (text +:+ tail) = text.
Proof.
  intros Ht Hf Htail. unfold Js.trimEnd. rewrite chars_app, Ht.
  rewrite dropEnd_tail by done. by rewrite <- Ht, str_chars.
Qed.

(** X22.  When the text before the cursor ends with a plain word and
    white space only follows it, a word that starts anew (at the start
    of the line, or after a character that is neither a word character
    nor a bracket, a dot or a dollar sign), and no routine context is
    detected, the word decides the context: after FROM, JOIN, UPDATE or
    INTO a table is expected, after EXEC, EXECUTE or CALL a routine,
    after SELECT, WHERE, AND or OR a keyword, each with an empty prefix;
    any other word is the prefix of a table name. *)
Theorem word_before_cursor_decides (lineText : string) (character : nat)
  (before word tail : string) :
  Js.sliceTo character lineText = before +:+ word +:+ tail →
  detectRoutineContext (before +:+ word +:+ tail) = None →
  endsAtBreak isTokenOrDollar before →
  isPlainWord word = true →
  within Js.isSpace tail →
  analyzeCompletionContext lineText character = contextOfWord word.
Proof.
  intros Hslice Hdetect Hbefore Hword Htail.
  unfold analyzeCompletionContext. rewrite Hslice, Hdetect. cbv zeta.
  destruct (plainWord_chars word Hword)
    as (first & others & body & final & Hcons & Hsnoc & Hfirst & Hall & Hfinal).
  destruct (word_char final Hfinal) as (Hsp & Hdot & _).
  assert (Js.chars (before +:+ word) = (Js.chars before ++ body) ++ [final])
    as Hchars.
  { by rewrite chars_app, Hsnoc, app_assoc. }
  assert (Js.trimEnd (before +:+ word +:+ tail) = before +:+ word) as ->.
  { assert (before +:+ word +:+ tail = (before +:+ word) +:+ tail) as ->.
    { apply chars_inj. by rewrite !chars_app, app_assoc. }
    exact (trimEnd_tail (before +:+ word) tail _ _ Hchars Hsp Htail). }
  assert (Js.lastChar (before +:+ word) = Some final) as ->.
  { unfold Js.lastChar. rewrite Hchars. apply last_snoc. }
  cbn [from_option]. rewrite Hdot.
  assert (before +:+ word = Js.str (Js.chars before ++ Js.chars word)) as ->.
  { apply chars_inj. by rewrite chars_str, chars_app. }
  destruct (lastToken_of_word before word Hword Hbefore)
    as (-> & -> & -> & ->).
  unfold contextOfWord, isOneOf. rewrite !inList_existsb. reflexivity.
Qed.

Lemma word_before_cursor_decides_witness :
  analyzeCompletionContext "SELECT * FROM  x" 14
  = mkContext T_table "" None None None
  ∧ analyzeCompletionContext "SELECT * FROM Ord" 17
    = mkContext T_table "Ord" None None None
  ∧ analyzeCompletionContext "Exec" 4 = mkContext T_routine "" None None None
  ∧ analyzeCompletionContext "SELECT a FROM t WHERE " 22
    = mkContext T_keyword "" None None None.
Proof.
  split; [|split; [|split]].
  - transitivity (contextOfWord "FROM"); [|reflexivity].
    apply (word_before_cursor_decides _ _ "SELECT * " "FROM" " ");
      [reflexivity | reflexivity | | reflexivity | repeat constructor].
    right. exists " "%char. by split.
  - transitivity (contextOfWord "Ord"); [|reflexivity].
    apply (word_before_cursor_decides _ _ "SELECT * FROM " "Ord" "");
      [reflexivity | reflexivity | | reflexivity | constructor].
    right. exists " "%char. by split.
  - transitivity (contextOfWord "Exec"); [|reflexivity].
    apply (word_before_cursor_decides _ _ "" "Exec" "");
      [reflexivity | reflexivity | by left | reflexivity | constructor].
  - transitivity (contextOfWord "WHERE"); [|reflexivity].
    apply (word_before_cursor_decides _ _ "SELECT a FROM t " "WHERE" " ");
      [reflexivity | reflexivity | | reflexivity | repeat constructor].
    right. exists " "%char. by split.
Defined.

End CursorWord.

(** ** A dot or a list before the cursor *)

Section CursorDot.
Import SqlParser TextProps ContextProps.

Lemma dropLast_snoc (text : string) (body : list ascii) (final : ascii) :
  Js.chars text = body ++ [final] → Js.dropLast text = Js.str body.
Proof.
  intros H. unfold Js.dropLast. rewrite H, length_app. cbn [Datatypes.length].
  rewrite Nat.add_1_r. cbn [Nat.pred]. by rewrite take_app_length.
Qed.

Lemma lastIndexOfGo_app (x : ascii) (a b : list ascii) :
  ∀ i found,
    Js.lastIndexOfGo x (a ++ b) i found
    = Js.lastIndexOfGo x b (i + Datatypes.length a)
        (Js.lastIndexOfGo x a i found).
Proof.
  induction a as [|c a IH]; intros i found; cbn [app Js.lastIndexOfGo].
  { by rewrite Nat.add_0_r. }
  rewrite IH. cbn [Datatypes.length]. by rewrite Nat.add_succ_comm.
Qed.

Lemma lastIndexOfGo_absent (x : ascii) (b : list ascii) :
  ∀ i found,
    Forall (fun c => Js.isChar x c = false) b →
    Js.lastIndexOfGo x b i found = found.
Proof.
  induction b as [|c b IH]; intros i found Hb; [reflexivity|].
  apply Forall_cons in Hb as [Hc Hb]. cbn [Js.lastIndexOfGo].
  rewrite Hc. by apply IH.
Qed.

Lemma splitToken_at_last_dot (left partial : list ascii) :
  Forall (fun c => isDot c = false) partial →
  splitToken (Js.str (left ++ "."%char :: partial))
  = (Some (Js.str left), Some (Js.str partial)).
Proof.
  intros Hp. unfold splitToken, Js.lastIndexOf. rewrite chars_str.
  rewrite lastIndexOfGo_app. cbn [Js.lastIndexOfGo].
  change (Js.isChar "." ".") with true. cbv iota.
  rewrite lastIndexOfGo_absent by done.
  unfold Js.sliceTo, Js.sliceFrom. rewrite chars_str. cbn [Nat.add].
  rewrite take_app_length.
  rewrite Nat.add_1_r.
  change (left ++ "."%char :: partial) with (left ++ ["."%char] ++ partial).
  rewrite app_assoc.
  replace (S (Datatypes.length left))
    with (Datatypes.length (left ++ ["."%char]))
    by (rewrite length_app; cbn; lia).
  by rewrite drop_app_length.
Qed.

(** X23.  A dot before the cursor gives a column context, unless a
    routine context is detected.  When the text ends with a name of
    word characters and brackets and a dot (white space may follow),
    the owner and the alias are that name without its brackets and the
    prefix is empty.  When such a name is typed after the dot, it is the
    prefix without its brackets, and the owner and the alias are what
    the token has before its last dot, without brackets. *)
Theorem dot_before_cursor (lineText : string) (character : nat)
  (before owner partial tail : string) :
  detectRoutineContext (Js.sliceTo character lineText) = None →
  within Js.isSpace tail →
  (Js.sliceTo character lineText = (before +:+ owner +:+ ".") +:+ tail →
   endsAtBreak isOwnerChar before →
   owner ≠ "" → within isOwnerChar owner →
   analyzeCompletionContext lineText character
   = mkContext T_column "" (Some (stripBrackets owner))
       (Some (stripBrackets owner)) None)
  ∧ (Js.sliceTo character lineText
     = (before +:+ owner +:+ "." +:+ partial) +:+ tail →
     endsAtBreak isTokenChar before →
     within isTokenChar owner →
     partial ≠ "" → within isOwnerChar partial →
     analyzeCompletionContext lineText character
     = mkContext T_column (stripBrackets partial)
         (Some (stripBrackets owner)) (Some (stripBrackets owner)) None).
Proof.
  intros Hdetect Htail. split.
  - intros Hslice Hbefore Hne Howner.
    unfold analyzeCompletionContext. rewrite Hdetect, Hslice. cbv zeta.
    assert (Js.chars (before +:+ owner +:+ ".")
            = (Js.chars before ++ Js.chars owner) ++ ["."%char]) as Hchars.
    { by rewrite !chars_app, app_assoc. }
    rewrite (trimEnd_tail _ tail _ _ Hchars eq_refl Htail).
    unfold Js.lastChar. rewrite Hchars, last_snoc. cbn [from_option].
    change (isDot ".") with true. cbv iota.
    unfold extractOwnerBeforeDot. rewrite (dropLast_snoc _ _ _ Hchars).
    unfold ownerRegex, Re.search. rewrite chars_str.
    rewrite (search_class_at_end isOwnerChar Js.str).
    + by rewrite str_chars.
    + intros E. apply Hne. apply chars_inj. by rewrite E.
    + exact Howner.
    + by apply endsAtBreak_chars.
  - intros Hslice Hbefore Howner Hne Hpartial.
    unfold analyzeCompletionContext. rewrite Hdetect, Hslice. cbv zeta.
    destruct (snoc_cases (Js.chars partial)) as [E|(body & final & Hsnoc)].
    { exfalso. apply Hne. apply chars_inj. by rewrite E. }
    assert (isOwnerChar final = true) as Hfinal.
    { unfold within in Hpartial. rewrite Hsnoc in Hpartial.
      apply Forall_app in Hpartial as [_ Hf].
      by apply Forall_cons in Hf as [? _]. }
    destruct (owner_char final Hfinal) as (Hsp & Hdot & _).
    set (token := Js.chars owner ++ "."%char :: Js.chars partial).
    assert (Js.chars (before +:+ owner +:+ "." +:+ partial)
            = Js.chars before ++ token) as Hchars.
    { by rewrite !chars_app. }
    assert (Js.chars (before +:+ owner +:+ "." +:+ partial)
            = (Js.chars before ++ Js.chars owner ++ "."%char :: body)
              ++ [final]) as Hchars'.
    { rewrite Hchars. unfold token. rewrite Hsnoc.
      by rewrite <- !app_assoc. }
    rewrite (trimEnd_tail _ tail _ _ Hchars' Hsp Htail).
    unfold Js.lastChar. rewrite Hchars', last_snoc. cbn [from_option].
    rewrite Hdot.
    assert (Forall (fun c => isDot c = false) (Js.chars partial)) as Hnodot.
    { eapply Forall_impl; [exact Hpartial|]. intros c Hc.
      by destruct (owner_char c Hc) as (_ & ? & _). }
    assert (getLastToken (before +:+ owner +:+ "." +:+ partial)
            = Js.str token) as ->.
    { unfold getLastToken, lastTokenRegex, Re.search. rewrite Hchars.
      rewrite (search_class_at_end isTokenChar Js.str); [reflexivity | | |].
      - unfold token. by destruct (Js.chars owner).
      - unfold token. apply Forall_app. split; [exact Howner|].
        constructor; [reflexivity|].
        eapply Forall_impl; [exact Hpartial|]. intros c Hc.
        by destruct (owner_char c Hc) as (_ & _ & ? & _).
      - by apply endsAtBreak_chars. }
    assert (Js.includes "." (Js.str token) = true) as ->.
    { unfold Js.includes, token. rewrite chars_str, existsb_app.
      cbn. by rewrite orb_true_r. }
    unfold token. rewrite (splitToken_at_last_dot _ _ Hnodot).
    cbn. by rewrite !str_chars.
Qed.

Lemma dot_before_cursor_witness :
  analyzeCompletionContext "SELECT [o]. FROM Orders o" 12
  = mkContext T_column "" (Some "o") (Some "o") None
  ∧ analyzeCompletionContext "WHERE dbo.[Orders].Na" 21
    = mkContext T_column "Na" (Some "dbo.Orders") (Some "dbo.Orders") None.
Proof.
  split.
  - apply (proj1 (dot_before_cursor "SELECT [o]. FROM Orders o" 12
                    "SELECT " "[o]" "" " " eq_refl
                    ltac:(repeat constructor)));
      [reflexivity | | discriminate | repeat constructor].
    right. exists " "%char. by split.
  - apply (proj2 (dot_before_cursor "WHERE dbo.[Orders].Na" 21
                    "WHERE " "dbo.[Orders]" "Na" "" eq_refl
                    ltac:(constructor)));
      [reflexivity | | repeat constructor | discriminate | repeat constructor].
    right. exists " "%char. by split.
Defined.

Lemma searchFrom_unit (m : option ascii → list ascii → option unit)
  (cs : list ascii) :
  (∀ prev, m prev cs = Some tt) →
  ∀ body prev, Re.searchFrom m prev (body ++ cs) = Some tt.
Proof.
  intros Hm. induction body as [|c body IH]; intros prev.
  - cbn [app]. destruct cs; cbn [Re.searchFrom]; by rewrite Hm.
  - cbn [app Re.searchFrom]. by destruct (m prev (c :: body ++ cs)) as [[]|].
Qed.

(** X24.  After a comma or a parenthesis (white space may follow) a
    column is expected, with no owner and an empty prefix, unless a
    routine context is detected. *)
Theorem list_before_cursor (lineText : string) (character : nat)
  (before tail : string) (mark : ascii) :
  Js.sliceTo character lineText = (before +:+ String mark "") +:+ tail →
  detectRoutineContext (Js.sliceTo character lineText) = None →
  isListPunctuation mark = true →
  within Js.isSpace tail →
  analyzeCompletionContext lineText character
  = mkContext T_column "" None None None.
Proof.
  intros Hslice Hdetect Hmark Htail.
  unfold analyzeCompletionContext. rewrite Hdetect, Hslice. cbv zeta.
  destruct (punctuation_char mark Hmark) as (Hsp & Hdot & Htok & Hword).
  assert (Js.chars (before +:+ String mark "") = Js.chars before ++ [mark])
    as Hchars by (by rewrite chars_app).
  rewrite (trimEnd_tail _ tail _ _ Hchars Hsp Htail).
  unfold Js.lastChar. rewrite Hchars, last_snoc. cbn [from_option].
  rewrite Hdot.
  assert (getLastToken (before +:+ String mark "") = "") as ->.
  { unfold getLastToken, lastTokenRegex, Re.search. rewrite Hchars.
    rewrite (search_blocked_at_end _ (fun c => negb (isTokenChar c)));
      [reflexivity | | done | by rewrite Htok].
    intros _ cs Hcs. rewrite plus_eos. destruct cs; [reflexivity|].
    by rewrite existsb_not_forallb. }
  assert (getLastWord (before +:+ String mark "") = "") as ->.
  { unfold getLastWord, lastWordRegex, Re.search. rewrite Hchars.
    rewrite (search_blocked_at_end _ (fun c => negb (isWordOrDollar c)));
      [reflexivity | | done | by rewrite Hword].
    intros _ cs Hcs. rewrite lastWord_matcher.
    destruct cs as [|c rest]; [reflexivity|]. cbn [existsb] in Hcs.
    destruct (isWordStart c) eqn:Ec; [|reflexivity].
    apply wordStart_char, word_char in Ec as (_ & _ & _ & Ec & _).
    rewrite Ec in Hcs. cbn in Hcs.
    by rewrite (existsb_not_forallb _ _ Hcs). }
  assert (listPunctuationRegex (before +:+ String mark "") = true) as ->.
  { unfold listPunctuationRegex, Re.search. rewrite Hchars.
    rewrite searchFrom_unit; [reflexivity|].
    intros _. rewrite listPunctuation_matcher. by rewrite Hmark. }
  reflexivity.
Qed.

Lemma list_before_cursor_witness :
  analyzeCompletionContext "SELECT a,  FROM t" 10
  = mkContext T_column "" None None None.
Proof.
  apply (list_before_cursor _ _ "SELECT a" " " ","%char);
    [reflexivity | reflexivity | reflexivity | repeat constructor].
Defined.

End CursorDot.

(** ** Qualified names and literals in the queries *)

Section Qualifying.
Import TextProps.

Lemma doubled_cons (x c : ascii) (cs : list ascii) :
  doubled x (c :: cs)
  = if Js.isChar x c then c :: c :: doubled x cs else c :: doubled x cs.
Proof. unfold doubled. cbn [flat_map]. by destruct (Js.isChar x c). Qed.

Lemma doubleChar_doubled (x : ascii) (value : string) :
  Js.chars (Queries.doubleChar x value) = doubled x (Js.chars value).
Proof. unfold Queries.doubleChar. apply chars_str. Qed.

(** A doubled text is closed by the first single [x]: where it ends can
    be read off the text. *)
Lemma doubled_delimited (x : ascii) (s1 : list ascii) :
  ∀ s2 t1 t2,
    closes x t1 → closes x t2 →
    doubled x s1 ++ x :: t1 = doubled x s2 ++ x :: t2 →
    s1 = s2 ∧ t1 = t2.
Proof.
  induction s1 as [|c s1 IH]; intros s2 t1 t2 H1 H2 E.
  - destruct s2 as [|c' s2]; [by injection E as <-|].
    rewrite doubled_cons in E. cbn [doubled flat_map app] in E.
    destruct (Js.isChar x c') eqn:Ec'.
    + injection E as _ E. subst t1. cbn in H1.
      apply isChar_eq in Ec'. subst c'. by rewrite isChar_refl in H1.
    + injection E as E _. subst c'. by rewrite isChar_refl in Ec'.
  - rewrite doubled_cons in E. destruct (Js.isChar x c) eqn:Ec.
    + apply isChar_eq in Ec. subst c.
      destruct s2 as [|c' s2].
      * cbn [doubled flat_map app] in E. injection E as E. subst t2.
        cbn in H2. by rewrite isChar_refl in H2.
      * rewrite doubled_cons in E. destruct (Js.isChar x c') eqn:Ec'.
        -- apply isChar_eq in Ec'. subst c'.
           injection E as E. apply IH in E as [-> ->]; done.
        -- injection E as E _. subst c'. by rewrite isChar_refl in Ec'.
    + destruct s2 as [|c' s2].
      * cbn [doubled flat_map app] in E. injection E as E _. subst c.
        by rewrite isChar_refl in Ec.
      * rewrite doubled_cons in E. destruct (Js.isChar x c') eqn:Ec'.
        -- injection E as E _. subst c'. congruence.
        -- injection E as -> E. apply IH in E as [-> ->]; done.
Qed.

Lemma doubled_length (x : ascii) (cs : list ascii) :
  (Datatypes.length cs ≤ Datatypes.length (doubled x cs))%nat.
Proof.
  induction cs as [|c cs IH]; [done|]. rewrite doubled_cons.
  destruct (Js.isChar x c); cbn; lia.
Qed.

Lemma doubled_same (x : ascii) (cs : list ascii) :
  doubled x cs = cs ↔ Forall (fun c => Js.isChar x c = false) cs.
Proof.
  induction cs as [|c cs IH]; [split; [constructor | done]|].
  rewrite doubled_cons, Forall_cons. destruct (Js.isChar x c) eqn:Ec.
  - split; [|by intros [? _]]. intros [= E].
    pose proof (doubled_length x cs) as Hl. rewrite <- E in Hl at 1.
    cbn in Hl. lia.
  - split.
    + intros [= E]. split; [done | by apply IH].
    + intros [_ H]. f_equal. by apply IH.
Qed.

Lemma doubled_comm (x y : ascii) (cs : list ascii) :
  Js.isChar x y = false →
  doubled x (doubled y cs) = doubled y (doubled x cs).
Proof.
  intros Hxy. induction cs as [|c cs IH]; [reflexivity|].
  rewrite !(doubled_cons _ c).
  destruct (Js.isChar y c) eqn:Ey, (Js.isChar x c) eqn:Ex.
  - apply isChar_eq in Ey, Ex. subst. by rewrite isChar_refl in Hxy.
  - rewrite !doubled_cons, Ex, Ey. by rewrite IH.
  - rewrite !doubled_cons, Ex, Ey. by rewrite IH.
  - rewrite !doubled_cons, Ex, Ey. by rewrite IH.
Qed.

Lemma given_cases (database : option string) :
  (Queries.given database = None
   ∧ (database = None ∨ database = Some ""))
  ∨ (∃ d, Queries.given database = Some d ∧ database = Some d ∧ d ≠ "").
Proof.
  destruct database as [[|c d]|]; cbn; [left | right | left]; eauto.
Qed.

Lemma scope_chars (database : option string) (rest : string) :
  Js.chars (Queries.qualifyCatalogScope database +:+ rest)
  = match Queries.given database with
    | Some d =>
        "["%char :: doubled "]" (Js.chars d)
          ++ "]"%char :: "."%char :: Js.chars rest
    | None => Js.chars rest
    end.
Proof.
  unfold Queries.qualifyCatalogScope.
  destruct (Queries.given database) as [d|]; [|reflexivity].
  rewrite !chars_app. unfold Queries.escapeSqlIdentifier.
  rewrite doubleChar_doubled. cbn. by rewrite <- app_assoc.
Qed.

(** A scope in front of a text that cannot be taken for a scope. *)
Lemma scope_inj (database database' : option string) (rest rest' : string) :
  (∀ c r, Js.chars rest = c :: r → Js.isChar "[" c = false) →
  (∀ c r, Js.chars rest' = c :: r → Js.isChar "[" c = false) →
  Queries.qualifyCatalogScope database +:+ rest
  = Queries.qualifyCatalogScope database' +:+ rest' →
  Queries.given database = Queries.given database' ∧ rest = rest'.
Proof.
  intros Hr Hr' E. apply (f_equal Js.chars) in E.
  rewrite !scope_chars in E.
  destruct (Queries.given database) as [d|],
    (Queries.given database') as [d'|].
  - injection E as E.
    apply doubled_delimited in E as [E1 E2]; [|done..].
    injection E2 as E2. apply chars_inj in E1, E2. by subst.
  - destruct (Js.chars rest') as [|c r] eqn:Ec; [discriminate|].
    injection E as <- _. by specialize (Hr' _ _ eq_refl).
  - destruct (Js.chars rest) as [|c r] eqn:Ec; [discriminate|].
    injection E as -> _. by specialize (Hr _ _ eq_refl).
  - apply chars_inj in E. by subst.
Qed.

Lemma qualifyIdentifier_chars (schema object : string)
  (database : option string) :
  Js.chars (Queries.qualifyIdentifier schema object database)
  = match Queries.given database with
    | Some d => "["%char :: doubled "]" (Js.chars d) ++ ["]"%char; "."%char]
    | None => []
    end
    ++ "["%char :: doubled "]" (Js.chars schema)
    ++ "]"%char :: "."%char :: "["%char :: doubled "]" (Js.chars object)
    ++ ["]"%char].
Proof.
  unfold Queries.qualifyIdentifier, Queries.escapeSqlIdentifier.
  destruct (Queries.given database) as [d|];
    rewrite !chars_app, !doubleChar_doubled; cbn; by rewrite <- ?app_assoc.
Qed.

Lemma qualifyIdentifier_inj (schema object schema' object' : string)
  (database database' : option string) :
  Queries.qualifyIdentifier schema object database
  = Queries.qualifyIdentifier schema' object' database' →
  schema = schema' ∧ object = object'
  ∧ Queries.given database = Queries.given database'.
Proof.
  intros E. apply (f_equal Js.chars) in E.
  rewrite !qualifyIdentifier_chars in E.
  destruct (Queries.given database) as [d|],
    (Queries.given database') as [d'|]; cbn [app] in E.
  - injection E as E. rewrite <- !app_assoc in E. cbn [app] in E.
    apply doubled_delimited in E as [Ed E]; [|done..].
    injection E as E.
    apply doubled_delimited in E as [Es E]; [|done..].
    injection E as E.
    apply doubled_delimited in E as [Eo _]; [|done..].
    apply chars_inj in Ed, Es, Eo. by subst.
  - injection E as E. rewrite <- !app_assoc in E. cbn [app] in E.
    apply doubled_delimited in E as [_ E]; [|done..].
    injection E as E.
    apply doubled_delimited in E as [_ E]; [|done..].
    discriminate.
  - injection E as E. rewrite <- !app_assoc in E. cbn [app] in E.
    apply doubled_delimited in E as [_ E]; [|done..].
    injection E as E.
    apply doubled_delimited in E as [_ E]; [|done..].
    discriminate.
  - injection E as E.
    apply doubled_delimited in E as [Es E]; [|done..].
    injection E as E.
    apply doubled_delimited in E as [Eo _]; [|done..].
    apply chars_inj in Es, Eo. by subst.
Qed.

Lemma qualifyCatalogScope_given (database database' : option string) :
  Queries.given database = Queries.given database' →
  Queries.qualifyCatalogScope database = Queries.qualifyCatalogScope database'.
Proof. unfold Queries.qualifyCatalogScope. by intros ->. Qed.

(** X25.  Qualified names are told apart: when [qualifyIdentifier]
    gives the same text for two objects, their schemas and their names
    are the same, and so are their databases, an empty database name
    counting as none.  The same holds of the scope that
    [qualifyCatalogScope] puts before a catalog view. *)
Theorem qualified_names_are_distinct (schema object schema' object' : string)
  (database database' : option string) :
  (Queries.qualifyIdentifier schema object database
   = Queries.qualifyIdentifier schema' object' database' →
   schema = schema' ∧ object = object'
   ∧ Queries.given database = Queries.given database')
  ∧ (Queries.qualifyCatalogScope database
     = Queries.qualifyCatalogScope database' →
     Queries.given database = Queries.given database')
  ∧ (Queries.given database = None
     ↔ database = None ∨ database = Some "").
Proof.
  split_and!.
  - apply qualifyIdentifier_inj.
  - intros E.
    assert (Queries.qualifyCatalogScope database +:+ ""
            = Queries.qualifyCatalogScope database' +:+ "") as E'
      by (by rewrite E).
    by apply scope_inj in E' as [? _].
  - destruct (given_cases database) as [[Hg Hd] | (d & Hg & Hd & Hne)].
    + by rewrite Hg.
    + rewrite Hg, Hd. split; [done|]. intros [?|[= ?]]; done.
Qed.

Lemma qualified_names_are_distinct_witness :
  Queries.qualifyIdentifier "b" "c" (Some "a")
  ≠ Queries.qualifyIdentifier "a" "b].[c" None.
Proof.
  intros E.
  apply (proj1 (qualified_names_are_distinct "b" "c" "a" "b].[c"
                  (Some "a") None)) in E as (E & _).
  discriminate.
Defined.

(** X26.  The literal that [escapeSqlLiteral] writes, read the way a
    string literal is read (each pair of quotes is one quote), is the
    value with every closing bracket doubled: it is the value itself
    exactly when the value has no closing bracket. *)
Theorem literal_reads_back_with_brackets_doubled (value : string) :
  Js.str (halve "'" (Js.chars (Queries.escapeSqlLiteral value)))
  = Queries.doubleChar "]" value
  ∧ (Js.str (halve "'" (Js.chars (Queries.escapeSqlLiteral value))) = value
     ↔ Js.includes "]" value = false).
Proof.
  assert (Js.str (halve "'" (Js.chars (Queries.escapeSqlLiteral value)))
          = Queries.doubleChar "]" value) as H.
  { unfold Queries.escapeSqlLiteral.
    assert (Queries.doubleChar "]" (Queries.doubleChar "'" value)
            = Queries.doubleChar "'" (Queries.doubleChar "]" value)) as ->.
    { apply chars_inj. rewrite !doubleChar_doubled.
      by apply doubled_comm. }
    apply doubleChar_halve. }
  split; [exact H|]. rewrite H, includes_false, <- doubled_same.
  split.
  - intros E. by rewrite <- doubleChar_doubled, E.
  - intros E. apply chars_inj. by rewrite doubleChar_doubled.
Qed.

Lemma literal_reads_back_with_brackets_doubled_witness :
  Js.str (halve "'" (Js.chars (Queries.escapeSqlLiteral "it's")))
  = "it's"
  ∧ Js.str (halve "'" (Js.chars (Queries.escapeSqlLiteral "a]b")))
    = "a]]b".
Proof.
  split.
  - apply (proj2 (literal_reads_back_with_brackets_doubled "it's")).
    reflexivity.
  - apply (proj1 (literal_reads_back_with_brackets_doubled "a]b")).
Defined.

Lemma join_cons (sep x y : string) (rest : list string) :
  Js.join sep (x :: y :: rest) = x +:+ sep +:+ Js.join sep (y :: rest).
Proof. reflexivity. Qed.

Lemma append_assoc (a b c : string) : (a +:+ b) +:+ c = a +:+ (b +:+ c).
Proof. apply chars_inj. by rewrite !chars_app, app_assoc. Qed.

Lemma append_inv_tail (a b c : string) : a +:+ c = b +:+ c → a = b.
Proof.
  intros E. apply (f_equal Js.chars) in E. rewrite !chars_app in E.
  apply app_inv_tail in E. by apply chars_inj.
Qed.

(** Two joined texts with the same first line. *)
Lemma join_peel (sep x : string) (rest rest' : list string) :
  rest ≠ [] → rest' ≠ [] →
  Js.join sep (x :: rest) = Js.join sep (x :: rest') →
  Js.join sep rest = Js.join sep rest'.
Proof.
  destruct rest as [|y rest]; [done|]. destruct rest' as [|y' rest']; [done|].
  intros _ _. rewrite !join_cons. intros E.
  by do 2 apply String.app_inj in E.
Qed.

Ltac starts_without_bracket :=
  let c := fresh "c" in
  let r := fresh "r" in
  let H := fresh "H" in
  intros c r H; rewrite !chars_app in H; cbn in H;
  injection H as <- _; reflexivity.

Lemma escapeSqlLiteral_chars (value : string) :
  Js.chars (Queries.escapeSqlLiteral value)
  = doubled "'" (doubled "]" (Js.chars value)).
Proof.
  unfold Queries.escapeSqlLiteral. rewrite !doubleChar_doubled.
  by apply doubled_comm.
Qed.

Lemma doubled_inj (x : ascii) (a b : list ascii) :
  doubled x a = doubled x b → a = b.
Proof.
  intros E.
  assert (doubled x a ++ [x] = doubled x b ++ [x]) as E' by (by rewrite E).
  by apply doubled_delimited in E' as [? _].
Qed.

(** A literal in a text, up to the quote that closes it. *)
Lemma literal_delimited (value value' rest rest' : string) :
  closes "'" (Js.chars rest) → closes "'" (Js.chars rest') →
  Queries.escapeSqlLiteral value +:+ "'" +:+ rest
  = Queries.escapeSqlLiteral value' +:+ "'" +:+ rest' →
  value = value' ∧ rest = rest'.
Proof.
  intros Hr Hr' E. apply (f_equal Js.chars) in E.
  rewrite !chars_app, !escapeSqlLiteral_chars in E.
  change (Js.chars "'") with ["'"%char] in E. cbn [app] in E.
  apply doubled_delimited in E as [E1 E2]; [|done..].
  apply doubled_inj in E1. apply chars_inj in E1, E2. done.
Qed.

(** X30.  The two queries of [getTable] name their object: two calls of
    [columnsForObjectQuery], or of [extendedPropertyDescriptionQuery],
    that give the same text have the same schema, the same object name
    and the same database, an empty database name counting as none. *)
Theorem table_queries_name_their_object (schema object schema' object' : string)
  (database database' : option string) :
  (Queries.columnsForObjectQuery schema object database
   = Queries.columnsForObjectQuery schema' object' database' →
   schema = schema' ∧ object = object'
   ∧ Queries.given database = Queries.given database')
  ∧ (Queries.extendedPropertyDescriptionQuery schema object database
     = Queries.extendedPropertyDescriptionQuery schema' object' database' →
     schema = schema' ∧ object = object'
     ∧ Queries.given database = Queries.given database').
Proof.
  split.
  - unfold Queries.columnsForObjectQuery, Queries.template. intros E.
    cbn [app Queries.selectLines Queries.columnsSelectList] in E.
    repeat (apply join_peel in E; [|done|done]).
    rewrite !join_cons, !append_assoc in E.
    apply String.app_inj in E.
    apply scope_inj in E as [Hg E]; [|starts_without_bracket..].
    rewrite (qualifyCatalogScope_given _ _ Hg) in E.
    repeat apply String.app_inj in E. apply append_inv_tail in E.
    by apply qualifyIdentifier_inj in E.
  - unfold Queries.extendedPropertyDescriptionQuery, Queries.template.
    intros E.
    repeat (apply join_peel in E; [|done|done]).
    rewrite !join_cons, !append_assoc in E.
    apply String.app_inj in E.
    apply scope_inj in E as [Hg E]; [|starts_without_bracket..].
    apply String.app_inj in E.
    change "', 'TABLE', N'" with ("'" +:+ ", 'TABLE', N'") in E.
    rewrite !append_assoc in E.
    apply literal_delimited in E as [Hs E]; [|done..].
    apply String.app_inj in E.
    change "', NULL, NULL);" with ("'" +:+ ", NULL, NULL);") in E.
    rewrite !append_assoc in E.
    apply literal_delimited in E as [Ho _]; [|done..].
    done.
Qed.

Lemma table_queries_name_their_object_witness :
  Queries.columnsForObjectQuery "dbo" "a].[b" None
  ≠ Queries.columnsForObjectQuery "a" "b" (Some "dbo").
Proof.
  intros E.
  apply (proj1 (table_queries_name_their_object "dbo" "a].[b" "a" "b"
                  None (Some "dbo"))) in E as (E & _).
  discriminate.
Defined.

End Qualifying.

(** ** From CREATE to ALTER *)

Section ConvertToAlter.
Import ScriptCommands TextProps ContextProps.

Variable toUpperCase : string → string.

Ltac re_inv :=
  repeat (cbv beta in *; match goal with
  | H : Re.alt _ _ _ _ = Some _ |- _ => apply alt_inv in H as [H|H]
  | H : Re.lit _ _ _ = Some _ |- _ =>
      let m := fresh "word" in
      let rest := fresh "rest" in
      let E := fresh "Hword" in
      apply lit_inv in H as (m & rest & -> & E & H)
  | H : Re.plus _ _ _ = Some _ |- _ =>
      let m := fresh "run" in
      let rest := fresh "rest" in
      let N := fresh "Hsome" in
      let F := fresh "Hrun" in
      apply plus_inv in H as (m & rest & -> & N & F & H)
  | H : Re.star _ _ _ = Some _ |- _ =>
      let m := fresh "run" in
      let rest := fresh "rest" in
      let F := fresh "Hrun" in
      apply star_inv in H as (m & rest & -> & F & H)
  end).

Lemma createRegex_inv (definition objectType after : string) :
  createRegex definition = Some (objectType, after) →
  ∃ lead verb gap,
    Js.chars definition
    = lead ++ verb ++ gap ++ Js.chars objectType ++ Js.chars after
    ∧ Forall (fun c => Js.isSpace c = true) lead
    ∧ Js.toLowerCase (Js.str verb) = "create"
    ∧ spacing gap
    ∧ Js.toLowerCase objectType ∈ ["view"; "procedure"; "proc"; "function"].
Proof.
  unfold createRegex. intros H. generalize dependent (Js.chars definition).
  intros cs H. re_inv; injection H as <- <-; rewrite !chars_str;
    exists run, word, run0;
    (split; [reflexivity|]); (split; [done|]);
    (split; [by erewrite lower_of_lit by eassumption|]);
    (split; [by split|]);
    erewrite lower_of_lit by eassumption;
    apply (bool_decide_unpack _); vm_compute; exact I.
Qed.

Lemma normalizeObjectType_known (objectType : string) :
  Js.toLowerCase objectType ∈ ["view"; "procedure"; "proc"; "function"] →
  (Js.toLowerCase objectType, normalizeObjectType toUpperCase objectType)
  ∈ OBJECT_TYPES.
Proof.
  intros H. unfold normalizeObjectType.
  repeat (apply elem_of_cons in H as [-> | H]);
    [ | | | | by apply elem_of_nil in H];
    cbn; apply (bool_decide_unpack _); vm_compute; exact I.
Qed.

Lemma createRegex_ALTER (text : string) :
  createRegex ("ALTER " +:+ text) = None.
Proof. reflexivity. Qed.

Lemma starFrom_greedy {R} (p : ascii → bool) (k : Re.Cont R)
  (run : list ascii) :
  ∀ acc rest r,
    Forall (fun c => p c = true) run →
    closes_class p rest →
    k (acc ++ run) rest = Some r →
    Re.starFrom p k acc (run ++ rest) = Some r.
Proof.
  induction run as [|c run IH]; intros acc rest r Hrun Hrest Hk.
  - rewrite app_nil_r in Hk. cbn [app].
    destruct rest as [|c rest]; [exact Hk|]. cbn [Re.starFrom].
    cbn in Hrest. by rewrite Hrest.
  - apply Forall_cons in Hrun as [Hc Hrun]. cbn [app Re.starFrom].
    rewrite Hc. rewrite (IH (acc ++ [c]) rest r Hrun Hrest); [reflexivity|].
    by rewrite <- app_assoc.
Qed.

Lemma plus_greedy {R} (p : ascii → bool) (k : Re.Cont R)
  (run rest : list ascii) (r : R) :
  run ≠ [] → Forall (fun c => p c = true) run → closes_class p rest →
  k run rest = Some r →
  Re.plus p k (run ++ rest) = Some r.
Proof.
  intros Hne Hrun Hrest Hk. destruct run as [|c run]; [done|].
  apply Forall_cons in Hrun as [Hc Hrun]. cbn [app Re.plus]. rewrite Hc.
  by apply starFrom_greedy.
Qed.

Lemma lit_match {R} (s : string) (k : Re.Cont R) (m rest : list ascii) :
  map Js.toLowerChar m = map Js.toLowerChar (Js.chars s) →
  Re.lit s k (m ++ rest) = k m rest.
Proof.
  intros H. unfold Re.lit, Re.eqIgnoreCase.
  assert (Datatypes.length (Js.chars s) = Datatypes.length m) as ->.
  { apply (f_equal Datatypes.length) in H. by rewrite !length_map in H. }
  rewrite take_app_length, drop_app_length.
  by rewrite bool_decide_eq_true_2.
Qed.

Lemma lower_chars (m : list ascii) (s : string) :
  Js.toLowerCase (Js.str m) = s → map Js.toLowerChar m = Js.chars s.
Proof.
  unfold Js.toLowerCase. rewrite chars_str. intros <-. by rewrite chars_str.
Qed.

Ltac explode H :=
  repeat match type of H with
  | map _ ?m = _ :: _ =>
      let a := fresh "a" in
      let E := fresh "Ea" in
      destruct m as [|a m]; [discriminate H|];
      injection H as E H
  | map _ ?m = [] => destruct m; [clear H | discriminate H]
  end.

Ltac lit_fails :=
  unfold Re.lit at 1, Re.eqIgnoreCase;
  cbn [Js.chars String.list_ascii_of_string Datatypes.length take app map];
  rewrite bool_decide_eq_false_2;
  [| repeat match goal with E : Js.toLowerChar _ = _ |- _ =>
            rewrite E end; try discriminate].

Lemma letter_not_space (c : ascii) :
  Js.isLetter (Js.toLowerChar c) = true → Js.isSpace c = false.
Proof. ascii_cases c. Qed.

Ltac use_lower :=
  cbn [map];
  repeat match goal with E : Js.toLowerChar _ = _ |- _ =>
    rewrite E; clear E end.

(** A definition that starts with CREATE and an object keyword is
    matched, with the keyword and the text after it. *)
Lemma createRegex_matches_chars (lead' verb' gap' kind' after' : list ascii) :
  Forall (fun c => Js.isSpace c = true) lead' →
  map Js.toLowerChar verb' = Js.chars "create" →
  gap' ≠ [] → Forall (fun c => Js.isSpace c = true) gap' →
  Js.toLowerCase (Js.str kind')
    ∈ ["view"; "procedure"; "proc"; "function"] →
  (Js.toLowerCase (Js.str kind') = "proc" →
   Js.toLowerCase (Js.str (take 5 after')) ≠ "edure") →
  createRegex (Js.str (lead' ++ verb' ++ gap' ++ kind' ++ after'))
  = Some (Js.str kind', Js.str after').
Proof.
  intros Hlead Hverb Hne' Hgap Hkind Hproc.
  unfold createRegex, Re.star. rewrite chars_str.
  cbn [Js.chars String.list_ascii_of_string] in Hverb. explode Hverb.
  assert (Js.isSpace a = false) as Ha
    by (apply letter_not_space; by rewrite Ea).
  apply starFrom_greedy; [exact Hlead | exact Ha |].
  cbn [app].
  change (a :: a0 :: a1 :: a2 :: a3 :: a4 :: ?l)
    with ([a; a0; a1; a2; a3; a4] ++ l).
  rewrite lit_match by (by use_lower).
  assert (∀ s,
            map Js.toLowerChar kind' = map Js.toLowerChar (Js.chars s) →
            Re.lit s (fun g1 rest => Some (Js.str g1, Js.str rest))
              (kind' ++ after')
            = Some (Js.str kind', Js.str after')) as Hhit.
  { intros s Hs. by rewrite lit_match. }
  unfold Re.alt.
  repeat (apply elem_of_cons in Hkind as [Hkind | Hkind]);
    [ | | | | by apply elem_of_nil in Hkind];
    pose proof (lower_chars _ _ Hkind) as Hchars.
  - pose proof (Hhit "view" Hchars) as Hit.
    cbn [Js.chars String.list_ascii_of_string] in Hchars. explode Hchars.
    apply plus_greedy; [done.. | | ].
    { apply letter_not_space. by rewrite Ea5. }
    by rewrite Hit.
  - pose proof (Hhit "procedure" Hchars) as Hit.
    cbn [Js.chars String.list_ascii_of_string] in Hchars. explode Hchars.
    apply plus_greedy; [done.. | | ].
    { apply letter_not_space. by rewrite Ea5. }
    rewrite Hit. lit_fails. reflexivity.
  - pose proof (Hhit "proc" Hchars) as Hit.
    specialize (Hproc Hkind).
    cbn [Js.chars String.list_ascii_of_string] in Hchars. explode Hchars.
    apply plus_greedy; [done.. | | ].
    { apply letter_not_space. by rewrite Ea5. }
    rewrite Hit. lit_fails. unfold Re.orElse at 1.
    unfold Re.lit at 1, Re.eqIgnoreCase.
    cbn [Js.chars String.list_ascii_of_string Datatypes.length take app map].
    rewrite bool_decide_eq_false_2; [reflexivity|].
    rewrite Ea5, Ea6, Ea7, Ea8. intros [= E]. apply Hproc.
    unfold Js.toLowerCase. by rewrite !chars_str, <- E.
  - pose proof (Hhit "function" Hchars) as Hit.
    cbn [Js.chars String.list_ascii_of_string] in Hchars. explode Hchars.
    apply plus_greedy; [done.. | | ].
    { apply letter_not_space. by rewrite Ea5. }
    rewrite Hit. lit_fails. unfold Re.orElse at 1. lit_fails.
    unfold Re.orElse at 1. lit_fails. reflexivity.
Qed.

Lemma createRegex_matches (lead verb gap kind after : string) :
  within Js.isSpace lead →
  Js.toLowerCase verb = "create" →
  gap ≠ "" → within Js.isSpace gap →
  Js.toLowerCase kind ∈ ["view"; "procedure"; "proc"; "function"] →
  (Js.toLowerCase kind = "proc" →
   Js.toLowerCase (Js.sliceTo 5 after) ≠ "edure") →
  createRegex (lead +:+ verb +:+ gap +:+ kind +:+ after)
  = Some (kind, after).
Proof.
  intros Hlead Hverb Hne Hgap Hkind Hproc.
  assert (lead +:+ verb +:+ gap +:+ kind +:+ after
          = Js.str (Js.chars lead ++ Js.chars verb ++ Js.chars gap
                    ++ Js.chars kind ++ Js.chars after)) as ->.
  { apply chars_inj. by rewrite chars_str, !chars_app. }
  rewrite createRegex_matches_chars; rewrite ?str_chars; try done.
  - apply lower_chars. by rewrite str_chars.
  - intros E. apply Hne, chars_inj. by rewrite E.
Qed.

Lemma object_type_known (kind keyword : string) :
  (Js.toLowerCase kind, keyword) ∈ OBJECT_TYPES →
  Js.toLowerCase kind ∈ ["view"; "procedure"; "proc"; "function"]
  ∧ normalizeObjectType toUpperCase kind = keyword.
Proof.
  unfold OBJECT_TYPES, normalizeObjectType. rewrite !elem_of_cons.
  intros [E|[E|[E|[E|E]]]]; try (by apply elem_of_nil in E);
    injection E as E1 E2; rewrite E1; subst keyword;
    (split; [apply (bool_decide_unpack _); vm_compute; exact I
            | reflexivity]).
Qed.

(** X27.  [convertToAlter] rewrites the start of a definition.  A
    definition that starts, after optional white space, with CREATE,
    white space and one of VIEW, PROCEDURE, PROC or FUNCTION, in any
    case, gets that start replaced by ALTER and the keyword in upper case,
    PROC becoming PROCEDURE, and keeps the rest; no other definition is
    changed.  Converting twice is converting once, and the result never
    depends on [toUpperCase]. *)
Theorem convertToAlter_rewrites_the_start (definition : string) :
  (∀ lead verb gap kind after keyword,
     definition = lead +:+ verb +:+ gap +:+ kind +:+ after →
     within Js.isSpace lead →
     Js.toLowerCase verb = "create" →
     gap ≠ "" → within Js.isSpace gap →
     (Js.toLowerCase kind, keyword) ∈ OBJECT_TYPES →
     (Js.toLowerCase kind = "proc" →
      Js.toLowerCase (Js.sliceTo 5 after) ≠ "edure") →
     convertToAlter toUpperCase definition = "ALTER " +:+ keyword +:+ after)
  ∧ (convertToAlter toUpperCase definition = definition
     ∨ ∃ lead verb gap kind after keyword,
         definition = Js.str lead +:+ Js.str verb +:+ Js.str gap
                      +:+ kind +:+ after
         ∧ Forall (fun c => Js.isSpace c = true) lead
         ∧ Js.toLowerCase (Js.str verb) = "create"
         ∧ spacing gap
         ∧ (Js.toLowerCase kind, keyword) ∈ OBJECT_TYPES
         ∧ convertToAlter toUpperCase definition
           = "ALTER " +:+ keyword +:+ after)
  ∧ convertToAlter toUpperCase (convertToAlter toUpperCase definition)
    = convertToAlter toUpperCase definition
  ∧ (∀ other : string → string,
       convertToAlter other definition
       = convertToAlter toUpperCase definition).
Proof.
  split.
  { intros lead verb gap kind after keyword -> Hlead Hverb Hne Hgap Hk Hproc.
    destruct (object_type_known kind keyword Hk) as [Hkind Hnorm].
    unfold convertToAlter. rewrite createRegex_matches by done.
    by rewrite Hnorm. }
  unfold convertToAlter.
  destruct (createRegex definition) as [[objectType after]|] eqn:E.
  2: { split; [by left|]. split; [by rewrite E | done]. }
  apply createRegex_inv in E as (lead & verb & gap & Hd & Hl & Hv & Hg & Hk).
  pose proof (normalizeObjectType_known objectType Hk) as Hn.
  split_and!.
  - right. exists lead, verb, gap, objectType, after. eexists.
    split_and!; try done.
    apply chars_inj. by rewrite !chars_app, !chars_str.
  - by rewrite createRegex_ALTER.
  - intros other. do 2 f_equal. unfold normalizeObjectType.
    repeat (apply elem_of_cons in Hk as [-> | Hk]);
      [ | | | | by apply elem_of_nil in Hk]; reflexivity.
Qed.

End ConvertToAlter.

Lemma convertToAlter_rewrites_the_start_witness :
  ScriptCommands.convertToAlter Js.toLowerCase "  Create   Proc dbo.p AS SELECT 1"
  = "ALTER PROCEDURE dbo.p AS SELECT 1".
Proof.
  apply (proj1 (convertToAlter_rewrites_the_start Js.toLowerCase
                  "  Create   Proc dbo.p AS SELECT 1")
           "  " "Create" "   " "Proc" " dbo.p AS SELECT 1" "PROCEDURE");
    try reflexivity; try discriminate.
  - repeat constructor.
  - repeat constructor.
  - apply (bool_decide_unpack _). vm_compute. exact I.
Defined.

(** ** Writing a qualified name and reading it back *)

Section NameRoundTrip.
Import SqlParser TextProps Spec.

Lemma splitGo_segment (sep : ascii) (a : list ascii) :
  ∀ cur rest,
    Forall (fun c => Js.isChar sep c = false) a →
    Js.splitGo sep cur (a ++ sep :: rest)
    = Js.str (rev cur ++ a) :: Js.splitGo sep [] rest.
Proof.
  induction a as [|c a IH]; intros cur rest Ha; cbn [app Js.splitGo].
  { by rewrite isChar_refl, app_nil_r. }
  apply Forall_cons in Ha as [Hc Ha]. rewrite Hc, IH by done.
  cbn [rev]. by rewrite <- app_assoc.
Qed.

Lemma split_join (segments : list string) :
  segments ≠ [] →
  Forall (fun s => Forall (fun c => isDot c = false) (Js.chars s)) segments →
  Js.split "." (Js.join "." segments) = segments.
Proof.
  intros Hne H. unfold Js.split.
  induction H as [|s rest Hs Hrest IH]; [done|].
  destruct rest as [|y rest].
  { cbn [Js.join]. rewrite splitGo_no_sep by done. cbn. by rewrite str_chars. }
  rewrite join_cons, !chars_app.
  change (Js.chars ".") with ["."%char]. cbn [app].
  rewrite splitGo_segment by done. cbn [rev app].
  rewrite str_chars. f_equal. by apply IH.
Qed.

Lemma join_chars (P : ascii → Prop) (segments : list string) :
  P "."%char → Forall (fun s => Forall P (Js.chars s)) segments →
  Forall P (Js.chars (Js.join "." segments)).
Proof.
  intros Hdot H. induction H as [|s rest Hs Hrest IH]; [constructor|].
  destruct rest as [|y rest]; [exact Hs|].
  rewrite join_cons, !chars_app. apply Forall_app. split; [exact Hs|].
  apply Forall_app. split; [|exact IH]. by repeat constructor.
Qed.

Lemma removeAll_none (p : ascii → bool) (s : string) :
  free p s → Js.removeAll p s = s.
Proof.
  intros H. unfold Js.removeAll. rewrite <- (str_chars s) at 2. f_equal.
  induction H as [|c cs Hc _ IH]; [reflexivity|].
  cbn [List.filter]. rewrite Hc. cbn. by rewrite IH.
Qed.

Lemma plainName_chars (s : string) :
  plainName s →
  Forall (fun c => isBracket c = false) (Js.chars s)
  ∧ Forall (fun c => isDot c = false) (Js.chars s).
Proof.
  intros (_ & _ & H).
  split; (eapply Forall_impl; [exact H|]); intros c Hc;
    unfold isBracketOrDot in Hc; by apply orb_false_iff in Hc as [? ?].
Qed.

Lemma resolvePart_plain (s : string) :
  plainName s → resolvePart (Some s) = Some s.
Proof.
  intros Hs. destruct (plainName_chars s Hs) as [Hb _].
  destruct Hs as (Hne & Htrim & _). unfold resolvePart, stripBrackets.
  rewrite (removeAll_none isBracket s Hb), Htrim.
  by apply nonEmpty_true in Hne as ->.
Qed.

Lemma tokens_of_plain_names (segments : list string) :
  Forall plainName segments →
  tokenizeQualifiedIdentifier (Js.join "." segments) = segments.
Proof.
  intros H. unfold tokenizeQualifiedIdentifier.
  rewrite (tokenizeGo_no_bracket _ [] []).
  2: { apply join_chars; [reflexivity|].
       eapply Forall_impl; [exact H|]. intros s Hs.
       by apply plainName_chars. }
  cbn [app]. fold (Js.split "." (Js.join "." segments)).
  destruct segments as [|s rest]; [reflexivity|].
  rewrite split_join; [|done|].
  2: { eapply Forall_impl; [exact H|]. intros x Hx.
       by apply plainName_chars. }
  induction H as [|x xs (Hne & Htrim & _) _ IH]; [reflexivity|].
  cbn [map List.filter]. rewrite Htrim.
  apply nonEmpty_true in Hne as ->. by rewrite IH.
Qed.

(** X29.  Names written without brackets and joined by dots are read
    back as they were written: the tokens of the joined text are the
    names, and the parser returns the last name as the object, the one
    before it as the schema and the one before that as the database. *)
Theorem joined_names_read_back (segments : list string) :
  Forall plainName segments →
  tokenizeQualifiedIdentifier (Js.join "." segments) = segments
  ∧ parseQualifiedIdentifier (Js.join "." segments)
    = mkParts (rev segments !! 2%nat) (rev segments !! 1%nat)
        (rev segments !! 0%nat).
Proof.
  intros H. split; [by apply tokens_of_plain_names|].
  rewrite parse_as_worded. unfold parse_worded.
  rewrite tokens_of_plain_names by done.
  assert (∀ i, resolvePart (rev segments !! i) = rev segments !! i) as Hr.
  { intros i. destruct (rev segments !! i) as [s|] eqn:E; [|reflexivity].
    apply resolvePart_plain.
    apply list_elem_of_lookup_2, list_elem_of_In, in_rev, list_elem_of_In
      in E.
    by eapply Forall_forall in H. }
  by rewrite !Hr.
Qed.

Lemma joined_names_read_back_witness :
  parseQualifiedIdentifier "srv.Sales.dbo.Order Lines"
  = mkParts (Some "Sales") (Some "dbo") (Some "Order Lines").
Proof.
  assert (Forall plainName ["srv"; "Sales"; "dbo"; "Order Lines"]) as H.
  { repeat constructor; discriminate. }
  exact (proj2 (joined_names_read_back
                  ["srv"; "Sales"; "dbo"; "Order Lines"] H)).
Defined.

End NameRoundTrip.

(** ** The dotted parts of an identifier and their places *)

Section DottedParts.
Import SqlParser Spec.












Lemma dropEnd_nil_inv {A} (p : A → bool) (l : list A) :
  Js.dropEnd p l = [] → Js.dropWhile p l = [].
Proof.
  unfold Js.dropEnd. intros H.
  assert (Js.dropWhile p (rev l) = []) as Hr.
  { by rewrite <- (rev_involutive (Js.dropWhile p (rev l))), H. }
  assert (∀ m : list A, Js.dropWhile p m = [] → Forall (fun x => p x = true) m)
    as Hall.
  { induction m as [|x m IHm]; [constructor|]. cbn [Js.dropWhile].
    destruct (p x) eqn:Hx; [|discriminate]. intros Hm. by constructor; auto. }
  apply Hall in Hr. apply Forall_rev in Hr. rewrite rev_involutive in Hr.
  clear -Hr. induction Hr as [|x m Hx _ IH]; [reflexivity|].
  cbn [Js.dropWhile]. by rewrite Hx.
Qed.











End DottedParts.
